(** * Room/session orchestration of the WebRTC + HLS server

    A shallow embedding of the signaling server (the socket.io handlers of
    the server entry point), of [hls.ts] (playback pipeline) and of
    [injectFile.ts] (file injection), followed by the properties of the
    specification that concern them.

    Layout:
    - [JsMap]: the insertion-ordered JavaScript [Map];
    - the process-wide state ([World]): the module-level maps of the three
      files, the external key-value store, the sockets, the heap of media
      engine objects the maps refer to, the trace of outward calls;
    - [async]: JavaScript [async] functions as a resumption monad, with a
      run-to-completion semantics ([run]) and an interleaving one
      ([resume], [run_schedule]);
    - the handlers, one definition per source function;
    - the theorems. *)

From stdpp Require Import base option list gmap sets strings.

(** ** JavaScript [Map]: insertion-ordered association list *)

Module JsMap.
Section JsMap.
Context {K V : Type} `{EqDecision K}.

Fixpoint get (k : K) (m : list (K * V)) : option V :=
  match m with
  | [] => None
  | (k', v) :: m' => if decide (k' = k) then Some v else get k m'
  end.

(** [Map.prototype.set]: an existing key keeps its position. *)
Fixpoint set (k : K) (v : V) (m : list (K * V)) : list (K * V) :=
  match m with
  | [] => [(k, v)]
  | (k', v') :: m' =>
      if decide (k' = k) then (k, v) :: m' else (k', v') :: set k v m'
  end.

Fixpoint delete (k : K) (m : list (K * V)) : list (K * V) :=
  match m with
  | [] => []
  | (k', v') :: m' =>
      if decide (k' = k) then delete k m' else (k', v') :: delete k m'
  end.

Definition has (k : K) (m : list (K * V)) : bool := bool_decide (is_Some (get k m)).

Definition values (m : list (K * V)) : list V := snd <$> m.
End JsMap.
End JsMap.

(** ** Data of the signaling layer *)

Inductive MediaKind := audio | video.

#[global] Instance MediaKind_eq_dec : EqDecision MediaKind.
Proof. solve_decision. Defined.

(** [interface PeerProducerInfo]; the maps hold references (heap ids).
    [producerTransport] is [null!] until [createWebRTCTransport]. *)
Record PeerProducerInfo := {
  producerTransport : option nat;
  producers : list (MediaKind * nat);
}.

(** [interface PeerConsumerInfo]; the key is the consumer's id. *)
Record PeerConsumerInfo := {
  consumerTransport : option nat;
  consumers : list (nat * nat);
}.

(** [interface CustomSocket]: the fields the handlers add to a socket, and
    the socket.io rooms it joined. *)
Record CustomSocket := {
  username : option string;
  roomId : option string;
  audioId : option nat;
  rooms : list string;
}.

Definition newSocket : CustomSocket :=
  {| username := None; roomId := None; audioId := None; rooms := [] |}.

(** [type HlsSession] of hls.ts: every field optional. *)
Record HlsSession := {
  hls_ffmpeg : option nat;
  hls_plainTransport : option nat;
  hls_consumer : option nat;
}.

(** [type InjectSession] of injectFile.ts. *)
Record InjectSession := {
  inj_ffmpeg : option nat;
  inj_audioTransport : option nat;
  inj_videoTransport : option nat;
  inj_audioProducer : option nat;
  inj_videoProducer : option nat;
}.

(** ** The media engine's objects, as far as the handlers observe them *)

Record ProducerObj := {
  p_kind : MediaKind;
  p_appData : string;            (* appData.username *)
  p_codec : nat;                 (* rtpParameters, abstracted to a codec id *)
  p_room : string;               (* the router the transport belongs to *)
  p_transport : nat;
  p_closed : bool;
  (* the listener registered by [producer.on('@close', ...)]:
     the [peerKey] and [kind] its closure captured *)
  p_onclose : option (string * MediaKind);
}.

Record ConsumerObj := {
  c_producer : nat;
  c_transport : nat;
  c_paused : bool;
  c_closed : bool;
}.

Record TransportObj := {
  t_room : string;
  t_plain : bool;
  t_closed : bool;
}.

(** A spawned ffmpeg child process. [proc_hls] is the closure of the
    ['error'] and ['close'] listeners of hls.ts (consumer, plainTransport);
    the listeners of injectFile.ts only log. *)
Record ProcObj := {
  proc_room : string;
  proc_alive : bool;
  proc_hls : option (nat * nat);
}.

(** ** Outward calls, in order *)

Inductive Notification :=
| NewProducer (user : string) (producerId : nat)
| PeerLeft (user : string)
| MeetingEnded.

Inductive Ack :=
| AckError (msg : string)
| AckJoin (room : string) (existingProducers : option (list (nat * string)))
| AckTransports (producerT consumerT : nat)
| AckProduced (id : nat)
| AckConsumed (id producerId : nat).

Inductive Event :=
| EvAck (sid : nat) (a : Ack)                      (* callback(...) *)
| EvToRoom (room : string) (except : option nat) (n : Notification)
| EvProducerClose (p : nat)
| EvConsumerClose (c : nat)
| EvTransportClose (t : nat)
| EvRouterClose (room : string)
| EvConnect (t : nat)
| EvConsume (t producerId : nat) (paused : bool) (c : nat)
| EvResume (c : nat)
| EvWriteSdp (room : string)
| EvSpawn (pid : nat) (room : string)
| EvKill (pid : nat).

#[global] Instance Notification_eq_dec : EqDecision Notification.
Proof. solve_decision. Defined.
#[global] Instance Ack_eq_dec : EqDecision Ack.
Proof. solve_decision. Defined.
#[global] Instance Event_eq_dec : EqDecision Event.
Proof. solve_decision. Defined.

(** ** The process-wide state *)

Record World := {
  (* server entry point *)
  producerInfo : gmap string PeerProducerInfo;
  consumerInfo : gmap string PeerConsumerInfo;
  hlsActiveRooms : gset string;
  (* hls.ts, injectFile.ts *)
  hlsSessions : gmap string HlsSession;
  injectSessions : gmap string InjectSession;
  (* the shared store: key [room:<id>], value the JSON [{ peers }] *)
  redis : gmap string (list string);
  sockets : gmap nat CustomSocket;
  (* media engine and child processes *)
  e_producers : gmap nat ProducerObj;
  e_consumers : gmap nat ConsumerObj;
  e_transports : gmap nat TransportObj;
  e_procs : gmap nat ProcObj;
  next_id : nat;
  (* outward calls so far, oldest first *)
  trace : list Event;
  (* outcome of the coming fallible external calls: [true] is a failure;
     when the schedule is exhausted every call succeeds *)
  faults : list bool;
}.

Definition set_producerInfo (f : gmap string PeerProducerInfo → gmap string PeerProducerInfo) (w : World) : World :=
  {| producerInfo := f (producerInfo w); consumerInfo := consumerInfo w;
     hlsActiveRooms := hlsActiveRooms w; hlsSessions := hlsSessions w;
     injectSessions := injectSessions w; redis := redis w; sockets := sockets w;
     e_producers := e_producers w; e_consumers := e_consumers w;
     e_transports := e_transports w; e_procs := e_procs w; next_id := next_id w;
     trace := trace w; faults := faults w |}.

Definition set_consumerInfo (f : gmap string PeerConsumerInfo → gmap string PeerConsumerInfo) (w : World) : World :=
  {| producerInfo := producerInfo w; consumerInfo := f (consumerInfo w);
     hlsActiveRooms := hlsActiveRooms w; hlsSessions := hlsSessions w;
     injectSessions := injectSessions w; redis := redis w; sockets := sockets w;
     e_producers := e_producers w; e_consumers := e_consumers w;
     e_transports := e_transports w; e_procs := e_procs w; next_id := next_id w;
     trace := trace w; faults := faults w |}.

Definition set_hlsActiveRooms (f : gset string → gset string) (w : World) : World :=
  {| producerInfo := producerInfo w; consumerInfo := consumerInfo w;
     hlsActiveRooms := f (hlsActiveRooms w); hlsSessions := hlsSessions w;
     injectSessions := injectSessions w; redis := redis w; sockets := sockets w;
     e_producers := e_producers w; e_consumers := e_consumers w;
     e_transports := e_transports w; e_procs := e_procs w; next_id := next_id w;
     trace := trace w; faults := faults w |}.

Definition set_hlsSessions (f : gmap string HlsSession → gmap string HlsSession) (w : World) : World :=
  {| producerInfo := producerInfo w; consumerInfo := consumerInfo w;
     hlsActiveRooms := hlsActiveRooms w; hlsSessions := f (hlsSessions w);
     injectSessions := injectSessions w; redis := redis w; sockets := sockets w;
     e_producers := e_producers w; e_consumers := e_consumers w;
     e_transports := e_transports w; e_procs := e_procs w; next_id := next_id w;
     trace := trace w; faults := faults w |}.

Definition set_injectSessions (f : gmap string InjectSession → gmap string InjectSession) (w : World) : World :=
  {| producerInfo := producerInfo w; consumerInfo := consumerInfo w;
     hlsActiveRooms := hlsActiveRooms w; hlsSessions := hlsSessions w;
     injectSessions := f (injectSessions w); redis := redis w; sockets := sockets w;
     e_producers := e_producers w; e_consumers := e_consumers w;
     e_transports := e_transports w; e_procs := e_procs w; next_id := next_id w;
     trace := trace w; faults := faults w |}.

Definition set_redis (f : gmap string (list string) → gmap string (list string)) (w : World) : World :=
  {| producerInfo := producerInfo w; consumerInfo := consumerInfo w;
     hlsActiveRooms := hlsActiveRooms w; hlsSessions := hlsSessions w;
     injectSessions := injectSessions w; redis := f (redis w); sockets := sockets w;
     e_producers := e_producers w; e_consumers := e_consumers w;
     e_transports := e_transports w; e_procs := e_procs w; next_id := next_id w;
     trace := trace w; faults := faults w |}.

Definition set_sockets (f : gmap nat CustomSocket → gmap nat CustomSocket) (w : World) : World :=
  {| producerInfo := producerInfo w; consumerInfo := consumerInfo w;
     hlsActiveRooms := hlsActiveRooms w; hlsSessions := hlsSessions w;
     injectSessions := injectSessions w; redis := redis w; sockets := f (sockets w);
     e_producers := e_producers w; e_consumers := e_consumers w;
     e_transports := e_transports w; e_procs := e_procs w; next_id := next_id w;
     trace := trace w; faults := faults w |}.

Definition set_e_producers (f : gmap nat ProducerObj → gmap nat ProducerObj) (w : World) : World :=
  {| producerInfo := producerInfo w; consumerInfo := consumerInfo w;
     hlsActiveRooms := hlsActiveRooms w; hlsSessions := hlsSessions w;
     injectSessions := injectSessions w; redis := redis w; sockets := sockets w;
     e_producers := f (e_producers w); e_consumers := e_consumers w;
     e_transports := e_transports w; e_procs := e_procs w; next_id := next_id w;
     trace := trace w; faults := faults w |}.

Definition set_e_consumers (f : gmap nat ConsumerObj → gmap nat ConsumerObj) (w : World) : World :=
  {| producerInfo := producerInfo w; consumerInfo := consumerInfo w;
     hlsActiveRooms := hlsActiveRooms w; hlsSessions := hlsSessions w;
     injectSessions := injectSessions w; redis := redis w; sockets := sockets w;
     e_producers := e_producers w; e_consumers := f (e_consumers w);
     e_transports := e_transports w; e_procs := e_procs w; next_id := next_id w;
     trace := trace w; faults := faults w |}.

Definition set_e_transports (f : gmap nat TransportObj → gmap nat TransportObj) (w : World) : World :=
  {| producerInfo := producerInfo w; consumerInfo := consumerInfo w;
     hlsActiveRooms := hlsActiveRooms w; hlsSessions := hlsSessions w;
     injectSessions := injectSessions w; redis := redis w; sockets := sockets w;
     e_producers := e_producers w; e_consumers := e_consumers w;
     e_transports := f (e_transports w); e_procs := e_procs w; next_id := next_id w;
     trace := trace w; faults := faults w |}.

Definition set_e_procs (f : gmap nat ProcObj → gmap nat ProcObj) (w : World) : World :=
  {| producerInfo := producerInfo w; consumerInfo := consumerInfo w;
     hlsActiveRooms := hlsActiveRooms w; hlsSessions := hlsSessions w;
     injectSessions := injectSessions w; redis := redis w; sockets := sockets w;
     e_producers := e_producers w; e_consumers := e_consumers w;
     e_transports := e_transports w; e_procs := f (e_procs w); next_id := next_id w;
     trace := trace w; faults := faults w |}.

Definition set_next_id (n : nat) (w : World) : World :=
  {| producerInfo := producerInfo w; consumerInfo := consumerInfo w;
     hlsActiveRooms := hlsActiveRooms w; hlsSessions := hlsSessions w;
     injectSessions := injectSessions w; redis := redis w; sockets := sockets w;
     e_producers := e_producers w; e_consumers := e_consumers w;
     e_transports := e_transports w; e_procs := e_procs w; next_id := n;
     trace := trace w; faults := faults w |}.

Definition set_faults (fs : list bool) (w : World) : World :=
  {| producerInfo := producerInfo w; consumerInfo := consumerInfo w;
     hlsActiveRooms := hlsActiveRooms w; hlsSessions := hlsSessions w;
     injectSessions := injectSessions w; redis := redis w; sockets := sockets w;
     e_producers := e_producers w; e_consumers := e_consumers w;
     e_transports := e_transports w; e_procs := e_procs w; next_id := next_id w;
     trace := trace w; faults := fs |}.

(** Append one outward call to the trace. *)
Definition emit (e : Event) (w : World) : World :=
  {| producerInfo := producerInfo w; consumerInfo := consumerInfo w;
     hlsActiveRooms := hlsActiveRooms w; hlsSessions := hlsSessions w;
     injectSessions := injectSessions w; redis := redis w; sockets := sockets w;
     e_producers := e_producers w; e_consumers := e_consumers w;
     e_transports := e_transports w; e_procs := e_procs w; next_id := next_id w;
     trace := trace w ++ [e]; faults := faults w |}.

Definition emptyWorld : World :=
  {| producerInfo := ∅; consumerInfo := ∅; hlsActiveRooms := ∅; hlsSessions := ∅;
     injectSessions := ∅; redis := ∅; sockets := ∅; e_producers := ∅;
     e_consumers := ∅; e_transports := ∅; e_procs := ∅; next_id := 0;
     trace := []; faults := [] |}.

(** ** [async] functions

    Code between two [await]s runs atomically on the shared state; an
    [await] suspends the function and lets other handlers run. *)

Inductive result (A : Type) : Type :=
| Ok (a : A)
| Raised (e : string).
Arguments Ok {A} a.
Arguments Raised {A} e.

Inductive async (A : Type) : Type :=
| Ret (a : A)
| Throw (e : string)
| Read (k : World → async A)
| Write (w : World) (k : async A)
| Await (k : async A)
| Fork (child : async unit) (k : async A).
Arguments Ret {A} a.
Arguments Throw {A} e.
Arguments Read {A} k.
Arguments Write {A} w k.
Arguments Await {A} k.
Arguments Fork {A} child k.

Fixpoint bind {A B : Type} (m : async A) (f : A → async B) : async B :=
  match m with
  | Ret a => f a
  | Throw e => Throw e
  | Read k => Read (λ w, bind (k w) f)
  | Write w k => Write w (bind k f)
  | Await k => Await (bind k f)
  | Fork c k => Fork c (bind k f)
  end.

(** [try { m } catch (e) { h e }] *)
Fixpoint try_catch {A : Type} (m : async A) (h : string → async A) : async A :=
  match m with
  | Ret a => Ret a
  | Throw e => h e
  | Read k => Read (λ w, try_catch (k w) h)
  | Write w k => Write w (try_catch k h)
  | Await k => Await (try_catch k h)
  | Fork c k => Fork c (try_catch k h)
  end.

Declare Scope async_scope.
Delimit Scope async_scope with async.
Notation "'let*' x ':=' m 'in' k" := (bind m (λ x, k))
  (at level 10, x name, m at level 100, k at level 200) : async_scope.
Notation "m ;;; k" := (bind m (λ _, k))
  (at level 100, k at level 200, right associativity) : async_scope.
Open Scope async_scope.

Definition act (f : World → World) : async unit := Read (λ w, Write (f w) (Ret tt)).
Definition gets {B : Type} (f : World → B) : async B := Read (λ w, Ret (f w)).

(** A fallible call into the environment (store, media engine, file
    system): its outcome is the next entry of the fault schedule. *)
Definition external (what : string) : async unit :=
  Read (λ w, match faults w with
             | true :: fs => Write (set_faults fs w) (Throw what)
             | false :: fs => Write (set_faults fs w) (Ret tt)
             | [] => Ret tt
             end).

(** [await call(...)] on an external operation: suspend, then observe the
    outcome and the effect. *)
Definition await_ext {B : Type} (what : string) (effect : async B) : async B :=
  Await (external what ;;; effect).

(** [await f(...)] on an [async] function of the program: the body runs up
    to its own first [await] at once; the caller resumes one tick after the
    body has returned. *)
Definition await {B : Type} (m : async B) : async B :=
  let* r := m in Await (Ret r).

(** Run to completion, no other handler in between. A detached block
    ([Fork]) runs up to its first [await] at once and its remainder after
    the function that started it has finished. *)
Fixpoint run {A : Type} (m : async A) (w : World) : result A * World :=
  match m with
  | Ret a => (Ok a, w)
  | Throw e => (Raised e, w)
  | Read k => run (k w) w
  | Write w' k => run k w'
  | Await k => run k w
  | Fork c k =>
      let '(w1, rest) := first_segment c w in
      let '(r, w2) := run k w1 in (r, rest w2)
  end
with first_segment {A : Type} (m : async A) (w : World) : World * (World → World) :=
  match m with
  | Ret _ | Throw _ => (w, id)
  | Read k => first_segment (k w) w
  | Write w' k => first_segment k w'
  | Await k => (w, λ w', (run k w').2)
  | Fork c k =>
      let '(w1, rest1) := first_segment c w in
      let '(w2, rest2) := first_segment k w1 in (w2, rest2 ∘ rest1)
  end.

(** Run up to the next [await] (or to the end); also returns the detached
    blocks started on the way, each already at its first [await]. *)
Fixpoint resume {A : Type} (m : async A) (w : World) : async A * World * list (async unit) :=
  match m with
  | Ret a => (Ret a, w, [])
  | Throw e => (Throw e, w, [])
  | Read k => resume (k w) w
  | Write w' k => resume k w'
  | Await k => (k, w, [])
  | Fork c k =>
      let '(c', w1, cs1) := resume c w in
      let '(k', w2, cs2) := resume k w1 in
      (k', w2, cs1 ++ [c'] ++ cs2)
  end.

(** A pool of handlers in flight; the scheduler resumes them in any order. *)
Definition sched_step (i : nat) (st : list (async unit) * World) : list (async unit) * World :=
  match st.1 !! i with
  | Some m => let '(m', w', cs) := resume m st.2 in (<[i := m']> st.1 ++ cs, w')
  | None => st
  end.

Definition run_schedule (sch : list nat) (st : list (async unit) * World) : list (async unit) * World :=
  foldl (λ st i, sched_step i st) st sch.

(** ** The media engine and child processes, at their interface

    Handles are ids into the heap of the [World]; every object gets a
    fresh id. *)

Definition fresh : async nat :=
  Read (λ w, Write (set_next_id (S (next_id w)) w) (Ret (next_id w))).

Definition close_producer_obj (o : ProducerObj) : ProducerObj :=
  {| p_kind := p_kind o; p_appData := p_appData o; p_codec := p_codec o;
     p_room := p_room o; p_transport := p_transport o; p_closed := true;
     p_onclose := p_onclose o |}.

Definition close_consumer_obj (o : ConsumerObj) : ConsumerObj :=
  {| c_producer := c_producer o; c_transport := c_transport o;
     c_paused := c_paused o; c_closed := true |}.

Definition close_transport_obj (o : TransportObj) : TransportObj :=
  {| t_room := t_room o; t_plain := t_plain o; t_closed := true |}.

(** [producerInfo.get(peerKey)?.producers.delete(kind)] *)
Definition delete_producer_kind (peerKey : string) (k : MediaKind) (w : World) : World :=
  set_producerInfo
    (alter (λ info, {| producerTransport := producerTransport info;
                       producers := JsMap.delete k (producers info) |}) peerKey) w.

(** [producer.close()]: nothing happens on a closed producer; otherwise the
    ['@close'] listener, if one was registered, runs inside the call. *)
Definition producer_close (p : nat) (w : World) : World :=
  let w := emit (EvProducerClose p) w in
  match e_producers w !! p with
  | Some o =>
      if p_closed o then w
      else
        let w := set_e_producers (<[p := close_producer_obj o]>) w in
        match p_onclose o with
        | Some (peerKey, k) => delete_producer_kind peerKey k w
        | None => w
        end
  | None => w
  end.

(** [consumer.close()]: no listener of the program is attached to it. *)
Definition consumer_close (c : nat) (w : World) : World :=
  set_e_consumers (alter close_consumer_obj c) (emit (EvConsumerClose c) w).

(** [transport.close()]: the engine closes the transport's producers and
    consumers with it (['transportclose'], which no listener of the program
    handles beyond logging). *)
Definition transport_close (t : nat) (w : World) : World :=
  let w := emit (EvTransportClose t) w in
  let w := set_e_transports (alter close_transport_obj t) w in
  let w := set_e_producers
             (fmap (λ o, if decide (p_transport o = t) then close_producer_obj o else o)) w in
  set_e_consumers
    (fmap (λ o, if decide (c_transport o = t) then close_consumer_obj o else o)) w.

(** [router.close()]: closes every transport created on the room's router. *)
Definition router_close (room : string) (w : World) : World :=
  let ts := e_transports w in
  let in_room t := bool_decide (t_room <$> ts !! t = Some room) in
  let w := emit (EvRouterClose room) w in
  let w := set_e_transports
             (fmap (λ o, if decide (t_room o = room) then close_transport_obj o else o)) w in
  let w := set_e_producers
             (fmap (λ o, if in_room (p_transport o) then close_producer_obj o else o)) w in
  set_e_consumers
    (fmap (λ o, if in_room (c_transport o) then close_consumer_obj o else o)) w.

(** [router.createWebRtcTransport] / [router.createPlainTransport] *)
Definition create_transport (room : string) (plain : bool) : async nat :=
  let* t := fresh in
  act (set_e_transports (<[t := {| t_room := room; t_plain := plain; t_closed := false |}]>)) ;;;
  Ret t.

(** [transport.produce({ kind, rtpParameters, appData })] *)
Definition transport_produce_call (t : nat) (k : MediaKind) (codec : nat) (appData : string) : async nat :=
  let* p := fresh in
  act (λ w, set_e_producers
              (<[p := {| p_kind := k; p_appData := appData; p_codec := codec;
                         p_room := default ""%string (t_room <$> e_transports w !! t);
                         p_transport := t; p_closed := false; p_onclose := None |}]>) w) ;;;
  Ret p.

(** [transport.consume({ producerId, rtpCapabilities, paused })] *)
Definition transport_consume_call (t producerId : nat) (paused : bool) : async nat :=
  let* c := fresh in
  act (set_e_consumers
         (<[c := {| c_producer := producerId; c_transport := t;
                    c_paused := paused; c_closed := false |}]>)) ;;;
  act (emit (EvConsume t producerId paused c)) ;;;
  Ret c.

(** [consumer.resume()] *)
Definition consumer_resume_call (c : nat) : async unit :=
  act (set_e_consumers
         (alter (λ o, {| c_producer := c_producer o; c_transport := c_transport o;
                         c_paused := false; c_closed := c_closed o |}) c)) ;;;
  act (emit (EvResume c)).

(** [router.canConsume({ producerId, rtpCapabilities })]: false, without an
    exception, for an unknown or closed producer and for capabilities that
    do not cover the producer's codec. *)
Definition canConsume (router : string) (producerId : nat) (rtpCapabilities : list nat) (w : World) : bool :=
  match e_producers w !! producerId with
  | Some o => negb (p_closed o) && bool_decide (p_room o = router)
              && bool_decide (p_codec o ∈ rtpCapabilities)
  | None => false
  end.

(** [spawn('ffmpeg', args)] *)
Definition spawn (room : string) (listeners : option (nat * nat)) : async nat :=
  let* pid := fresh in
  act (set_e_procs (<[pid := {| proc_room := room; proc_alive := true; proc_hls := listeners |}]>)) ;;;
  act (emit (EvSpawn pid room)) ;;;
  Ret pid.

(** [child.kill('SIGKILL')] *)
Definition kill (pid : nat) (w : World) : World :=
  set_e_procs (alter (λ o, {| proc_room := proc_room o; proc_alive := false;
                              proc_hls := proc_hls o |}) pid)
              (emit (EvKill pid) w).

(** Modelled from the spec: [getRouter] of [./mediasoup/mediasoup.config],
    which is not among the sources. It yields the room's routing context
    ("per-room routing context", section 6), here identified with the room
    id; being a call into configuration and media engine it can fail. *)
Definition getRouter (roomId : string) : async string :=
  Await (external "getRouter" ;;; Ret roomId).

(** ** Helpers of the handlers *)

Definition peerKey (roomId username : string) : string :=
  String.append roomId (String.append ":" username).

Definition roomKey (roomId : string) : string := String.append "room:" roomId.

Definition socket (sid : nat) (w : World) : CustomSocket :=
  default newSocket (sockets w !! sid).

(** JavaScript truthiness of an optional string field. *)
Definition truthy (o : option string) : option string :=
  match o with
  | Some s => if decide (s = ""%string) then None else Some s
  | None => None
  end.

(** [if (!socket.roomId || !socket.username) return;] *)
Definition joined (s : CustomSocket) : option (string * string) :=
  match truthy (roomId s), truthy (username s) with
  | Some r, Some u => Some (r, u)
  | _, _ => None
  end.

Definition callback (sid : nat) (a : Ack) : async unit := act (emit (EvAck sid a)).

(** ** hls.ts *)

Definition opt (f : nat → World → World) (h : option nat) (w : World) : World :=
  match h with Some x => f x w | None => w end.

Definition swallow (m : async unit) : async unit := try_catch m (λ _, Ret tt).

Definition startHlsRecording (roomId : string) (producer : nat) (router : string) : async unit :=
  (* stop previous if present *)
  let* prev := gets (λ w, hlsSessions w !! roomId) in
  match prev with
  | Some s =>
      swallow (act (opt kill (hls_ffmpeg s))) ;;;
      swallow (await (act (opt consumer_close (hls_consumer s)))) ;;;
      swallow (await (act (opt transport_close (hls_plainTransport s)))) ;;;
      act (set_hlsSessions (delete roomId))
  | None => Ret tt
  end ;;;
  let* plainTransport := await_ext "createPlainTransport" (create_transport router true) in
  let* consumer := await_ext "plainTransport.consume"
                     (transport_consume_call plainTransport producer true) in
  external "fs.mkdirSync" ;;;
  external "fs.writeFileSync" ;;;
  act (emit (EvWriteSdp roomId)) ;;;
  let* ffmpeg := spawn roomId (Some (consumer, plainTransport)) in
  (* resume consumer AFTER ffmpeg is spawned *)
  await_ext "consumer.resume" (consumer_resume_call consumer) ;;;
  act (set_hlsSessions (<[roomId := {| hls_ffmpeg := Some ffmpeg;
                                       hls_plainTransport := Some plainTransport;
                                       hls_consumer := Some consumer |}]>)).

(** The ['error'] listener of the spawned process. *)
Definition ffmpeg_on_error (pid : nat) : async unit :=
  let* o := gets (λ w, e_procs w !! pid) in
  match o with
  | Some {| proc_room := room; proc_hls := Some (consumer, plainTransport) |} =>
      act (consumer_close consumer) ;;;
      act (transport_close plainTransport) ;;;
      act (set_hlsSessions (delete room))
  | _ => Ret tt
  end.

(** The ['close'] listener of the spawned process: it looks the session up
    by room id when the process has exited. *)
Definition ffmpeg_on_close (pid : nat) : async unit :=
  let* o := gets (λ w, e_procs w !! pid) in
  match o with
  | Some {| proc_room := room; proc_hls := Some _ |} =>
      let* sess := gets (λ w, hlsSessions w !! room) in
      match sess with
      | Some s =>
          swallow (await (act (opt consumer_close (hls_consumer s)))) ;;;
          swallow (await (act (opt transport_close (hls_plainTransport s)))) ;;;
          act (set_hlsSessions (delete room))
      | None => Ret tt
      end
  | _ => Ret tt
  end.

Definition stopHlsRecording (roomId : string) : async unit :=
  let* sess := gets (λ w, hlsSessions w !! roomId) in
  match sess with
  | None => Ret tt
  | Some s =>
      swallow (act (opt kill (hls_ffmpeg s))) ;;;
      Fork (swallow (await (act (opt consumer_close (hls_consumer s)))) ;;;
            swallow (await (act (opt transport_close (hls_plainTransport s)))))
           (act (set_hlsSessions (delete roomId)))
  end.

(** ** injectFile.ts *)

Definition injectFileIntoMediasoup (roomId : string) (router : string) : async nat :=
  let* old := gets (λ w, injectSessions w !! roomId) in
  match old with
  | Some s =>
      swallow (act (opt kill (inj_ffmpeg s))) ;;;
      swallow (await (act (opt producer_close (inj_audioProducer s)))) ;;;
      swallow (await (act (opt producer_close (inj_videoProducer s)))) ;;;
      swallow (await (act (opt transport_close (inj_audioTransport s)))) ;;;
      swallow (await (act (opt transport_close (inj_videoTransport s)))) ;;;
      act (set_injectSessions (delete roomId))
  | None => Ret tt
  end ;;;
  let* audioTransport := await_ext "createPlainTransport" (create_transport router true) in
  let* videoTransport := await_ext "createPlainTransport" (create_transport router true) in
  let* audioProducer := await_ext "audioTransport.produce"
                          (transport_produce_call audioTransport audio 101 "") in
  let* videoProducer := await_ext "videoTransport.produce"
                          (transport_produce_call videoTransport video 102 "") in
  let* ffmpeg := spawn roomId None in
  act (set_injectSessions
         (<[roomId := {| inj_ffmpeg := Some ffmpeg;
                         inj_audioTransport := Some audioTransport;
                         inj_videoTransport := Some videoTransport;
                         inj_audioProducer := Some audioProducer;
                         inj_videoProducer := Some videoProducer |}]>)) ;;;
  Ret ffmpeg.

(** ** The signaling server *)

(** [createWebRtcTransport(router)] *)
Definition createWebRtcTransport (router : string) : async nat :=
  await_ext "router.createWebRtcTransport" (create_transport router false).

(** [peerProducerInfo.producers.forEach(p => p.close())]: [todo] is the
    entry list when the iteration starts; an entry that a listener has
    deleted before the iteration reaches it is not visited. *)
Fixpoint forEach_close_producers (todo : list (MediaKind * nat)) (key : string) (w : World) : World :=
  match todo with
  | [] => w
  | (k, p) :: rest =>
      let present :=
        match producerInfo w !! key with
        | Some info => JsMap.has k (producers info)
        | None => false
        end in
      forEach_close_producers rest key (if present then producer_close p w else w)
  end.

(** [peerConsumerInfo.consumers.forEach(c => c.close())] *)
Definition forEach_close_consumers (cs : list (nat * nat)) (w : World) : World :=
  foldl (λ w c, consumer_close c w) w (JsMap.values cs).

(** [cleanupPeer], whose body contains no [await]: the block for the
    producer record, then the block for the consumer record. *)
Definition cleanup_producer_side (key : string) (w : World) : World :=
  match producerInfo w !! key with
  | Some info =>
      let w := forEach_close_producers (producers info) key w in
      let w := opt transport_close (producerTransport info) w in
      set_producerInfo (delete key) w
  | None => w
  end.

Definition cleanup_consumer_side (key : string) (w : World) : World :=
  match consumerInfo w !! key with
  | Some info =>
      let w := forEach_close_consumers (consumers info) w in
      let w := opt transport_close (consumerTransport info) w in
      set_consumerInfo (delete key) w
  | None => w
  end.

Definition cleanupPeer (roomId username : string) (w : World) : World :=
  let key := peerKey roomId username in
  cleanup_consumer_side key (cleanup_producer_side key w).

(** The [existingProducers] loop of [joinRoom]. *)
Definition existingProducers (roomId : string) (peers : list string) (w : World) : list (nat * string) :=
  peers ≫= λ other,
    match producerInfo w !! peerKey roomId other with
    | Some info =>
        (λ p, (p, default ""%string (p_appData <$> e_producers w !! p)))
          <$> JsMap.values (producers info)
    | None => []
    end.

Definition joinRoom (sid : nat) (user room : string) (isCreator : bool) : async unit :=
  try_catch
    (let* aid := fresh in
     act (λ w, set_sockets
                 (<[sid := {| username := Some user; roomId := Some room;
                              audioId := Some aid;
                              rooms := room :: rooms (socket sid w) |}]>) w) ;;;
     let key := peerKey room user in
     act (set_producerInfo (<[key := {| producerTransport := None; producers := [] |}]>)) ;;;
     act (set_consumerInfo (<[key := {| consumerTransport := None; consumers := [] |}]>)) ;;;
     let* roomExists := await_ext "redis.exists"
                          (gets (λ w, bool_decide (is_Some (redis w !! roomKey room)))) in
     if isCreator then
       if roomExists then callback sid (AckError "Room already exists.")
       else
         let* router := getRouter room in
         await_ext "redis.set" (act (set_redis (<[roomKey room := [user]]>))) ;;;
         callback sid (AckJoin router None)
     else
       if negb roomExists then callback sid (AckError "Room not found.")
       else
         let* router := getRouter room in
         let* roomDataString := await_ext "redis.get" (gets (λ w, redis w !! roomKey room)) in
         match roomDataString with
         | None => Throw "TypeError: roomData is null"
         | Some peers =>
             let* existing := gets (existingProducers room peers) in
             await_ext "redis.set" (act (set_redis (<[roomKey room := peers ++ [user]]>))) ;;;
             callback sid (AckJoin router (Some existing))
         end)
    (λ e, callback sid (AckError e)).

Definition createWebRTCTransport (sid : nat) : async unit :=
  let* s := gets (socket sid) in
  match joined s with
  | None => Ret tt
  | Some (room, user) =>
      try_catch
        (let* router := getRouter room in
         let* producerT := createWebRtcTransport router in
         let* consumerT := createWebRtcTransport router in
         let key := peerKey room user in
         (* producerInfo.get(peerKey)!.producerTransport = producerTransport *)
         Read (λ w,
           match producerInfo w !! key with
           | None => Throw "TypeError: producerInfo.get(peerKey) is undefined"
           | Some info =>
               Write (set_producerInfo
                        (<[key := {| producerTransport := Some producerT;
                                     producers := producers info |}]>) w) (Ret tt)
           end) ;;;
         Read (λ w,
           match consumerInfo w !! key with
           | None => Throw "TypeError: consumerInfo.get(peerKey) is undefined"
           | Some info =>
               Write (set_consumerInfo
                        (<[key := {| consumerTransport := Some consumerT;
                                     consumers := consumers info |}]>) w) (Ret tt)
           end) ;;;
         callback sid (AckTransports producerT consumerT))
        (λ e, callback sid (AckError e))
  end.

(** [await producerInfo.get(peerKey)?.producerTransport.connect(...)]: no
    [try] around it; a record whose transport is still [null] raises. *)
Definition transport_connect (sid : nat) : async unit :=
  let* s := gets (socket sid) in
  match joined s with
  | None => Ret tt
  | Some (room, user) =>
      let* info := gets (λ w, producerInfo w !! peerKey room user) in
      match info with
      | None => Await (Ret tt)
      | Some {| producerTransport := None |} => Throw "TypeError: producerTransport is null"
      | Some {| producerTransport := Some t |} =>
          await_ext "transport.connect" (act (emit (EvConnect t)))
      end
  end.

Definition transport_recv_connect (sid : nat) : async unit :=
  let* s := gets (socket sid) in
  match joined s with
  | None => Ret tt
  | Some (room, user) =>
      let* info := gets (λ w, consumerInfo w !! peerKey room user) in
      match info with
      | None => Await (Ret tt)
      | Some {| consumerTransport := None |} => Throw "TypeError: consumerTransport is null"
      | Some {| consumerTransport := Some t |} =>
          await_ext "transport.connect" (act (emit (EvConnect t)))
      end
  end.

(** [producer.on('@close', ...)] *)
Definition on_close (p : nat) (key : string) (k : MediaKind) (w : World) : World :=
  set_e_producers
    (alter (λ o, {| p_kind := p_kind o; p_appData := p_appData o; p_codec := p_codec o;
                    p_room := p_room o; p_transport := p_transport o;
                    p_closed := p_closed o; p_onclose := Some (key, k) |}) p) w.

(** The "HLS integration logic" block of [transport-produce]: recording
    starts with the first video producer of the room; a failure to start
    is logged and goes no further. *)
Definition hls_integration (room : string) (producer : nat) (k : MediaKind) : async unit :=
  match k with
  | video =>
      let* active := gets (λ w, bool_decide (room ∈ hlsActiveRooms w)) in
      if active then Ret tt
      else
        swallow
          (let* router := getRouter room in
           await (startHlsRecording room producer router) ;;;
           act (set_hlsActiveRooms (λ s, {[room]} ∪ s)))
  | audio => Ret tt
  end.

Definition transport_produce (sid : nat) (k : MediaKind) (rtpParameters : nat) (appData : string) : async unit :=
  let* s := gets (socket sid) in
  match joined s with
  | None => Ret tt
  | Some (room, user) =>
      try_catch
        (let key := peerKey room user in
         let* transport := gets (λ w, producerInfo w !! key ≫= producerTransport) in
         match transport with
         | None => Throw "Producer transport not found"
         | Some t =>
             let* producer := await_ext "transport.produce"
                                (transport_produce_call t k rtpParameters appData) in
             (* producerInfo.get(peerKey)!.producers.set(kind, producer) *)
             Read (λ w,
               match producerInfo w !! key with
               | None => Throw "TypeError: producerInfo.get(peerKey) is undefined"
               | Some info =>
                   Write (set_producerInfo
                            (<[key := {| producerTransport := producerTransport info;
                                         producers := JsMap.set k producer (producers info) |}]>) w)
                         (Ret tt)
               end) ;;;
             hls_integration room producer k ;;;
             act (emit (EvToRoom room (Some sid) (NewProducer user producer))) ;;;
             act (on_close producer key k) ;;;
             callback sid (AckProduced producer)
         end)
        (λ e, callback sid (AckError e))
  end.

Definition consume (sid : nat) (rtpCapabilities : list nat) (remoteProducerId : nat) : async unit :=
  let* s := gets (socket sid) in
  match joined s with
  | None => Ret tt
  | Some (room, user) =>
      try_catch
        (let* router := getRouter room in
         let key := peerKey room user in
         let* transport := gets (λ w, consumerInfo w !! key ≫= consumerTransport) in
         match transport with
         | None => callback sid (AckError "Consumer transport not found.")
         | Some t =>
             let* ok := gets (canConsume router remoteProducerId rtpCapabilities) in
             if ok then
               let* consumer := await_ext "transport.consume"
                                  (transport_consume_call t remoteProducerId true) in
               (* consumerInfo.get(peerKey)!.consumers.set(consumer.id, consumer) *)
               Read (λ w,
                 match consumerInfo w !! key with
                 | None => Throw "TypeError: consumerInfo.get(peerKey) is undefined"
                 | Some info =>
                     Write (set_consumerInfo
                              (<[key := {| consumerTransport := consumerTransport info;
                                           consumers := JsMap.set consumer consumer (consumers info) |}]>) w)
                           (Ret tt)
                 end) ;;;
               callback sid (AckConsumed consumer remoteProducerId)
             else Ret tt
         end)
        (λ e, callback sid (AckError e))
  end.

Definition consumer_resume (sid : nat) (consumerId : nat) : async unit :=
  let* s := gets (socket sid) in
  match joined s with
  | None => Ret tt
  | Some (room, user) =>
      let* consumer := gets (λ w, consumerInfo w !! peerKey room user
                                    ≫= λ info, JsMap.get consumerId (consumers info)) in
      match consumer with
      | Some c => await_ext "consumer.resume" (consumer_resume_call c)
      | None => Ret tt
      end
  end.

Definition hangup (sid : nat) : async unit :=
  let* s := gets (socket sid) in
  match joined s with
  | None => Ret tt
  | Some (room, user) =>
      await (act (cleanupPeer room user)) ;;;
      act (emit (EvToRoom room None (PeerLeft user)))
  end.

(** [for (const peer of roomData.peers) await cleanupPeer(socket.roomId, peer)] *)
Fixpoint cleanup_all (room : string) (peers : list string) : async unit :=
  match peers with
  | [] => Ret tt
  | peer :: rest => await (act (cleanupPeer room peer)) ;;; cleanup_all room rest
  end.

(** The guard of [end-meeting] tests [socket.roomId] only. *)
Definition end_meeting (sid : nat) : async unit :=
  let* s := gets (socket sid) in
  match truthy (roomId s) with
  | None => Ret tt
  | Some room =>
      let* roomDataString := await_ext "redis.get" (gets (λ w, redis w !! roomKey room)) in
      match roomDataString with
      | Some peers =>
          cleanup_all room peers ;;;
          await_ext "redis.del" (act (set_redis (delete (roomKey room)))) ;;;
          let* router := getRouter room in
          act (router_close router) ;;;
          (* HLS cleanup on meeting end *)
          stopHlsRecording room ;;;
          act (set_hlsActiveRooms (λ s, s ∖ {[room]})) ;;;
          act (emit (EvToRoom room None MeetingEnded))
      | None => Ret tt
      end
  end.

Definition disconnect (sid : nat) : async unit :=
  let* s := gets (socket sid) in
  match joined s with
  | None => Ret tt
  | Some (room, user) =>
      await (act (cleanupPeer room user)) ;;;
      let* roomDataString := await_ext "redis.get" (gets (λ w, redis w !! roomKey room)) in
      match roomDataString with
      | Some peers =>
          let peers' := filter (λ p, p ≠ user) peers in
          match peers' with
          | _ :: _ =>
              await_ext "redis.set" (act (set_redis (<[roomKey room := peers']>))) ;;;
              act (emit (EvToRoom room None (PeerLeft user)))
          | [] =>
              (* Room is now empty, clean everything up. *)
              await_ext "redis.del" (act (set_redis (delete (roomKey room)))) ;;;
              let* router := getRouter room in
              act (router_close router) ;;;
              (* HLS cleanup on last peer leaving *)
              stopHlsRecording room ;;;
              act (set_hlsActiveRooms (λ s, s ∖ {[room]}))
          end
      | None => Ret tt
      end
  end.

(** The messages of the signaling protocol, and their dispatch. *)
Inductive Signal :=
| MsgJoinRoom (user room : string) (isCreator : bool)
| MsgCreateWebRTCTransport
| MsgTransportConnect
| MsgTransportRecvConnect
| MsgTransportProduce (k : MediaKind) (rtpParameters : nat) (appData : string)
| MsgConsume (rtpCapabilities : list nat) (remoteProducerId : nat)
| MsgConsumerResume (consumerId : nat)
| MsgHangup
| MsgEndMeeting
| MsgDisconnect.

Definition handle (sid : nat) (msg : Signal) : async unit :=
  match msg with
  | MsgJoinRoom user room isCreator => joinRoom sid user room isCreator
  | MsgCreateWebRTCTransport => createWebRTCTransport sid
  | MsgTransportConnect => transport_connect sid
  | MsgTransportRecvConnect => transport_recv_connect sid
  | MsgTransportProduce k rtp appData => transport_produce sid k rtp appData
  | MsgConsume caps pid => consume sid caps pid
  | MsgConsumerResume cid => consumer_resume sid cid
  | MsgHangup => hangup sid
  | MsgEndMeeting => end_meeting sid
  | MsgDisconnect => disconnect sid
  end.

(** ** Predicates used in the statements *)

Definition is_close_call (e : Event) : Prop :=
  match e with
  | EvProducerClose _ | EvConsumerClose _ | EvTransportClose _ => True
  | _ => False
  end.

(** [w'] has the trace of [w] followed by events that all satisfy [P]. *)
Definition extends_by (P : Event → Prop) (w w' : World) : Prop :=
  ∃ l, trace w' = trace w ++ l ∧ Forall P l.


(** The application state outside the two peer tables. *)
Definition same_rooms (w w' : World) : Prop :=
  redis w' = redis w ∧ hlsSessions w' = hlsSessions w ∧
  hlsActiveRooms w' = hlsActiveRooms w ∧ injectSessions w' = injectSessions w ∧
  sockets w' = sockets w ∧ e_procs w' = e_procs w ∧ faults w' = faults w.

(** The ['@close'] listener of producer [p], if any, was registered for
    the peer record [key]. *)
Definition listens_at (key : string) (p : nat) (w : World) : Prop :=
  ∀ o key' k', e_producers w !! p = Some o → p_onclose o = Some (key', k') → key' = key.

(** Every producer recorded under [key] has its listener on [key]: what
    [transport-produce] establishes, since it registers the listener with
    the key it stored the producer under. *)
Definition listeners_local (key : string) (w : World) : Prop :=
  ∀ info k p, producerInfo w !! key = Some info → (k, p) ∈ producers info →
              listens_at key p w.

(** A connection on which no join has set [roomId] and [username]. *)
Definition unjoined (s : CustomSocket) : Prop := roomId s = None ∧ username s = None.

Definition is_join (msg : Signal) : bool :=
  match msg with MsgJoinRoom _ _ _ => true | _ => false end.

(** No detached block inside: then [run] is sequential composition. *)
Fixpoint fork_free {A : Type} (m : async A) : Prop :=
  match m with
  | Ret _ | Throw _ => True
  | Read k => ∀ w, fork_free (k w)
  | Write _ k | Await k => fork_free k
  | Fork _ _ => False
  end.

(** Every write of [m] takes the state it finds to an [R]-related one;
    [cur] is the state at the point reached, unknown again after each
    suspension. *)
Fixpoint guar (R : World → World → Prop) {A : Type} (m : async A) (cur : World) : Prop :=
  match m with
  | Ret _ | Throw _ => True
  | Read k => guar R (k cur) cur
  | Write w' k => R cur w' ∧ guar R k w'
  | Await k => ∀ w', guar R k w'
  | Fork c k => guar R c cur ∧ ∀ w', guar R k w'
  end.

Definition respects (R : World → World → Prop) {A : Type} (m : async A) : Prop :=
  ∀ w, guar R m w.

(** Handlers run one after the other, each to completion. *)
Definition runs (ms : list (async unit)) (w : World) : World :=
  foldl (λ w m, (run m w).2) w ms.

(** ** Concrete states used as examples *)

(** alice has created room r1, bob has joined it, both have negotiated
    their transports. *)
Definition world_two_peers : World :=
  runs [joinRoom 1 "alice" "r1" true; createWebRTCTransport 1;
        joinRoom 2 "bob" "r1" false; createWebRTCTransport 2] emptyWorld.

(** ... and alice has published her camera. *)
Definition world_alice_video : World :=
  runs [transport_produce 1 video 7 "alice"] world_two_peers.

(** What the "stop previous if present" block of [startHlsRecording] does
    to the state before the entry is deleted. *)
Definition hls_teardown (s : HlsSession) (w : World) : World :=
  opt transport_close (hls_plainTransport s)
    (opt consumer_close (hls_consumer s) (opt kill (hls_ffmpeg s) w)).

Definition is_teardown_call (e : Event) : Prop :=
  match e with
  | EvKill _ | EvProducerClose _ | EvConsumerClose _ | EvTransportClose _ => True
  | _ => False
  end.

Definition paused_if_consume (e : Event) : Prop :=
  match e with EvConsume _ _ paused _ => paused = true | _ => True end.

Definition not_producer_close (e : Event) : Prop :=
  match e with EvProducerClose _ => False | _ => True end.

(** The producer table is left as it is and no [producer.close()] is
    called. *)
Definition keeps_producers (w w' : World) : Prop :=
  producerInfo w' = producerInfo w ∧ extends_by not_producer_close w w'.

(** The only process signalled is the ffmpeg of the room's playback
    session. *)
Definition only_kills_playback (room : string) (w : World) (e : Event) : Prop :=
  ∀ pid, e = EvKill pid → ∃ s, hlsSessions w !! room = Some s ∧ hls_ffmpeg s = Some pid.

(** From [w] to [w'] the playback session of [room], if there was one, has
    been stopped: record and flag gone, ffmpeg signalled, close called on
    the relay consumer and transport. *)
Definition playback_stopped (room : string) (w w' : World) : Prop :=
  hlsSessions w' !! room = None ∧ (room ∉ hlsActiveRooms w') ∧
  ∀ s, hlsSessions w !! room = Some s →
    (∀ f, hls_ffmpeg s = Some f →
          EvKill f ∈ trace w' ∧ (proc_alive <$> e_procs w' !! f) ≠ Some true) ∧
    (∀ c, hls_consumer s = Some c → EvConsumerClose c ∈ trace w') ∧
    (∀ t, hls_plainTransport s = Some t → EvTransportClose t ∈ trace w').

(** alice alone in r1, publishing her camera (playback running). *)
Definition world_alice_alone_video : World :=
  runs [joinRoom 1 "alice" "r1" true; createWebRTCTransport 1;
        transport_produce 1 video 7 "alice"] emptyWorld.

(** alice alone in r1, with a file being injected into the room. *)
Definition world_alice_alone_injecting : World :=
  runs [joinRoom 1 "alice" "r1" true; createWebRTCTransport 1;
        injectFileIntoMediasoup "r1" "r1" ;;; Ret tt] emptyWorld.

Definition is_spawn (e : Event) : bool :=
  match e with EvSpawn _ _ => true | _ => false end.

(** The ffmpeg processes spawned for [room] that have not been killed. *)
Definition live_ffmpeg (room : string) (w : World) : list nat :=
  map_to_list (e_procs w) ≫= λ '(pid, o),
    if proc_alive o && bool_decide (proc_room o = room) then [pid] else [].

(** alice and bob publish their cameras at the same time. *)
Definition race_pool : list (async unit) :=
  [transport_produce 1 video 7 "alice"; transport_produce 2 video 7 "bob"].

(** Both handlers reach [await router.createPlainTransport] inside
    [startHlsRecording] before either of them goes on. *)
Definition race_schedule : list nat := [0; 1; 0; 0; 1; 1; 0; 0; 0; 0; 1; 1; 1; 1].

Definition no_producers : PeerProducerInfo :=
  {| producerTransport := None; producers := [] |}.

Definition no_consumers : PeerConsumerInfo :=
  {| consumerTransport := None; consumers := [] |}.

(** ** The manual start/stop routes *)

Inductive HttpResponse := Http (status : nat) (body : string).

(** The search loop of [/hls/start]: [targetProducer] is the last producer
    with the requested id among the records whose key starts with
    [roomId:]. Every hit is the requested id, so the order in which the
    records are visited does not matter. *)
Definition find_producer (roomId : string) (producerId : nat) (w : World) : option nat :=
  last (map_to_list (producerInfo w) ≫= λ '(key, info),
          if String.prefix (String.append roomId ":") key
          then filter (λ p, p = producerId) (JsMap.values (producers info))
          else []).

(** [app.post('/hls/start')]; the two fields of the request body may be
    missing. *)
Definition hls_start (roomId : option string) (producerId : option nat) : async HttpResponse :=
  try_catch
    (match truthy roomId, producerId with
     | Some room, Some pid =>
         let* router := getRouter room in
         let* target := gets (find_producer room pid) in
         match target with
         | None => Ret (Http 404 "Producer not found")
         | Some p =>
             await (startHlsRecording room p router) ;;;
             Ret (Http 200 "ok")
         end
     | _, _ => Ret (Http 400 "roomId & producerId required")
     end)
    (λ e, Ret (Http 500 e)).

(** [app.post('/hls/stop')] *)
Definition hls_stop (roomId : option string) : async HttpResponse :=
  match truthy roomId with
  | None => Ret (Http 400 "roomId required")
  | Some room => stopHlsRecording room ;;; Ret (Http 200 "ok")
  end.

(** ** Everything the server runs *)

Inductive Request :=
| Sig (sid : nat) (msg : Signal)                       (* a socket.io message *)
| HlsStart (roomId : option string) (producerId : option nat)
| HlsStop (roomId : option string)
| Inject (roomId router : string)                      (* a call of the injection *)
| FfmpegError (pid : nat)                              (* a process event *)
| FfmpegClose (pid : nat).

Definition serve (r : Request) : async unit :=
  match r with
  | Sig sid msg => handle sid msg
  | HlsStart rid pid => hls_start rid pid ;;; Ret tt
  | HlsStop rid => hls_stop rid ;;; Ret tt
  | Inject room router => injectFileIntoMediasoup room router ;;; Ret tt
  | FfmpegError pid => ffmpeg_on_error pid
  | FfmpegClose pid => ffmpeg_on_close pid
  end.

Definition in_flight (reqs : list Request) : list (async unit) := serve <$> reqs.

(** ** Predicates used in the further statements *)

(** The part [f] of the state is the same in [w'] as in [w]. *)
Definition keeps {A : Type} (f : World → A) (w w' : World) : Prop := f w' = f w.

(** The requests with a [redisClient.set] or [redisClient.del] in their
    handler. *)
Definition writes_store (r : Request) : bool :=
  match r with
  | Sig _ (MsgJoinRoom _ _ _) | Sig _ MsgEndMeeting | Sig _ MsgDisconnect => true
  | _ => false
  end.

(** The one request that assigns the fields of the socket. *)
Definition sets_socket (r : Request) : bool :=
  match r with Sig _ (MsgJoinRoom _ _ _) => true | _ => false end.

Definition is_inject (r : Request) : bool :=
  match r with Inject _ _ => true | _ => false end.

(** The requests whose handler may start or stop a process: those that
    call into hls.ts or injectFile.ts, and the process events. *)
Definition touches_processes (r : Request) : bool :=
  match r with
  | Sig _ (MsgTransportProduce video _ _) | Sig _ MsgEndMeeting | Sig _ MsgDisconnect => true
  | Sig _ _ => false
  | _ => true
  end.

Definition is_process_call (e : Event) : Prop :=
  match e with EvSpawn _ _ | EvKill _ => True | _ => False end.

(** Playback tables, room flags and child processes are as they were, and
    no process has been spawned or signalled. *)
Definition same_playback (w w' : World) : Prop :=
  hlsSessions w' = hlsSessions w ∧ hlsActiveRooms w' = hlsActiveRooms w ∧
  e_procs w' = e_procs w ∧ extends_by (λ e, ¬ is_process_call e) w w'.

(** The coming [n] fallible external calls all succeed. *)
Definition calls_succeed (n : nat) (w : World) : Prop :=
  forallb negb (take n (faults w)) = true.

(** Producer [p] stays in the engine's table. *)
Definition producer_stays (p : nat) (w w' : World) : Prop :=
  is_Some (e_producers w !! p) → is_Some (e_producers w' !! p).

(** The close calls that release the relay of a playback session, and,
    with the signal to its process in front, the calls that stop it. *)
Definition release_calls (s : HlsSession) : list Event :=
  (EvConsumerClose <$> option_list (hls_consumer s)) ++
  (EvTransportClose <$> option_list (hls_plainTransport s)).

Definition session_calls (s : HlsSession) : list Event :=
  (EvKill <$> option_list (hls_ffmpeg s)) ++ release_calls s.

(** The "cleanup old session" block of [injectFileIntoMediasoup], and the
    calls it makes. *)
Definition inject_teardown (s : InjectSession) (w : World) : World :=
  opt transport_close (inj_videoTransport s)
    (opt transport_close (inj_audioTransport s)
       (opt producer_close (inj_videoProducer s)
          (opt producer_close (inj_audioProducer s) (opt kill (inj_ffmpeg s) w)))).

Definition inject_calls (s : InjectSession) : list Event :=
  (EvKill <$> option_list (inj_ffmpeg s)) ++
  (EvProducerClose <$> option_list (inj_audioProducer s)) ++
  (EvProducerClose <$> option_list (inj_videoProducer s)) ++
  (EvTransportClose <$> option_list (inj_audioTransport s)) ++
  (EvTransportClose <$> option_list (inj_videoTransport s)).

(** [w'] lists no producer in a peer record that [w] did not list there,
    has no ['@close'] listener that [w] did not have, and has handed out
    at least the ids of [w]. *)
Definition shrinks (w w' : World) : Prop :=
  (∀ key info' k p, producerInfo w' !! key = Some info' → (k, p) ∈ producers info' →
     ∃ info, producerInfo w !! key = Some info ∧ (k, p) ∈ producers info) ∧
  (∀ p o', e_producers w' !! p = Some o' →
     p_onclose o' = None ∨ ∃ o, e_producers w !! p = Some o ∧ p_onclose o = p_onclose o') ∧
  next_id w ≤ next_id w'.

(** Listeners sit on the record that lists their producer, and every
    listed producer has an id that was handed out. *)
Definition listeners_wf (w : World) : Prop :=
  (∀ key, listeners_local key w) ∧
  (∀ key info k p, producerInfo w !! key = Some info → (k, p) ∈ producers info →
                   p < next_id w).

(** * Properties *)

(** ** Which parts of the state the engine calls touch *)

Lemma extends_by_refl P w : extends_by P w w.
Proof. exists []. by rewrite app_nil_r. Qed.

Lemma extends_by_trans P w1 w2 w3 :
  extends_by P w1 w2 → extends_by P w2 w3 → extends_by P w1 w3.
Proof.
  intros (l1 & E1 & F1) (l2 & E2 & F2). exists (l1 ++ l2). split.
  - by rewrite E2, E1, app_assoc.
  - by apply Forall_app.
Qed.

Lemma extends_by_emit (P : Event → Prop) e w : P e → extends_by P w (emit e w).
Proof. intros HP. exists [e]. split; [done | by constructor]. Qed.

Lemma extends_by_same_trace P w w' : trace w' = trace w → extends_by P w w'.
Proof. intros E. exists []. by rewrite app_nil_r. Qed.

Lemma same_rooms_refl w : same_rooms w w.
Proof. by repeat split. Qed.

Lemma same_rooms_trans w1 w2 w3 : same_rooms w1 w2 → same_rooms w2 w3 → same_rooms w1 w3.
Proof.
  unfold same_rooms. intros (?&?&?&?&?&?&?) (?&?&?&?&?&?&?).
  repeat split; congruence.
Qed.

Lemma producer_close_rooms p w : same_rooms w (producer_close p w).
Proof.
  unfold producer_close. cbn. destruct (e_producers w !! p) as [o|]; [|by repeat split].
  destruct (p_closed o); [by repeat split|].
  destruct (p_onclose o) as [[key k]|]; by repeat split.
Qed.

Lemma consumer_close_rooms c w : same_rooms w (consumer_close c w).
Proof. by repeat split. Qed.

Lemma transport_close_rooms t w : same_rooms w (transport_close t w).
Proof. by repeat split. Qed.

Lemma opt_rooms f h w : (∀ x w, same_rooms w (f x w)) → same_rooms w (opt f h w).
Proof. intros Hf. destruct h; cbn; [apply Hf | apply same_rooms_refl]. Qed.

Lemma producer_close_consumerInfo p w : consumerInfo (producer_close p w) = consumerInfo w.
Proof.
  unfold producer_close. cbn. destruct (e_producers w !! p) as [o|]; [|done].
  destruct (p_closed o); [done|]. by destruct (p_onclose o) as [[key k]|].
Qed.

Lemma producer_close_trace p w : extends_by is_close_call w (producer_close p w).
Proof.
  exists [EvProducerClose p]. split; [|by repeat constructor].
  unfold producer_close. cbn. destruct (e_producers w !! p) as [o|]; [|done].
  destruct (p_closed o); [done|]. by destruct (p_onclose o) as [[key k]|].
Qed.

Lemma consumer_close_trace c w : extends_by is_close_call w (consumer_close c w).
Proof. exists [EvConsumerClose c]. split; [done | by repeat constructor]. Qed.

Lemma transport_close_trace t w : extends_by is_close_call w (transport_close t w).
Proof. exists [EvTransportClose t]. split; [done | by repeat constructor]. Qed.

Lemma opt_trace P f h w :
  (∀ x w, extends_by P w (f x w)) → extends_by P w (opt f h w).
Proof. intros Hf. destruct h; cbn; [apply Hf | apply extends_by_refl]. Qed.

Lemma forEach_close_producers_rooms todo key w :
  same_rooms w (forEach_close_producers todo key w).
Proof.
  revert w. induction todo as [|[k p] rest IH]; intros w; cbn; [apply same_rooms_refl|].
  eapply same_rooms_trans; [|apply IH].
  case_match; [case_match|]; auto using same_rooms_refl, producer_close_rooms.
Qed.

Lemma forEach_close_producers_consumerInfo todo key w :
  consumerInfo (forEach_close_producers todo key w) = consumerInfo w.
Proof.
  revert w. induction todo as [|[k p] rest IH]; intros w; cbn; [done|].
  rewrite IH. case_match; [case_match|]; auto using producer_close_consumerInfo.
Qed.

Lemma forEach_close_producers_trace todo key w :
  extends_by is_close_call w (forEach_close_producers todo key w).
Proof.
  revert w. induction todo as [|[k p] rest IH]; intros w; cbn; [apply extends_by_refl|].
  eapply extends_by_trans; [|apply IH].
  case_match; [case_match|]; auto using extends_by_refl, producer_close_trace.
Qed.

Lemma forEach_close_consumers_rooms cs w : same_rooms w (forEach_close_consumers cs w).
Proof.
  unfold forEach_close_consumers. generalize (JsMap.values cs). intros l.
  revert w. induction l as [|c l IH]; intros w; cbn; [apply same_rooms_refl|].
  eapply same_rooms_trans; [apply (consumer_close_rooms c w) | apply IH].
Qed.

Lemma forEach_close_consumers_tables cs w :
  producerInfo (forEach_close_consumers cs w) = producerInfo w ∧
  consumerInfo (forEach_close_consumers cs w) = consumerInfo w.
Proof.
  unfold forEach_close_consumers. generalize (JsMap.values cs). intros l.
  revert w. induction l as [|c l IH]; intros w; cbn; [done|].
  destruct (IH (consumer_close c w)) as [-> ->]. done.
Qed.

Lemma forEach_close_consumers_trace cs w :
  extends_by is_close_call w (forEach_close_consumers cs w).
Proof.
  unfold forEach_close_consumers. generalize (JsMap.values cs). intros l.
  revert w. induction l as [|c l IH]; intros w; cbn; [apply extends_by_refl|].
  eapply extends_by_trans; [apply (consumer_close_trace c w) | apply IH].
Qed.

Lemma cleanup_producer_side_rooms key w : same_rooms w (cleanup_producer_side key w).
Proof.
  unfold cleanup_producer_side. destruct (producerInfo w !! key) as [info|];
    [|apply same_rooms_refl].
  eapply same_rooms_trans; [apply forEach_close_producers_rooms|].
  eapply same_rooms_trans; [apply opt_rooms, transport_close_rooms|]. by repeat split.
Qed.

Lemma cleanup_consumer_side_rooms key w : same_rooms w (cleanup_consumer_side key w).
Proof.
  unfold cleanup_consumer_side. destruct (consumerInfo w !! key) as [info|];
    [|apply same_rooms_refl].
  eapply same_rooms_trans; [apply forEach_close_consumers_rooms|].
  eapply same_rooms_trans; [apply opt_rooms, transport_close_rooms|]. by repeat split.
Qed.

Lemma cleanupPeer_rooms room user w : same_rooms w (cleanupPeer room user w).
Proof.
  unfold cleanupPeer. eapply same_rooms_trans;
    [apply cleanup_producer_side_rooms | apply cleanup_consumer_side_rooms].
Qed.

Lemma cleanup_producer_side_trace key w :
  extends_by is_close_call w (cleanup_producer_side key w).
Proof.
  unfold cleanup_producer_side. destruct (producerInfo w !! key) as [info|];
    [|apply extends_by_refl].
  eapply extends_by_trans; [apply forEach_close_producers_trace|].
  eapply extends_by_trans; [apply opt_trace, transport_close_trace|].
  by apply extends_by_same_trace.
Qed.

Lemma cleanup_consumer_side_trace key w :
  extends_by is_close_call w (cleanup_consumer_side key w).
Proof.
  unfold cleanup_consumer_side. destruct (consumerInfo w !! key) as [info|];
    [|apply extends_by_refl].
  eapply extends_by_trans; [apply forEach_close_consumers_trace|].
  eapply extends_by_trans; [apply opt_trace, transport_close_trace|].
  by apply extends_by_same_trace.
Qed.

Lemma cleanupPeer_trace room user w :
  extends_by is_close_call w (cleanupPeer room user w).
Proof.
  unfold cleanupPeer. eapply extends_by_trans;
    [apply cleanup_producer_side_trace | apply cleanup_consumer_side_trace].
Qed.

(** After the producer block the peer has no producer record, and the
    consumer table has not been touched. *)
Lemma cleanup_producer_side_gone key w :
  producerInfo (cleanup_producer_side key w) !! key = None.
Proof.
  unfold cleanup_producer_side. destruct (producerInfo w !! key) as [info|] eqn:E; [|done].
  cbn. apply lookup_delete_eq.
Qed.

Lemma cleanup_producer_side_consumerInfo key w :
  consumerInfo (cleanup_producer_side key w) = consumerInfo w.
Proof.
  unfold cleanup_producer_side. destruct (producerInfo w !! key) as [info|]; [|done].
  cbn. destruct (producerTransport info); cbn; apply forEach_close_producers_consumerInfo.
Qed.

Lemma cleanup_consumer_side_producerInfo key w :
  producerInfo (cleanup_consumer_side key w) = producerInfo w.
Proof.
  unfold cleanup_consumer_side. destruct (consumerInfo w !! key) as [info|]; [|done].
  cbn. destruct (consumerTransport info); cbn; apply forEach_close_consumers_tables.
Qed.

Lemma cleanup_consumer_side_consumerInfo key w :
  consumerInfo (cleanup_consumer_side key w) = delete key (consumerInfo w).
Proof.
  unfold cleanup_consumer_side. destruct (consumerInfo w !! key) as [info|] eqn:E.
  - cbn. f_equal. destruct (consumerTransport info); cbn; apply forEach_close_consumers_tables.
  - symmetry. by apply delete_id.
Qed.

Lemma cleanupPeer_producer_gone room user w :
  producerInfo (cleanupPeer room user w) !! peerKey room user = None.
Proof.
  unfold cleanupPeer. rewrite cleanup_consumer_side_producerInfo.
  apply cleanup_producer_side_gone.
Qed.

Lemma cleanupPeer_consumerInfo room user w :
  consumerInfo (cleanupPeer room user w) = delete (peerKey room user) (consumerInfo w).
Proof.
  unfold cleanupPeer.
  by rewrite cleanup_consumer_side_consumerInfo, cleanup_producer_side_consumerInfo.
Qed.

Lemma cleanupPeer_twice room user w :
  cleanupPeer room user (cleanupPeer room user w) = cleanupPeer room user w.
Proof.
  set (w1 := cleanupPeer room user w).
  assert (producerInfo w1 !! peerKey room user = None) as Hp
    by apply cleanupPeer_producer_gone.
  assert (consumerInfo w1 !! peerKey room user = None) as Hc.
  { unfold w1. rewrite cleanupPeer_consumerInfo. apply lookup_delete_eq. }
  unfold cleanupPeer at 1. unfold cleanup_producer_side. rewrite Hp.
  unfold cleanup_consumer_side. by rewrite Hc.
Qed.

(** ** Listeners fired by [cleanupPeer] stay within the peer's record *)

Lemma producer_close_onclose p q w :
  p_onclose <$> e_producers (producer_close p w) !! q = p_onclose <$> e_producers w !! q.
Proof.
  unfold producer_close. cbn. destruct (e_producers w !! p) as [o|] eqn:E; [|done].
  destruct (p_closed o); [done|].
  assert (p_onclose <$> (<[p:=close_producer_obj o]> (e_producers w)) !! q
          = p_onclose <$> e_producers w !! q) as Hq.
  { destruct (decide (p = q)) as [->|Hne].
    - by rewrite lookup_insert_eq, E.
    - by rewrite lookup_insert_ne. }
  by destruct (p_onclose o) as [[key k]|].
Qed.

Lemma listens_at_producer_close key p q w :
  listens_at key q w → listens_at key q (producer_close p w).
Proof.
  intros H o key' k' Ho Hl. pose proof (producer_close_onclose p q w) as E.
  rewrite Ho in E. cbn in E. destruct (e_producers w !! q) as [o'|] eqn:Eq; [|done].
  cbn in E. injection E as E. apply (H o' key' k' Eq). congruence.
Qed.

Lemma producer_close_other key key' p w :
  listens_at key p w → key' ≠ key →
  producerInfo (producer_close p w) !! key' = producerInfo w !! key'.
Proof.
  intros H Hne. unfold producer_close. cbn.
  destruct (e_producers w !! p) as [o|] eqn:E; [|done].
  destruct (p_closed o); [done|].
  destruct (p_onclose o) as [[key0 k]|] eqn:El; [|done].
  cbn. rewrite lookup_alter_ne; [done|].
  rewrite (H o key0 k E El). congruence.
Qed.

Lemma forEach_close_producers_other todo key key' w :
  (∀ k p, (k, p) ∈ todo → listens_at key p w) → key' ≠ key →
  producerInfo (forEach_close_producers todo key w) !! key' = producerInfo w !! key'.
Proof.
  revert w. induction todo as [|[k p] rest IH]; intros w H Hne; cbn; [done|].
  assert (listens_at key p w) as Hp by (apply (H k); left).
  assert (∀ k0 p0, (k0, p0) ∈ rest → listens_at key p0 w) as Hrest
    by (intros k0 p0 Hin; apply (H k0); by right).
  match goal with |- context [if ?b then _ else _] => destruct b end.
  - rewrite IH; [by apply (producer_close_other key) | | done].
    intros k1 p1 Hin. apply listens_at_producer_close. eauto.
  - by apply IH.
Qed.

Lemma cleanup_producer_side_producerInfo key w :
  listeners_local key w →
  producerInfo (cleanup_producer_side key w) = delete key (producerInfo w).
Proof.
  intros Hl. apply map_eq. intros key'. destruct (decide (key' = key)) as [->|Hne].
  - by rewrite cleanup_producer_side_gone, lookup_delete_eq.
  - rewrite lookup_delete_ne by done. unfold cleanup_producer_side.
    destruct (producerInfo w !! key) as [info|] eqn:E; [|done].
    cbn. rewrite lookup_delete_ne by done.
    transitivity (producerInfo (forEach_close_producers (producers info) key w) !! key').
    + by destruct (producerTransport info).
    + apply forEach_close_producers_other; [|done]. intros k p Hin. by eapply Hl.
Qed.

Lemma cleanupPeer_producerInfo room user w :
  listeners_local (peerKey room user) w →
  producerInfo (cleanupPeer room user w) = delete (peerKey room user) (producerInfo w).
Proof.
  intros Hl. unfold cleanupPeer.
  by rewrite cleanup_consumer_side_producerInfo, cleanup_producer_side_producerInfo.
Qed.

(** ** Messages before a join *)

Lemma joined_no_room s : truthy (roomId s) = None → joined s = None.
Proof. unfold joined. by intros ->. Qed.

Lemma guard_returns sid msg w :
  is_join msg = false →
  truthy (roomId (socket sid w)) = None →
  resume (handle sid msg) w = (Ret tt, w, []) ∧ run (handle sid msg) w = (Ok tt, w).
Proof.
  intros Hj Hr. pose proof (joined_no_room _ Hr) as Hg.
  destruct msg; try discriminate Hj; cbn; rewrite ?Hg, ?Hr; done.
Qed.

(** C10. On a connection that has not completed a join (neither [roomId]
    nor [username] set on the socket), every signaling message other than
    the join itself is dropped by the guard at the head of its handler:
    the handler returns at once, before any [await], the state (including
    the trace of acknowledgements and notifications) is unchanged, so the
    caller gets no response at all. *)
Theorem unjoined_message_is_dropped (sid : nat) (msg : Signal) (w : World) :
  unjoined (socket sid w) →
  is_join msg = false →
  resume (handle sid msg) w = (Ret tt, w, []) ∧
  run (handle sid msg) w = (Ok tt, w) ∧
  trace (run (handle sid msg) w).2 = trace w.
Proof.
  intros [Hr _] Hj.
  destruct (guard_returns sid msg w Hj) as [H1 H2]; [by rewrite Hr|].
  by rewrite H1, H2.
Qed.

Lemma unjoined_message_is_dropped_witness :
  run (handle 0 (MsgTransportProduce video 7 "alice")) emptyWorld = (Ok tt, emptyWorld).
Proof.
  apply (unjoined_message_is_dropped 0 (MsgTransportProduce video 7 "alice") emptyWorld).
  - split; reflexivity.
  - reflexivity.
Defined.

(** ** Teardown *)

(** C6. Peer teardown is idempotent: after [cleanupPeer] the peer has
    neither a producer nor a consumer record, a second [cleanupPeer] is the
    identity on the whole state (so it issues no further close call: the
    trace is part of the state) and, as an awaited call, returns normally;
    a second hangup on the same socket adds nothing but its peer-left
    notification. *)
Theorem cleanupPeer_idempotent (room user : string) (sid : nat) (w : World) :
  let w1 := cleanupPeer room user w in
  producerInfo w1 !! peerKey room user = None ∧
  consumerInfo w1 !! peerKey room user = None ∧
  cleanupPeer room user w1 = w1 ∧
  run (await (act (cleanupPeer room user))) w1 = (Ok tt, w1) ∧
  (let w2 := (run (hangup sid) w).2 in
   (run (hangup sid) w).1 = Ok tt ∧
   (run (hangup sid) w2).1 = Ok tt ∧
   extends_by (λ e, ¬ is_close_call e) w2 (run (hangup sid) w2).2).
Proof.
  cbn zeta. split; [apply cleanupPeer_producer_gone|]. split.
  { rewrite cleanupPeer_consumerInfo. apply lookup_delete_eq. }
  split; [apply cleanupPeer_twice|]. split.
  { cbn. by rewrite cleanupPeer_twice. }
  cbn. destruct (joined (socket sid w)) as [[r u]|] eqn:Ej; cbn.
  - assert (socket sid (emit (EvToRoom r None (PeerLeft u)) (cleanupPeer r u w))
            = socket sid w) as Es.
    { unfold socket. cbn. destruct (cleanupPeer_rooms r u w) as (_&_&_&_&->&_). done. }
    rewrite Es, Ej. cbn. split; [done|]. split; [done|].
    assert (cleanupPeer r u (emit (EvToRoom r None (PeerLeft u)) (cleanupPeer r u w))
            = emit (EvToRoom r None (PeerLeft u)) (cleanupPeer r u w)) as ->.
    { unfold cleanupPeer at 1. unfold cleanup_producer_side. cbn.
      rewrite cleanupPeer_producer_gone. unfold cleanup_consumer_side. cbn.
      rewrite cleanupPeer_consumerInfo, lookup_delete_eq. done. }
    apply extends_by_emit. cbn. tauto.
  - rewrite Ej. cbn. split; [done|]. split; [done|]. apply extends_by_refl.
Qed.

(** ** Laws of [run] *)

Lemma run_bind {A B : Type} (m : async A) (f : A → async B) (w : World) :
  fork_free m →
  run (bind m f) w =
    match run m w with
    | (Ok a, w') => run (f a) w'
    | (Raised e, w') => (Raised e, w')
    end.
Proof.
  revert B f w. induction m as [A a|A e|A k IH|A w' k IH|A k IH|A c _ k _];
    intros B f w Hff; cbn in *; auto. contradiction.
Qed.

Lemma run_try_catch {A : Type} (m : async A) (h : string → async A) (w : World) :
  fork_free m →
  run (try_catch m h) w =
    match run m w with
    | (Ok a, w') => (Ok a, w')
    | (Raised e, w') => run (h e) w'
    end.
Proof.
  revert h w. induction m as [A a|A e|A k IH|A w' k IH|A k IH|A c _ k _];
    intros h w Hff; cbn in *; auto. contradiction.
Qed.

Lemma fork_free_bind {A B : Type} (m : async A) (f : A → async B) :
  fork_free m → (∀ a, fork_free (f a)) → fork_free (bind m f).
Proof.
  revert B f. induction m as [A a|A e|A k IH|A w' k IH|A k IH|A c _ k _];
    intros B f Hm Hf; cbn in *; auto.
Qed.

Lemma fork_free_try_catch {A : Type} (m : async A) (h : string → async A) :
  fork_free m → (∀ e, fork_free (h e)) → fork_free (try_catch m h).
Proof.
  revert h. induction m as [A a|A e|A k IH|A w' k IH|A k IH|A c _ k _];
    intros h Hm Hh; cbn in *; auto.
Qed.

(** [guar] is sound for [run] when [R] is a preorder. *)
Lemma guar_run (R : World → World → Prop) `{!Reflexive R, !Transitive R}
    {A : Type} (m : async A) :
  (∀ w, guar R m w → R w (run m w).2) ∧
  (∀ w, guar R m w →
        R w (first_segment m w).1 ∧ ∀ w', R w' ((first_segment m w).2 w')).
Proof.
  induction m as [A a|A e|A k IH|A w' k IH|A k IH|A c IHc k IHk]; cbn.
  - split; intros w _; [done|]. split; [done|]. by intros w'.
  - split; intros w _; [done|]. split; [done|]. by intros w'.
  - split; intros w H; by apply (IH w).
  - destruct IH as [IH1 IH2]. split; intros w [H1 H2].
    + transitivity w'; [done | by apply IH1].
    + destruct (IH2 w' H2) as [H3 H4]. split; [|done]. by transitivity w'.
  - destruct IH as [IH1 IH2]. split; intros w H; [by apply IH1|].
    split; [done|]. intros w0. by apply IH1.
  - destruct IHc as [_ IHc]. destruct IHk as [IHk1 IHk2]. split; intros w [Hc Hk].
    + destruct (IHc w Hc) as [H1 H2]. destruct (first_segment c w) as [w1 rest]. cbn in *.
      specialize (IHk1 w1 (Hk w1)). destruct (run k w1) as [r w2]. cbn in *.
      transitivity w1; [done|]. transitivity w2; [done|]. apply H2.
    + destruct (IHc w Hc) as [H1 H2]. destruct (first_segment c w) as [w1 rest1]. cbn in *.
      destruct (IHk2 w1 (Hk w1)) as [H3 H4]. destruct (first_segment k w1) as [w2 rest2].
      cbn in *. split; [by transitivity w1|]. intros w0.
      transitivity (rest1 w0); [apply H2 | apply H4].
Qed.

Lemma respects_run (R : World → World → Prop) `{!Reflexive R, !Transitive R}
    {A : Type} (m : async A) (w : World) :
  respects R m → R w (run m w).2.
Proof. intros H. by apply (guar_run R m). Qed.

Lemma guar_bind R {A B : Type} (m : async A) (f : A → async B) (w : World) :
  guar R m w → (∀ a, respects R (f a)) → guar R (bind m f) w.
Proof.
  revert B f w. induction m as [A a|A e|A k IH|A w' k IH|A k IH|A c _ k IH];
    intros B f w Hm Hf; cbn in *; auto.
  - by apply Hf.
  - destruct Hm. auto.
  - destruct Hm. auto.
Qed.

Lemma respects_bind R {A B : Type} (m : async A) (f : A → async B) :
  respects R m → (∀ a, respects R (f a)) → respects R (bind m f).
Proof. intros Hm Hf w. by apply guar_bind. Qed.

Lemma guar_try_catch R {A : Type} (m : async A) (h : string → async A) (w : World) :
  guar R m w → (∀ e, respects R (h e)) → guar R (try_catch m h) w.
Proof.
  revert h w. induction m as [A a|A e|A k IH|A w' k IH|A k IH|A c _ k IH];
    intros h w Hm Hh; cbn in *; auto.
  - by apply Hh.
  - destruct Hm. auto.
  - destruct Hm. auto.
Qed.

Lemma respects_try_catch R {A : Type} (m : async A) (h : string → async A) :
  respects R m → (∀ e, respects R (h e)) → respects R (try_catch m h).
Proof. intros Hm Hh w. by apply guar_try_catch. Qed.

Lemma respects_ret R {A : Type} (a : A) : respects R (Ret a).
Proof. by intros w. Qed.

Lemma respects_throw R {A : Type} (e : string) : respects R (@Throw A e).
Proof. by intros w. Qed.

Lemma respects_act R (f : World → World) : (∀ w, R w (f w)) → respects R (act f).
Proof. intros H w. by cbn. Qed.

Lemma respects_gets R {B : Type} (f : World → B) : respects R (gets f).
Proof. by intros w. Qed.

Lemma respects_read R {A : Type} (k : World → async A) :
  (∀ w, guar R (k w) w) → respects R (Read k).
Proof. intros H w. apply H. Qed.

Lemma respects_Await R {A : Type} (k : async A) : respects R k → respects R (Await k).
Proof. intros H w. apply H. Qed.

Lemma respects_await R {A : Type} (m : async A) : respects R m → respects R (await m).
Proof. intros H. apply respects_bind; [done|]. intros a w. by cbn. Qed.

Lemma respects_swallow R (m : async unit) : respects R m → respects R (swallow m).
Proof. intros H. apply respects_try_catch; [done|]. intros e. apply respects_ret. Qed.

Lemma respects_external R what :
  (∀ w fs, R w (set_faults fs w)) → respects R (external what).
Proof. intros H w. cbn. destruct (faults w) as [|[] fs]; cbn; auto. Qed.

Lemma respects_await_ext R {B : Type} what (effect : async B) :
  (∀ w fs, R w (set_faults fs w)) → respects R effect → respects R (await_ext what effect).
Proof.
  intros H He. apply respects_Await, respects_bind; [by apply respects_external|done].
Qed.

Lemma respects_fresh R : (∀ w n, R w (set_next_id n w)) → respects R fresh.
Proof. intros H w. by cbn. Qed.

Lemma respects_getRouter R room :
  (∀ w fs, R w (set_faults fs w)) → respects R (getRouter room).
Proof.
  intros H. apply respects_Await, respects_bind; [by apply respects_external|].
  intros _. apply respects_ret.
Qed.

(** ** Hangup *)

(** C9. Hangup touches the caller's two peer records and nothing else of
    the application state: the durable room record is neither read nor
    written (so the peer list still contains the departed peer and the
    room is not deleted), the playback and injection tables and the room
    flags are unchanged, the records of the other peers are unchanged, and
    the only outward calls are close calls on the peer's handles followed
    by one peer-left notification to the room. *)
Theorem hangup_leaves_room_record (sid : nat) (room user : string) (w : World) :
  joined (socket sid w) = Some (room, user) →
  listeners_local (peerKey room user) w →
  let w' := (run (hangup sid) w).2 in
  (run (hangup sid) w).1 = Ok tt ∧
  redis w' = redis w ∧
  (∀ peers, redis w !! roomKey room = Some peers → user ∈ peers →
            ∃ peers', redis w' !! roomKey room = Some peers' ∧ user ∈ peers') ∧
  same_rooms w w' ∧
  producerInfo w' = delete (peerKey room user) (producerInfo w) ∧
  consumerInfo w' = delete (peerKey room user) (consumerInfo w) ∧
  ∃ l, trace w' = trace w ++ l ++ [EvToRoom room None (PeerLeft user)] ∧
       Forall is_close_call l.
Proof.
  intros Hj Hl. cbn. rewrite Hj. cbn.
  pose proof (cleanupPeer_rooms room user w) as Hr.
  split; [done|]. split; [apply Hr|]. split.
  { intros peers Hp Hin. exists peers. destruct Hr as [-> _]. done. }
  split; [exact Hr|]. split; [by apply cleanupPeer_producerInfo|].
  split; [apply cleanupPeer_consumerInfo|].
  destruct (cleanupPeer_trace room user w) as (l & El & Fl).
  exists l. split; [|done]. by rewrite El, app_assoc.
Qed.

Lemma hangup_leaves_room_record_witness :
  redis (run (hangup 1) world_alice_video).2 !! "room:r1"%string = Some ["alice"; "bob"]%string.
Proof.
  assert (joined (socket 1 world_alice_video) = Some ("r1", "alice")%string) as Hj
    by reflexivity.
  assert (listeners_local (peerKey "r1" "alice") world_alice_video) as Hl.
  { intros info k p Hi Hin. vm_compute in Hi. injection Hi as <-.
    apply list_elem_of_singleton in Hin. injection Hin as -> ->.
    intros o key' k' Ho Ho'. vm_compute in Ho. injection Ho as <-.
    cbn in Ho'. by injection Ho' as <- _. }
  destruct (hangup_leaves_room_record 1 "r1" "alice" world_alice_video Hj Hl)
    as (_ & -> & _).
  reflexivity.
Defined.

(** ** Symbolic execution

    [exec_in E] evaluates the [run] of a handler in [E] on a state given as
    a record; calls on tables and lists are left as they are.
    [run_cases E] also splits on whatever the evaluation is stuck on. *)

Ltac exec_in E :=
  cbv beta iota zeta delta
    [run first_segment bind try_catch act gets external await await_ext fresh callback
     swallow getRouter create_transport transport_produce_call transport_consume_call
     consumer_resume_call spawn startHlsRecording stopHlsRecording ffmpeg_on_error
     ffmpeg_on_close injectFileIntoMediasoup createWebRtcTransport joinRoom
     createWebRTCTransport transport_connect transport_recv_connect transport_produce
     consume consumer_resume hangup end_meeting disconnect handle on_close
     producerInfo consumerInfo hlsActiveRooms hlsSessions injectSessions redis sockets
     e_producers e_consumers e_transports e_procs next_id trace faults
     set_producerInfo set_consumerInfo set_hlsActiveRooms set_hlsSessions
     set_injectSessions set_redis set_sockets set_e_producers set_e_consumers
     set_e_transports set_e_procs set_next_id set_faults emit
     opt kill consumer_close transport_close router_close hls_teardown
     hls_ffmpeg hls_plainTransport hls_consumer
     mbind option_bind fst snd] in E.

Ltac run_cases E :=
  repeat (exec_in E;
          match type of E with
          | context [match ?x with _ => _ end] => destruct x eqn:?
          end);
  exec_in E.

Ltac solve_extends :=
  first
    [ apply extends_by_same_trace; reflexivity
    | unfold extends_by; simpl; rewrite <- ?app_assoc; eexists;
      split; [reflexivity | repeat constructor; simpl; auto] ].

(** ** Consumers start paused; resuming an unknown consumer *)

Lemma consume_result sid caps pid w :
  let w' := (run (consume sid caps pid) w).2 in
  (run (consume sid caps pid) w).1 = Ok tt ∧
  extends_by paused_if_consume w w' ∧
  (∀ c o, e_consumers w !! c = None → e_consumers w' !! c = Some o →
          c = next_id w ∧ c_paused o = true ∧ c_producer o = pid).
Proof.
  cbv zeta. destruct (run (consume sid caps pid) w) as [r w'] eqn:E.
  destruct w. run_cases E; injection E as <- <-; simpl.
  all: split; [reflexivity|]; split; [solve_extends|].
  all: intros c o Hc Ho; try congruence.
  all: destruct (decide (next_id0 = c)) as [<-|Hne];
    [rewrite lookup_insert_eq in Ho; by injection Ho as <-
    |rewrite lookup_insert_ne in Ho by done; congruence].
Qed.

Lemma consumer_resume_unknown sid cid w :
  (∀ room user info, joined (socket sid w) = Some (room, user) →
                     consumerInfo w !! peerKey room user = Some info →
                     JsMap.get cid (consumers info) = None) →
  resume (consumer_resume sid cid) w = (Ret tt, w, []) ∧
  run (consumer_resume sid cid) w = (Ok tt, w).
Proof.
  intros H. unfold consumer_resume. simpl.
  destruct (joined (socket sid w)) as [[room user]|] eqn:Ej; [|done].
  simpl. destruct (consumerInfo w !! peerKey room user) as [info|] eqn:Ei; [|done].
  simpl. by rewrite (H room user info eq_refl Ei).
Qed.

(** C7. Every call of [transport.consume] made by the consume handler
    passes [paused: true], and a consumer that the handler adds to the
    engine is paused; a consumer-resume whose id is not a key of the
    caller's consumer map returns at once without touching the state and
    without an error. *)
Theorem consumers_created_paused_unknown_resume_noop
    (sid : nat) (caps : list nat) (pid cid : nat) (w : World) :
  (extends_by paused_if_consume w (run (consume sid caps pid) w).2 ∧
   ∀ c o, e_consumers w !! c = None →
          e_consumers (run (consume sid caps pid) w).2 !! c = Some o →
          c_paused o = true) ∧
  ((∀ room user info, joined (socket sid w) = Some (room, user) →
                      consumerInfo w !! peerKey room user = Some info →
                      JsMap.get cid (consumers info) = None) →
   resume (consumer_resume sid cid) w = (Ret tt, w, []) ∧
   run (consumer_resume sid cid) w = (Ok tt, w)).
Proof.
  split; [|apply consumer_resume_unknown].
  destruct (consume_result sid caps pid w) as (_ & He & Hc). split; [done|].
  intros c o H1 H2. by destruct (Hc c o H1 H2) as (_ & ? & _).
Qed.

Lemma consumers_created_paused_unknown_resume_noop_witness :
  run (consumer_resume 2 99) world_two_peers = (Ok tt, world_two_peers).
Proof.
  apply (consumers_created_paused_unknown_resume_noop 2 [] 0 99 world_two_peers).
  intros room user info Hj Hi. vm_compute in Hj. injection Hj as <- <-.
  vm_compute in Hi. injection Hi as <-. reflexivity.
Defined.

(** ** Playback pipeline: start *)

Lemma hls_teardown_trace s w : extends_by is_teardown_call w (hls_teardown s w).
Proof.
  destruct s as [[f|] [t|] [c|]]; unfold hls_teardown; simpl; solve_extends.
Qed.

Lemma startHls_prev room producer router s w :
  hlsSessions w !! room = Some s →
  run (startHlsRecording room producer router) w =
  run (startHlsRecording room producer router)
      (set_hlsSessions (delete room) (hls_teardown s w)).
Proof.
  intros H. unfold startHlsRecording. simpl. rewrite H. simpl.
  rewrite lookup_delete_eq. reflexivity.
Qed.

Lemma startHls_fresh room producer router w w' :
  hlsSessions w !! room = None →
  run (startHlsRecording room producer router) w = (Ok tt, w') →
  let t := next_id w in
  trace w' = trace w ++ [EvConsume t producer true (S t); EvWriteSdp room;
                         EvSpawn (S (S t)) room; EvResume (S t)] ∧
  hlsSessions w' = <[room := {| hls_ffmpeg := Some (S (S t));
                                hls_plainTransport := Some t;
                                hls_consumer := Some (S t) |}]> (hlsSessions w) ∧
  e_procs w' = <[S (S t) := {| proc_room := room; proc_alive := true;
                               proc_hls := Some (S t, t) |}]> (e_procs w).
Proof.
  intros Hn E. destruct w. simpl in Hn. exec_in E. rewrite Hn in E.
  run_cases E; try discriminate E; injection E as <-; simpl.
  all: rewrite <- ?app_assoc.
  all: split; [reflexivity|split; reflexivity].
Qed.

(** C8. In every run of [startHlsRecording] that returns normally, the
    outward calls are: the teardown of a previous session (kill and close
    calls only), then the creation of the relay consumer with
    [paused: true], the SDP file, the spawn of ffmpeg, and only then the
    one [resume] of that consumer; the session recorded for the room holds
    exactly that process, transport and consumer. *)
Theorem hls_consumer_resumed_after_spawn
    (room : string) (producer : nat) (router : string) (w w' : World) :
  run (startHlsRecording room producer router) w = (Ok tt, w') →
  ∃ pre t c pid,
    trace w' = trace w ++ pre ++ [EvConsume t producer true c; EvWriteSdp room;
                                  EvSpawn pid room; EvResume c] ∧
    Forall is_teardown_call pre ∧
    hlsSessions w' !! room = Some {| hls_ffmpeg := Some pid;
                                     hls_plainTransport := Some t;
                                     hls_consumer := Some c |}.
Proof.
  intros E. destruct (hlsSessions w !! room) as [s|] eqn:Hs.
  - rewrite (startHls_prev _ _ _ s) in E by done.
    apply startHls_fresh in E; [|simpl; apply lookup_delete_eq].
    destruct E as (Et & Eh & _). destruct (hls_teardown_trace s w) as (pre & Ep & Fp).
    eexists pre, _, _, _. split; [|split; [done|]].
    + rewrite Et. simpl. rewrite Ep. by rewrite <- app_assoc.
    + rewrite Eh. apply lookup_insert_eq.
  - apply startHls_fresh in E; [|done]. destruct E as (Et & Eh & _).
    eexists [], _, _, _. split; [|split; [done|]].
    + by rewrite Et.
    + rewrite Eh. apply lookup_insert_eq.
Qed.

Lemma hls_consumer_resumed_after_spawn_witness :
  ∃ pre t c pid,
    trace (run (startHlsRecording "r1" 6 "r1") world_two_peers).2 =
      trace world_two_peers ++ pre ++
      [EvConsume t 6 true c; EvWriteSdp "r1"; EvSpawn pid "r1"; EvResume c] ∧
    Forall is_teardown_call pre ∧
    hlsSessions (run (startHlsRecording "r1" 6 "r1") world_two_peers).2 !! "r1"%string
      = Some {| hls_ffmpeg := Some pid; hls_plainTransport := Some t;
                hls_consumer := Some c |}.
Proof.
  apply (hls_consumer_resumed_after_spawn "r1" 6 "r1" world_two_peers).
  vm_compute. reflexivity.
Defined.

(** ** Frames, compositionally *)

#[global] Instance keeps_producers_refl : Reflexive keeps_producers.
Proof. intros w. split; [done | apply extends_by_refl]. Qed.

#[global] Instance keeps_producers_trans : Transitive keeps_producers.
Proof.
  intros w1 w2 w3 [E1 X1] [E2 X2]. split; [congruence | by eapply extends_by_trans].
Qed.

Ltac exec :=
  cbv beta iota zeta delta
    [run first_segment bind try_catch act gets external await await_ext fresh callback
     swallow getRouter create_transport transport_produce_call transport_consume_call
     consumer_resume_call spawn startHlsRecording stopHlsRecording ffmpeg_on_error
     ffmpeg_on_close injectFileIntoMediasoup createWebRtcTransport joinRoom
     createWebRTCTransport transport_connect transport_recv_connect transport_produce
     consume consumer_resume hangup end_meeting disconnect handle on_close
     producerInfo consumerInfo hlsActiveRooms hlsSessions injectSessions redis sockets
     e_producers e_consumers e_transports e_procs next_id trace faults
     set_producerInfo set_consumerInfo set_hlsActiveRooms set_hlsSessions
     set_injectSessions set_redis set_sockets set_e_producers set_e_consumers
     set_e_transports set_e_procs set_next_id set_faults emit
     opt kill consumer_close transport_close router_close hls_teardown
     hls_ffmpeg hls_plainTransport hls_consumer
     mbind option_bind fst snd tail].

Ltac respects_step :=
  first
    [ apply respects_ret | apply respects_throw | apply respects_gets
    | apply respects_bind | apply respects_try_catch | apply respects_swallow
    | apply respects_await_ext | apply respects_await | apply respects_Await
    | apply respects_external | apply respects_fresh | apply respects_getRouter
    | apply respects_act
    | match goal with
      | |- respects _ (match ?x with _ => _ end) => destruct x
      | |- respects _ (if ?x then _ else _) => destruct x
      | |- ∀ _, respects _ _ => intro
      end
    | progress unfold create_transport, transport_produce_call, transport_consume_call,
        consumer_resume_call, spawn, callback, createWebRtcTransport ].

Ltac respects_tac := repeat respects_step.

Ltac ff_step :=
  first
    [ exact I
    | apply fork_free_bind | apply fork_free_try_catch
    | match goal with
      | |- fork_free (match ?x with _ => _ end) => destruct x
      | |- fork_free (if ?x then _ else _) => destruct x
      | |- ∀ _, _ => intro
      end
    | progress unfold swallow, await, await_ext, external, act, gets, fresh, getRouter,
        create_transport, transport_produce_call, transport_consume_call,
        consumer_resume_call, spawn, callback, createWebRtcTransport
    | progress cbn [fork_free] ].

Ltac ff_tac := repeat ff_step.

Ltac leaf_keeps :=
  intros; unfold keeps_producers;
  try match goal with |- context [opt _ ?h _] => destruct h end;
  simpl; (split; [reflexivity | solve_extends]).

Lemma startHls_keeps room producer router :
  respects keeps_producers (startHlsRecording room producer router).
Proof. unfold startHlsRecording. respects_tac; leaf_keeps. Qed.

Lemma hls_integration_keeps room producer k :
  respects keeps_producers (hls_integration room producer k).
Proof.
  unfold hls_integration. respects_tac; try apply startHls_keeps; leaf_keeps.
Qed.

Lemma startHls_fork_free room producer router :
  fork_free (startHlsRecording room producer router).
Proof. unfold startHlsRecording. ff_tac. Qed.

Lemma hls_integration_fork_free room producer k :
  fork_free (hls_integration room producer k).
Proof. unfold hls_integration. ff_tac. Qed.

(** A failure to start the recording does not fail the produce call. *)
Lemma hls_integration_ok room producer k w :
  (run (hls_integration room producer k) w).1 = Ok tt.
Proof.
  destruct k; [done|]. unfold hls_integration. simpl.
  destruct (bool_decide _); [done|].
  unfold swallow. rewrite run_try_catch.
  - destruct (run _ w) as [[[]|e] w']; reflexivity.
  - ff_tac.
Qed.

(** ** Produce *)

Lemma JsMap_get_set {K V : Type} `{EqDecision K} (k : K) (v : V) (m : list (K * V)) :
  JsMap.get k (JsMap.set k v m) = Some v.
Proof.
  induction m as [|[k' v'] m IH]; simpl.
  - by rewrite decide_True.
  - destruct (decide (k' = k)) as [->|Hne]; simpl.
    + by rewrite decide_True.
    + by rewrite decide_False.
Qed.

(** Up to the HLS block: the producer is created and stored. *)
Lemma produce_split sid k rtp appData room user info t w :
  joined (socket sid w) = Some (room, user) →
  producerInfo w !! peerKey room user = Some info →
  producerTransport info = Some t →
  head (faults w) ≠ Some true →
  run (transport_produce sid k rtp appData) w =
  run (try_catch
         (hls_integration room (next_id w) k ;;;
          act (emit (EvToRoom room (Some sid) (NewProducer user (next_id w)))) ;;;
          act (on_close (next_id w) (peerKey room user) k) ;;;
          callback sid (AckProduced (next_id w)))
         (λ e, callback sid (AckError e)))
      (set_producerInfo
         (<[peerKey room user := {| producerTransport := producerTransport info;
                                    producers := JsMap.set k (next_id w) (producers info) |}]>)
         (set_e_producers
            (<[next_id w := {| p_kind := k; p_appData := appData; p_codec := rtp;
                               p_room := default ""%string (t_room <$> e_transports w !! t);
                               p_transport := t; p_closed := false; p_onclose := None |}]>)
            (set_next_id (S (next_id w)) (set_faults (tail (faults w)) w)))).
Proof.
  intros Hj Hi Ht Hf.
  destruct w as [pI cI hA hS iS rd so eP eC eT ePr nid tr fl]. simpl in Hi, Hf.
  destruct fl as [|[] fs]; [|done|];
    repeat (progress (exec; rewrite ?Hj, ?Hi, ?Ht)); reflexivity.
Qed.

Lemma produce_tail sid room user k p w r w' :
  run (act (emit (EvToRoom room (Some sid) (NewProducer user p))) ;;;
       act (on_close p (peerKey room user) k) ;;;
       callback sid (AckProduced p)) w = (r, w') →
  r = Ok tt ∧ keeps_producers w w' ∧
  trace w' = trace w ++ [EvToRoom room (Some sid) (NewProducer user p);
                         EvAck sid (AckProduced p)].
Proof.
  intros E. destruct w. exec_in E. injection E as <- <-.
  split; [done|]. split; [|simpl; by rewrite <- app_assoc].
  split; [done|]. solve_extends.
Qed.

(** C3 (amended). When the producer transport exists and
    [transport.produce] succeeds, a transport-produce of kind [k] returns
    normally and records the new producer under [k], in place of whatever
    was recorded there; during the whole handler no [close] is called on
    any producer, so a previous producer of that kind is replaced without
    being closed. *)
Theorem produce_replaces_without_closing
    (sid : nat) (k : MediaKind) (rtp : nat) (appData room user : string)
    (info : PeerProducerInfo) (t : nat) (w : World) :
  joined (socket sid w) = Some (room, user) →
  producerInfo w !! peerKey room user = Some info →
  producerTransport info = Some t →
  head (faults w) ≠ Some true →
  let w' := (run (transport_produce sid k rtp appData) w).2 in
  (run (transport_produce sid k rtp appData) w).1 = Ok tt ∧
  producerInfo w' !! peerKey room user =
    Some {| producerTransport := Some t;
            producers := JsMap.set k (next_id w) (producers info) |} ∧
  (producerInfo w' !! peerKey room user ≫= λ i, JsMap.get k (producers i))
    = Some (next_id w) ∧
  extends_by not_producer_close w w'.
Proof.
  intros Hj Hi Ht Hf. cbv zeta.
  rewrite (produce_split sid k rtp appData room user info t w Hj Hi Ht Hf).
  set (w1 := set_producerInfo _ _).
  assert (producerInfo w1 !! peerKey room user =
            Some {| producerTransport := Some t;
                    producers := JsMap.set k (next_id w) (producers info) |}) as P1.
  { unfold w1. simpl. by rewrite lookup_insert_eq, Ht. }
  assert (extends_by not_producer_close w w1) as X1
    by (apply extends_by_same_trace; reflexivity).
  clearbody w1.
  rewrite run_try_catch by (apply fork_free_bind; [apply hls_integration_fork_free|ff_tac]).
  rewrite run_bind by apply hls_integration_fork_free.
  pose proof (hls_integration_ok room (next_id w) k w1) as O2.
  pose proof (respects_run keeps_producers _ w1 (hls_integration_keeps room (next_id w) k)) as K2.
  destruct (run (hls_integration room (next_id w) k) w1) as [r2 w2]. simpl in O2, K2. subst r2.
  destruct (run _ w2) as [r3 w3] eqn:E3. apply produce_tail in E3 as (-> & K3 & _).
  simpl. destruct K2 as [E2 X2], K3 as [E3 X3].
  split; [done|]. rewrite E3, E2, P1. split; [done|]. split.
  - simpl. apply JsMap_get_set.
  - eapply extends_by_trans; [exact X1|]. eapply extends_by_trans; [exact X2|exact X3].
Qed.

Lemma produce_replaces_without_closing_witness :
  (producerInfo (run (transport_produce 1 video 7 "alice") world_alice_video).2
     !! peerKey "r1" "alice" ≫= λ i, JsMap.get video (producers i)) = Some 10.
Proof.
  apply (produce_replaces_without_closing 1 video 7 "alice" "r1" "alice"
           {| producerTransport := Some 1; producers := [(video, 6)] |} 1
           world_alice_video).
  - reflexivity.
  - reflexivity.
  - reflexivity.
  - vm_compute. discriminate.
Defined.

(** C3, as stated, fails: alice already has the video producer 6; after a
    second video produce the record holds producer 10 under [video], no
    [close] was ever called on producer 6, and the engine still has it
    open. *)
Lemma previous_producer_is_not_closed :
  let w := world_alice_video in
  let w' := (run (transport_produce 1 video 7 "alice") w).2 in
  (producerInfo w !! "r1:alice"%string ≫= λ i, JsMap.get video (producers i)) = Some 6 ∧
  (producerInfo w' !! "r1:alice"%string ≫= λ i, JsMap.get video (producers i)) = Some 10 ∧
  (EvProducerClose 6 ∉ trace w') ∧
  (p_closed <$> e_producers w' !! 6) = Some false.
Proof.
  cbv zeta. split; [reflexivity|]. split; [reflexivity|]. split; [|reflexivity].
  apply (bool_decide_unpack _). vm_compute. exact I.
Qed.

(** ** Room deletion *)

Lemma run_bind_gets {A B : Type} (f : World → B) (K : B → async A) w :
  run (bind (gets f) K) w = run (K (f w)) w.
Proof. reflexivity. Qed.

Lemma run_bind_await_act {A : Type} f (K : unit → async A) w :
  run (bind (await (act f)) K) w = run (K tt) (f w).
Proof. reflexivity. Qed.

Lemma run_bind_await_ext {A B : Type} what (eff : async B) (K : B → async A) w :
  run (bind (await_ext what eff) K) w =
    match faults w with
    | true :: fs => (Raised what, set_faults fs w)
    | false :: fs => run (bind eff K) (set_faults fs w)
    | [] => run (bind eff K) w
    end.
Proof. simpl. destruct (faults w) as [|[] fs]; reflexivity. Qed.

Lemma joined_room s room user : joined s = Some (room, user) → truthy (roomId s) = Some room.
Proof.
  unfold joined. destruct (truthy (roomId s)); [|done].
  destruct (truthy (username s)); [|done]. by intros [= -> _].
Qed.


Ltac run_cases' E :=
  repeat (exec_in E;
          first
            [ match goal with s : HlsSession |- _ => destruct s as [[?|] [?|] [?|]] end
            | match type of E with
              | context [match ?x with _ => _ end] =>
                  let T := type of x in
                  lazymatch T with World => fail | _ => destruct x eqn:? end
              end ]);
  exec_in E.


Lemma not_elem_of_removed (s : gset string) (r : string) : r ∉ s ∖ {[r]}.
Proof. rewrite elem_of_difference, elem_of_singleton. tauto. Qed.

Ltac in_trace := rewrite ?elem_of_app, ?list_elem_of_singleton; tauto.

Ltac finish_room_deleted Fl :=
  split; [|reflexivity];
  unfold playback_stopped; simpl;
  (split;
   [ split; [first [apply lookup_delete_eq | assumption]|];
     (split; [apply not_elem_of_removed|]);
     intros s Hs;
     first
       [ congruence
       | match goal with
         | H : _ !! _ = Some (Build_HlsSession _ _ _) |- _ => rewrite H in Hs
         end;
         injection Hs as <-; simpl; (split; [|split]); intros ? [=]; subst;
         rewrite ?lookup_alter_eq; try split; try in_trace;
         match goal with |- context [lookup ?f ?m] => destruct (lookup f m) end;
         simpl; congruence ]
   | unfold extends_by; simpl; rewrite <- ?app_assoc; eexists; (split; [reflexivity|]);
     apply Forall_app; split;
     [ eapply Forall_impl; [exact Fl|]; intros [] ? ? ?; (done || discriminate)
     | repeat constructor; intros ? [= <-]; eauto ] ]).

Lemma disconnect_deletes sid room peers w w' :
  truthy (roomId (socket sid w)) = Some room →
  redis w !! roomKey room = Some peers →
  run (disconnect sid) w = (Ok tt, w') →
  redis w' !! roomKey room = None →
  (playback_stopped room w w' ∧ extends_by (only_kills_playback room w) w w') ∧
  injectSessions w' = injectSessions w.
Proof.
  intros Hr Hp E Hd. unfold disconnect in E. rewrite run_bind_gets in E.
  destruct (joined (socket sid w)) as [[room' user]|] eqn:Hj.
  2:{ injection E as <-. congruence. }
  assert (room' = room) as -> by (apply joined_room in Hj; congruence).
  rewrite run_bind_await_act in E.
  pose proof (cleanupPeer_rooms room user w) as (R1 & R2 & R3 & R4 & R5 & R6 & R7).
  pose proof (cleanupPeer_trace room user w) as (l & Hl & Fl).
  set (w1 := cleanupPeer room user w) in *. clearbody w1. clear Hr Hj.
  destruct w as [pI0 cI0 hA0 hS0 iS0 rd0 so0 eP0 eC0 eT0 ePr0 nid0 tr0 fl0].
  destruct w1 as [pI cI hA hS iS rd so eP eC eT ePr nid tr fl]. simpl in *.
  subst rd hS hA iS so ePr fl tr.
  exec_in E. rewrite ?Hp in E.
  repeat match type of E with
         | context [match fl0 with _ => _ end] =>
             destruct fl0 as [|[] fl0]; exec_in E; try discriminate E; rewrite ?Hp in E
         end.
  all: run_cases' E; try discriminate E.
  all: try (injection E as <-; simpl in Hd; rewrite ?lookup_insert_eq in Hd; try discriminate Hd).
  all: finish_room_deleted Fl.
Qed.

Lemma cleanup_fold_rooms room peers w :
  same_rooms w (foldl (λ w p, cleanupPeer room p w) w peers) ∧
  extends_by is_close_call w (foldl (λ w p, cleanupPeer room p w) w peers).
Proof.
  revert w. induction peers as [|p peers IH]; intros w; simpl.
  - split; [apply same_rooms_refl | apply extends_by_refl].
  - destruct (IH (cleanupPeer room p w)) as [H1 H2]. split.
    + eapply same_rooms_trans; [apply cleanupPeer_rooms|exact H1].
    + eapply extends_by_trans; [apply cleanupPeer_trace|exact H2].
Qed.

Lemma run_cleanup_all {A : Type} room peers (K : unit → async A) w :
  run (bind (cleanup_all room peers) K) w =
  run (K tt) (foldl (λ w p, cleanupPeer room p w) w peers).
Proof.
  revert w. induction peers as [|p peers IH]; intros w; [reflexivity|].
  simpl. apply IH.
Qed.

Lemma end_meeting_deletes sid room peers w w' :
  truthy (roomId (socket sid w)) = Some room →
  redis w !! roomKey room = Some peers →
  run (end_meeting sid) w = (Ok tt, w') →
  (playback_stopped room w w' ∧ extends_by (only_kills_playback room w) w w') ∧
  injectSessions w' = injectSessions w.
Proof.
  intros Hr Hp E. unfold end_meeting in E. rewrite run_bind_gets in E.
  rewrite Hr in E. rewrite run_bind_await_ext in E.
  destruct (faults w) as [|[] fs] eqn:Hf; [|discriminate E|].
  all: rewrite run_bind_gets in E; simpl (redis (set_faults _ _)) in E; rewrite Hp in E.
  all: rewrite run_cleanup_all in E.
  all: match type of E with
       | run _ (foldl _ ?W _) = _ =>
           pose proof (cleanup_fold_rooms room peers W)
             as [(R1 & R2 & R3 & R4 & R5 & R6 & R7) (l & Hl & Fl)]
       end.
  all: set (w1 := foldl _ _ _) in *; clearbody w1; clear Hr.
  all: destruct w as [pI0 cI0 hA0 hS0 iS0 rd0 so0 eP0 eC0 eT0 ePr0 nid0 tr0 fl0].
  all: destruct w1 as [pI cI hA hS iS rd so eP eC eT ePr nid tr fl]; simpl in *.
  all: subst rd hS hA iS so ePr fl tr fl0.
  all: exec_in E.
  2: repeat match type of E with
       | context [match fs with _ => _ end] =>
           destruct fs as [|[] fs]; exec_in E; try discriminate E
       end.
  all: run_cases' E; try discriminate E.
  all: injection E as <-.
  all: finish_room_deleted Fl.
Qed.

(** C2 (amended). Whenever a handler that deletes a room runs to
    completion (the disconnect that empties the durable peer list, or
    end-meeting), the playback session of the room, if any, is stopped: its
    ffmpeg is sent SIGKILL, close is called on its consumer and relay
    transport, its record and the room's flag are removed. No other
    process is signalled and the injection table is left exactly as it
    was: an injection session of the room is not stopped. *)
Theorem room_deletion_stops_playback_only
    (sid : nat) (room : string) (peers : list string) (w w' : World) :
  truthy (roomId (socket sid w)) = Some room →
  redis w !! roomKey room = Some peers →
  run (disconnect sid) w = (Ok tt, w') ∨ run (end_meeting sid) w = (Ok tt, w') →
  redis w' !! roomKey room = None →
  playback_stopped room w w' ∧
  extends_by (only_kills_playback room w) w w' ∧
  injectSessions w' = injectSessions w.
Proof.
  intros Hr Hp [E|E] Hd.
  - destruct (disconnect_deletes sid room peers w w' Hr Hp E Hd) as [[? ?] ?]. done.
  - destruct (end_meeting_deletes sid room peers w w' Hr Hp E) as [[? ?] ?]. done.
Qed.

Lemma room_deletion_stops_playback_only_witness :
  hlsSessions world_alice_alone_video !! "r1"%string
    = Some {| hls_ffmpeg := Some 6; hls_plainTransport := Some 4; hls_consumer := Some 5 |} ∧
  playback_stopped "r1" world_alice_alone_video
    (run (disconnect 1) world_alice_alone_video).2.
Proof.
  split; [reflexivity|].
  apply (room_deletion_stops_playback_only 1 "r1" ["alice"%string] world_alice_alone_video).
  - reflexivity.
  - reflexivity.
  - left. vm_compute. reflexivity.
  - reflexivity.
Defined.

(** C2, as stated, fails for the injection session: alice is alone in r1
    while a file is injected (ffmpeg 7); her disconnect, and equally an
    end-meeting, deletes the room, yet the injection session is still
    recorded and its ffmpeg was never signalled. *)
Lemma injection_survives_room_deletion :
  let w := world_alice_alone_injecting in
  let w1 := (run (disconnect 1) w).2 in
  let w2 := (run (end_meeting 1) w).2 in
  (inj_ffmpeg <$> injectSessions w !! "r1"%string) = Some (Some 7) ∧
  redis w !! "room:r1"%string = Some ["alice"%string] ∧
  (redis w1 !! "room:r1"%string = None ∧
   (inj_ffmpeg <$> injectSessions w1 !! "r1"%string) = Some (Some 7) ∧
   (proc_alive <$> e_procs w1 !! 7) = Some true ∧ (EvKill 7 ∉ trace w1)) ∧
  (redis w2 !! "room:r1"%string = None ∧
   (inj_ffmpeg <$> injectSessions w2 !! "r1"%string) = Some (Some 7) ∧
   (proc_alive <$> e_procs w2 !! 7) = Some true ∧ (EvKill 7 ∉ trace w2)).
Proof.
  cbv zeta. repeat split; try reflexivity;
    apply (bool_decide_unpack _); vm_compute; exact I.
Qed.

(** ** Consume that cannot be served *)

Lemma canConsume_unknown router pid caps w :
  e_producers w !! pid = None → canConsume router pid caps w = false.
Proof. unfold canConsume. by intros ->. Qed.

Lemma canConsume_incompatible router pid caps o w :
  e_producers w !! pid = Some o → p_codec o ∉ caps → canConsume router pid caps w = false.
Proof.
  unfold canConsume. intros -> H. rewrite (bool_decide_eq_false_2 _ H).
  by rewrite andb_false_r.
Qed.

(** C4, where the code departs from it. A consume request that reaches
    the compatibility check and fails it (unknown producer id, closed
    producer, or incompatible capabilities) creates no consumer, leaves the
    caller's consumer map as it is and returns normally, but it never
    invokes the acknowledgement callback: the trace of outward calls is
    unchanged. *)
Theorem consume_rejected_without_ack
    (sid : nat) (caps : list nat) (pid : nat) (room user : string)
    (info : PeerConsumerInfo) (t : nat) (w : World) :
  joined (socket sid w) = Some (room, user) →
  consumerInfo w !! peerKey room user = Some info →
  consumerTransport info = Some t →
  head (faults w) ≠ Some true →
  canConsume room pid caps w = false →
  let w' := (run (consume sid caps pid) w).2 in
  (run (consume sid caps pid) w).1 = Ok tt ∧
  trace w' = trace w ∧
  consumerInfo w' = consumerInfo w ∧
  e_consumers w' = e_consumers w.
Proof.
  intros Hj Hi Ht Hf Hc. cbv zeta.
  destruct (run (consume sid caps pid) w) as [r w'] eqn:E.
  destruct w as [pI cI hA hS iS rd so eP eC eT ePr nid tr fl].
  unfold canConsume in Hc. simpl in Hi, Hf, Hc.
  destruct fl as [|[] fs]; [|done|];
    repeat (progress (exec_in E; unfold canConsume in E; simpl in E;
                      rewrite ?Hj, ?Hi, ?Ht, ?Hc in E));
    injection E as <- <-; done.
Qed.

Lemma consume_rejected_without_ack_witness :
  e_producers world_two_peers !! 99 = None ∧
  trace (run (consume 2 [7] 99) world_two_peers).2 = trace world_two_peers.
Proof.
  split; [reflexivity|].
  apply (consume_rejected_without_ack 2 [7] 99 "r1" "bob"
           {| consumerTransport := Some 5; consumers := [] |} 5 world_two_peers).
  - reflexivity.
  - reflexivity.
  - reflexivity.
  - vm_compute. discriminate.
  - reflexivity.
Defined.

(** ** Join that fails *)

(** C5, where the code departs from it. A join that is refused (creator
    join on an existing room, non-creator join on a missing room) does
    acknowledge with the error and does leave the durable room record
    alone, but it has already registered the peer: the socket carries
    [roomId] and [username], and the producer and consumer records of
    [roomId:username] have been replaced by empty ones, whatever they held
    before. *)
Theorem failed_join_still_registers
    (sid : nat) (user room : string) (isCreator : bool) (w : World) :
  head (faults w) ≠ Some true →
  isCreator = bool_decide (is_Some (redis w !! roomKey room)) →
  let w' := (run (joinRoom sid user room isCreator) w).2 in
  (run (joinRoom sid user room isCreator) w).1 = Ok tt ∧
  trace w' = trace w ++ [EvAck sid (AckError (if isCreator then "Room already exists."
                                              else "Room not found."))] ∧
  redis w' = redis w ∧
  producerInfo w' = <[peerKey room user := no_producers]> (producerInfo w) ∧
  consumerInfo w' = <[peerKey room user := no_consumers]> (consumerInfo w) ∧
  roomId (socket sid w') = Some room ∧ username (socket sid w') = Some user.
Proof.
  intros Hf Hc. cbv zeta.
  destruct (run (joinRoom sid user room isCreator) w) as [r w'] eqn:E.
  destruct w as [pI cI hA hS iS rd so eP eC eT ePr nid tr fl]. simpl in Hf, Hc.
  destruct fl as [|[] fs]; [|done|]; exec_in E; rewrite <- Hc in E;
    destruct isCreator; exec_in E; injection E as <- <-;
    unfold socket; simpl; rewrite lookup_insert_eq; done.
Qed.

Lemma failed_join_still_registers_witness :
  producerInfo world_alice_video !! "r1:alice"%string
    = Some {| producerTransport := Some 1; producers := [(video, 6)] |} ∧
  producerInfo (run (joinRoom 3 "alice" "r1" true) world_alice_video).2
    = <[peerKey "r1" "alice" := no_producers]> (producerInfo world_alice_video).
Proof.
  split; [reflexivity|].
  apply (failed_join_still_registers 3 "alice" "r1" true world_alice_video).
  - vm_compute. discriminate.
  - reflexivity.
Defined.

(** ** Two video producers at the same time *)

(** C1, where the code departs from it. alice and bob, both in r1, send a
    video transport-produce each; the two handlers are interleaved at
    their awaits so that both have passed the test of the room flag and
    the lookup of a previous session before either has stored its own.
    Both handlers complete; ffmpeg has been spawned twice for r1; both
    processes are alive; the session table knows only the second. When the
    room is later deleted the first process is still running. Run one
    after the other, the same two handlers spawn once. *)
Theorem concurrent_video_producers_spawn_twice :
  let st := run_schedule race_schedule (race_pool, world_two_peers) in
  st.1 = [Ret tt; Ret tt] ∧
  filter is_spawn (trace st.2) = [EvSpawn 10 "r1"; EvSpawn 13 "r1"] ∧
  live_ffmpeg "r1" st.2 = [10; 13] ∧
  (hls_ffmpeg <$> hlsSessions st.2 !! "r1"%string) = Some (Some 13) ∧
  live_ffmpeg "r1" (runs [disconnect 1; disconnect 2] st.2) = [10] ∧
  filter is_spawn (trace (runs race_pool world_two_peers)) = [EvSpawn 9 "r1"].
Proof. cbv zeta. repeat split; vm_compute; reflexivity. Qed.

(** ** Handlers in flight: what they may write

    [guar] is also sound for the scheduler: whatever the interleaving,
    the state moves along [R] and the handlers still in flight keep
    respecting it. *)

Lemma resume_guar (R : World → World → Prop) `{!Reflexive R, !Transitive R}
    {A : Type} (m : async A) (w : World) :
  guar R m w →
  R w (resume m w).1.2 ∧ respects R (resume m w).1.1 ∧ Forall (respects R) (resume m w).2.
Proof.
  revert w. induction m as [A a|A e|A k IH|A w' k IH|A k IH|A c IHc k IHk]; intros w; simpl.
  - intros _. split; [done|]. split; [by intros ?|constructor].
  - intros _. split; [done|]. split; [by intros ?|constructor].
  - apply IH.
  - intros [H1 H2]. destruct (IH w' H2) as (H3 & H4 & H5). split; [by transitivity w'|done].
  - intros H. split; [done|]. split; [exact H|constructor].
  - intros [Hc Hk]. destruct (IHc w Hc) as (H1 & H2 & H3).
    destruct (resume c w) as [[c' w1] cs1]. simpl in *.
    destruct (IHk w1 (Hk w1)) as (H4 & H5 & H6).
    destruct (resume k w1) as [[k' w2] cs2]. simpl in *.
    split; [by transitivity w1|]. split; [done|].
    apply Forall_app. split; [done|]. by constructor.
Qed.

Lemma sched_step_respects (R : World → World → Prop) `{!Reflexive R, !Transitive R}
    (i : nat) (st : list (async unit) * World) :
  Forall (respects R) st.1 →
  R st.2 (sched_step i st).2 ∧ Forall (respects R) (sched_step i st).1.
Proof.
  intros Hp. unfold sched_step. destruct (st.1 !! i) as [m|] eqn:Hm; [|done].
  assert (respects R m) as Hr by (eapply Forall_lookup_1; eauto).
  destruct (resume_guar R m st.2 (Hr st.2)) as (H1 & H2 & H3).
  destruct (resume m st.2) as [[m' w'] cs]. simpl in *.
  split; [done|]. apply Forall_app. split; [|done].
  by apply Forall_insert.
Qed.

Lemma run_schedule_respects (R : World → World → Prop) `{!Reflexive R, !Transitive R}
    (sch : list nat) (st : list (async unit) * World) :
  Forall (respects R) st.1 →
  R st.2 (run_schedule sch st).2 ∧ Forall (respects R) (run_schedule sch st).1.
Proof.
  revert st. induction sch as [|i sch IH]; intros st Hp; simpl; [done|].
  destruct (sched_step_respects R i st Hp) as [H1 H2].
  destruct (IH _ H2) as [H3 H4]. split; [|done].
  etrans; [exact H1|exact H3].
Qed.

Lemma runs_respects (R : World → World → Prop) `{!Reflexive R, !Transitive R}
    (ms : list (async unit)) (w : World) :
  Forall (respects R) ms → R w (runs ms w).
Proof.
  revert w. induction ms as [|m ms IH]; intros w Hp; [done|].
  apply Forall_cons in Hp as [Hm Hp]. unfold runs. simpl.
  transitivity (run m w).2; [by apply respects_run | by apply IH].
Qed.

(** Interleaved in any order, or run one after the other. *)
Lemma pool_respects (R : World → World → Prop) `{!Reflexive R, !Transitive R}
    (ok : Request → bool) (reqs : list Request) (sch : list nat) (w : World) :
  (∀ r, ok r = false → respects R (serve r)) →
  forallb (λ r, negb (ok r)) reqs = true →
  R w (run_schedule sch (in_flight reqs, w)).2 ∧ R w (runs (in_flight reqs) w).
Proof.
  intros H Hr.
  assert (Forall (respects R) (in_flight reqs)) as Hp.
  { unfold in_flight. apply Forall_fmap, Forall_forall. intros r Hin. apply H.
    apply negb_true_iff. apply (proj1 (forallb_forall _ _) Hr r).
    by apply list_elem_of_In. }
  split; [apply (run_schedule_respects R sch (in_flight reqs, w) Hp) | by apply runs_respects].
Qed.

#[global] Instance keeps_refl {A : Type} (f : World → A) : Reflexive (keeps f).
Proof. by intros w. Qed.

#[global] Instance keeps_trans {A : Type} (f : World → A) : Transitive (keeps f).
Proof. unfold keeps. intros w1 w2 w3 H1 H2. congruence. Qed.

#[global] Instance same_playback_refl : Reflexive same_playback.
Proof. intros w. repeat split. apply extends_by_refl. Qed.

#[global] Instance same_playback_trans : Transitive same_playback.
Proof.
  intros w1 w2 w3 (A1 & B1 & C1 & D1) (A2 & B2 & C2 & D2).
  repeat split; try congruence. by eapply extends_by_trans.
Qed.

Lemma respects_fork R {A : Type} (c : async unit) (k : async A) :
  respects R c → respects R k → respects R (Fork c k).
Proof. intros Hc Hk w. split; [apply Hc | apply Hk]. Qed.

Lemma respects_cleanup_all R room peers :
  (∀ p w, R w (cleanupPeer room p w)) → respects R (cleanup_all room peers).
Proof.
  intros H. induction peers as [|p peers IH]; [apply respects_ret|].
  change (respects R (await (act (cleanupPeer room p)) ;;; cleanup_all room peers)).
  apply respects_bind; [|by intros _].
  apply respects_await, respects_act, H.
Qed.

(** [Read] of a record that is updated in place, or missing. *)
Ltac respects_update :=
  apply respects_read; intros ?;
  match goal with |- guar _ (match ?x with _ => _ end) _ => destruct x end;
  cbn [guar]; try exact I; (split; [|exact I]).

Ltac frame_tac :=
  repeat first
    [ respects_step
    | apply respects_fork
    | apply respects_cleanup_all
    | respects_update ].

Ltac unfold_handlers :=
  unfold serve, handle, hls_start, hls_stop, injectFileIntoMediasoup, ffmpeg_on_error,
    ffmpeg_on_close, joinRoom, createWebRTCTransport, transport_connect,
    transport_recv_connect, transport_produce, hls_integration, consume, consumer_resume,
    hangup, end_meeting, disconnect, startHlsRecording, stopHlsRecording.

Ltac leaf_field :=
  intros; unfold keeps;
  first
    [ apply cleanupPeer_rooms
    | match goal with |- context [opt _ ?h _] => destruct h end;
      first [reflexivity | apply producer_close_rooms]
    | reflexivity ].

Lemma serve_keeps_redis r : writes_store r = false → respects (keeps redis) (serve r).
Proof.
  destruct r as [sid []| | | | |]; try discriminate; intros _;
    unfold_handlers; frame_tac; leaf_field.
Qed.

Lemma serve_keeps_sockets r : sets_socket r = false → respects (keeps sockets) (serve r).
Proof.
  destruct r as [sid []| | | | |]; try discriminate; intros _;
    unfold_handlers; frame_tac; leaf_field.
Qed.

Lemma serve_keeps_injection r :
  is_inject r = false → respects (keeps injectSessions) (serve r).
Proof.
  destruct r as [sid []| | | | |]; try discriminate; intros _;
    unfold_handlers; frame_tac; leaf_field.
Qed.

Ltac leaf_playback :=
  intros; unfold same_playback;
  first
    [ match goal with
      | |- _ ∧ _ ∧ _ ∧ extends_by _ ?w (cleanupPeer ?r ?u ?w) =>
          pose proof (cleanupPeer_rooms r u w) as (_ & ? & ? & _ & _ & ? & _);
          pose proof (cleanupPeer_trace r u w) as (l & Hl & Fl);
          repeat split; try assumption;
          exists l; split; [exact Hl|];
          eapply Forall_impl; [exact Fl|]; intros [] ?; simpl in *; tauto
      end
    | simpl; repeat split; solve_extends; simpl; tauto ].

Lemma serve_same_playback r : touches_processes r = false → respects same_playback (serve r).
Proof.
  destruct r as [sid [| | | |[]| | | | |]| | | | |]; try discriminate; intros _;
    unfold_handlers; frame_tac; leaf_playback.
Qed.

(** X1. The durable room record is written by join, disconnect and
    end-meeting only: however the handlers of any other requests
    (signaling messages, manual start and stop, file injection, process
    events) are interleaved at their awaits, and also when they run one
    after the other, the shared store is left exactly as it was. *)
Theorem store_written_by_membership_requests_only
    (reqs : list Request) (sch : list nat) (w : World) :
  forallb (λ r, negb (writes_store r)) reqs = true →
  redis (run_schedule sch (in_flight reqs, w)).2 = redis w ∧
  redis (runs (in_flight reqs) w) = redis w.
Proof. apply (pool_respects (keeps redis) writes_store), serve_keeps_redis. Qed.

Lemma store_written_by_membership_requests_only_witness :
  redis (run_schedule [0; 1; 1; 0; 1; 0; 1; 1]
           (in_flight [Sig 1 MsgHangup; Sig 2 (MsgTransportProduce video 7 "bob");
                       HlsStop (Some "r1"%string)], world_two_peers)).2
  = redis world_two_peers.
Proof.
  apply (store_written_by_membership_requests_only
           [Sig 1 MsgHangup; Sig 2 (MsgTransportProduce video 7 "bob");
            HlsStop (Some "r1"%string)]
           [0; 1; 1; 0; 1; 0; 1; 1] world_two_peers).
  reflexivity.
Defined.

(** X2. The fields of a socket ([username], [roomId], [audioId], joined
    rooms) are assigned by the join handler only: under any interleaving
    of any other requests every socket is left as it was. In particular
    hangup does not reset [roomId]: the connection keeps passing the guard
    of the later handlers. *)
Theorem socket_fields_set_by_join_only
    (reqs : list Request) (sch : list nat) (w : World) :
  forallb (λ r, negb (sets_socket r)) reqs = true →
  sockets (run_schedule sch (in_flight reqs, w)).2 = sockets w ∧
  sockets (runs (in_flight reqs) w) = sockets w.
Proof. apply (pool_respects (keeps sockets) sets_socket), serve_keeps_sockets. Qed.

Lemma socket_fields_set_by_join_only_witness :
  sockets (runs (in_flight [Sig 1 MsgHangup; Sig 2 MsgDisconnect]) world_two_peers)
  = sockets world_two_peers.
Proof.
  apply (socket_fields_set_by_join_only [Sig 1 MsgHangup; Sig 2 MsgDisconnect] []
           world_two_peers).
  reflexivity.
Defined.

(** X3. Processes are started and signalled only on behalf of a video
    produce, a disconnect, an end-meeting, the manual routes, a file
    injection or a process event. Under any interleaving of the other
    signaling messages (join, transport creation and connection, audio
    produce, consume, consumer-resume, hangup) the playback sessions, the
    room flags and the process table are unchanged and the trace gains no
    spawn and no kill. *)
Theorem processes_untouched_by_other_messages
    (reqs : list Request) (sch : list nat) (w : World) :
  forallb (λ r, negb (touches_processes r)) reqs = true →
  same_playback w (run_schedule sch (in_flight reqs, w)).2 ∧
  same_playback w (runs (in_flight reqs) w).
Proof. apply (pool_respects same_playback touches_processes), serve_same_playback. Qed.

Lemma processes_untouched_by_other_messages_witness :
  hlsSessions (run_schedule [1; 0; 0; 1; 1; 1]
                 (in_flight [Sig 1 MsgHangup; Sig 2 (MsgConsume [7] 6)],
                  world_alice_video)).2
  = hlsSessions world_alice_video.
Proof.
  destruct (processes_untouched_by_other_messages
              [Sig 1 MsgHangup; Sig 2 (MsgConsume [7] 6)] [1; 0; 0; 1; 1; 1]
              world_alice_video) as [(H & _) _]; [reflexivity | exact H].
Defined.

(** X4. The table of injection sessions is written by
    [injectFileIntoMediasoup] only: under any interleaving of any other
    requests, room deletion and end-meeting included, no injection session
    is removed or replaced. *)
Theorem injection_table_written_by_injection_only
    (reqs : list Request) (sch : list nat) (w : World) :
  forallb (λ r, negb (is_inject r)) reqs = true →
  injectSessions (run_schedule sch (in_flight reqs, w)).2 = injectSessions w ∧
  injectSessions (runs (in_flight reqs) w) = injectSessions w.
Proof. apply (pool_respects (keeps injectSessions) is_inject), serve_keeps_injection. Qed.

Lemma injection_table_written_by_injection_only_witness :
  injectSessions (runs (in_flight [Sig 1 MsgEndMeeting; HlsStop (Some "r1"%string)])
                    world_alice_alone_injecting)
  = injectSessions world_alice_alone_injecting.
Proof.
  apply (injection_table_written_by_injection_only
           [Sig 1 MsgEndMeeting; HlsStop (Some "r1"%string)] [] world_alice_alone_injecting).
  reflexivity.
Defined.

(** ** Join that succeeds *)

(** Split on the outcome of the next external call, which [Hf] says
    succeeds. *)
Ltac next_call_ok Hf fl :=
  destruct fl as [|[] fl];
  [ clear Hf | simpl in Hf; discriminate Hf | simpl in Hf ].

Ltac calls_ok Hf fl E :=
  exec_in E;
  repeat (match type of E with
          | context [match fl with _ => _ end] => next_call_ok Hf fl; exec_in E
          end).

(** X5. A creator join on a room that has no durable record, when its
    three external calls succeed (existence test, routing context, write):
    the record is created with the creator as the only peer, the
    acknowledgement carries the routing capabilities and no list of
    existing producers, the socket is tagged with room and username, and
    the peer's two records are empty. *)
Theorem creator_join_creates_room (sid : nat) (user room : string) (w : World) :
  redis w !! roomKey room = None →
  calls_succeed 3 w →
  let w' := (run (joinRoom sid user room true) w).2 in
  (run (joinRoom sid user room true) w).1 = Ok tt ∧
  redis w' = <[roomKey room := [user]]> (redis w) ∧
  trace w' = trace w ++ [EvAck sid (AckJoin room None)] ∧
  roomId (socket sid w') = Some room ∧ username (socket sid w') = Some user ∧
  producerInfo w' !! peerKey room user = Some no_producers ∧
  consumerInfo w' !! peerKey room user = Some no_consumers.
Proof.
  intros Hr Hf. cbv zeta.
  destruct (run (joinRoom sid user room true) w) as [r w'] eqn:E.
  destruct w as [pI cI hA hS iS rd so eP eC eT ePr nid tr fl].
  unfold calls_succeed in Hf. simpl in Hr, Hf.
  next_call_ok Hf fl; exec_in E; rewrite Hr in E; simpl in E.
  2: next_call_ok Hf fl; exec_in E.
  3: next_call_ok Hf fl; exec_in E.
  all: injection E as <- <-; unfold socket; simpl; rewrite !lookup_insert_eq; done.
Qed.

Lemma creator_join_creates_room_witness :
  redis (run (joinRoom 1 "alice" "r1" true) emptyWorld).2
  = <[roomKey "r1" := ["alice"%string]]> (redis emptyWorld).
Proof.
  apply (creator_join_creates_room 1 "alice" "r1" emptyWorld); reflexivity.
Defined.

(** X6. A non-creator join on a room with a durable record, when its four
    external calls succeed: the username is appended to the stored peer
    list, whether or not it is already in it, and the acknowledgement lists
    the producers recorded for the peers that were in the list, read after
    the joiner's own record has been reset. *)
Theorem joiner_is_appended_and_told_existing_producers
    (sid : nat) (user room : string) (peers : list string) (w : World) :
  redis w !! roomKey room = Some peers →
  calls_succeed 4 w →
  let w' := (run (joinRoom sid user room false) w).2 in
  (run (joinRoom sid user room false) w).1 = Ok tt ∧
  redis w' = <[roomKey room := peers ++ [user]]> (redis w) ∧
  trace w' = trace w ++
    [EvAck sid (AckJoin room (Some (existingProducers room peers
       (set_producerInfo (<[peerKey room user := no_producers]>) w))))] ∧
  roomId (socket sid w') = Some room ∧ username (socket sid w') = Some user.
Proof.
  intros Hr Hf. cbv zeta.
  destruct (run (joinRoom sid user room false) w) as [r w'] eqn:E.
  destruct w as [pI cI hA hS iS rd so eP eC eT ePr nid tr fl].
  unfold calls_succeed in Hf. simpl in Hr, Hf.
  next_call_ok Hf fl; exec_in E; rewrite Hr in E; simpl in E.
  all: repeat (progress (calls_ok Hf fl E; rewrite ?Hr in E)).
  all: injection E as <- <-; unfold socket; simpl; rewrite !lookup_insert_eq; done.
Qed.

Lemma joiner_is_appended_and_told_existing_producers_witness :
  trace (run (joinRoom 3 "carol" "r1" false) world_alice_video).2
  = trace world_alice_video ++ [EvAck 3 (AckJoin "r1" (Some [(6, "alice"%string)]))].
Proof.
  apply (joiner_is_appended_and_told_existing_producers 3 "carol" "r1"
           ["alice"; "bob"]%string world_alice_video); reflexivity.
Defined.

(** ** Transports *)

(** X7. createWebRTCTransport on a joined connection whose two peer
    records exist, when its three external calls succeed: two new WebRTC
    transports are created on the room's router, the first is attached to
    the producer record and the second to the consumer record (the
    producers and consumers already recorded stay), and both ids are
    acknowledged. *)
Theorem transports_are_created_and_attached
    (sid : nat) (room user : string) (pinfo : PeerProducerInfo) (cinfo : PeerConsumerInfo)
    (w : World) :
  joined (socket sid w) = Some (room, user) →
  producerInfo w !! peerKey room user = Some pinfo →
  consumerInfo w !! peerKey room user = Some cinfo →
  calls_succeed 3 w →
  let w' := (run (createWebRTCTransport sid) w).2 in
  let t := next_id w in
  (run (createWebRTCTransport sid) w).1 = Ok tt ∧
  producerInfo w' = <[peerKey room user := {| producerTransport := Some t;
                                              producers := producers pinfo |}]> (producerInfo w) ∧
  consumerInfo w' = <[peerKey room user := {| consumerTransport := Some (S t);
                                              consumers := consumers cinfo |}]> (consumerInfo w) ∧
  e_transports w' =
    <[S t := {| t_room := room; t_plain := false; t_closed := false |}]>
      (<[t := {| t_room := room; t_plain := false; t_closed := false |}]> (e_transports w)) ∧
  trace w' = trace w ++ [EvAck sid (AckTransports t (S t))].
Proof.
  intros Hj Hp Hc Hf. cbv zeta.
  destruct (run (createWebRTCTransport sid) w) as [r w'] eqn:E.
  destruct w as [pI cI hA hS iS rd so eP eC eT ePr nid tr fl].
  unfold calls_succeed in Hf. simpl in Hp, Hc, Hf.
  exec_in E. rewrite Hj in E.
  repeat (progress (calls_ok Hf fl E; rewrite ?Hp, ?Hc in E)).
  all: injection E as <- <-; done.
Qed.

Lemma transports_are_created_and_attached_witness :
  trace (run (createWebRTCTransport 1) (run (joinRoom 1 "alice" "r1" true) emptyWorld).2).2
  = trace (run (joinRoom 1 "alice" "r1" true) emptyWorld).2 ++ [EvAck 1 (AckTransports 1 2)].
Proof.
  apply (transports_are_created_and_attached 1 "r1" "alice" no_producers no_consumers
           (run (joinRoom 1 "alice" "r1" true) emptyWorld).2); reflexivity.
Defined.

Lemma connect_without_transport sid room user w :
  joined (socket sid w) = Some (room, user) →
  ((∀ info, producerInfo w !! peerKey room user = Some info → producerTransport info = None) →
   run (transport_connect sid) w =
     (match producerInfo w !! peerKey room user with
      | Some _ => Raised "TypeError: producerTransport is null"
      | None => Ok tt
      end, w)) ∧
  ((∀ info, consumerInfo w !! peerKey room user = Some info → consumerTransport info = None) →
   run (transport_recv_connect sid) w =
     (match consumerInfo w !! peerKey room user with
      | Some _ => Raised "TypeError: consumerTransport is null"
      | None => Ok tt
      end, w)).
Proof.
  intros Hj. split; intros H.
  - unfold transport_connect. rewrite run_bind_gets, Hj, run_bind_gets.
    destruct (producerInfo w !! peerKey room user) as [[t ps]|]; [|done].
    specialize (H _ eq_refl). simpl in H. by subst t.
  - unfold transport_recv_connect. rewrite run_bind_gets, Hj, run_bind_gets.
    destruct (consumerInfo w !! peerKey room user) as [[t ps]|]; [|done].
    specialize (H _ eq_refl). simpl in H. by subst t.
Qed.

(** X8. transport-connect and transport-recv-connect have no [try]: on a
    joined connection whose record exists but holds no transport yet (a
    join not followed by createWebRTCTransport) the handler raises a
    TypeError that nothing catches, with no outward call and no change of
    state. *)
Theorem connect_before_transports_raises
    (sid : nat) (room user : string) (pinfo : PeerProducerInfo) (cinfo : PeerConsumerInfo)
    (w : World) :
  joined (socket sid w) = Some (room, user) →
  producerInfo w !! peerKey room user = Some pinfo → producerTransport pinfo = None →
  consumerInfo w !! peerKey room user = Some cinfo → consumerTransport cinfo = None →
  run (transport_connect sid) w = (Raised "TypeError: producerTransport is null", w) ∧
  run (transport_recv_connect sid) w = (Raised "TypeError: consumerTransport is null", w).
Proof.
  intros Hj Hp Hpt Hc Hct. destruct (connect_without_transport sid room user w Hj) as [H1 H2].
  rewrite H1, H2, Hp, Hc; [done| |]; intros info; congruence.
Qed.

Lemma connect_before_transports_raises_witness :
  (run (transport_connect 1) (run (joinRoom 1 "alice" "r1" true) emptyWorld).2).1
  = Raised "TypeError: producerTransport is null".
Proof.
  destruct (connect_before_transports_raises 1 "r1" "alice" no_producers no_consumers
              (run (joinRoom 1 "alice" "r1" true) emptyWorld).2) as [H _];
    [reflexivity..|].
  rewrite H. reflexivity.
Defined.

Lemma produce_no_transport sid k rtp appData room user w :
  joined (socket sid w) = Some (room, user) →
  producerInfo w !! peerKey room user ≫= producerTransport = None →
  run (transport_produce sid k rtp appData) w =
    (Ok tt, emit (EvAck sid (AckError "Producer transport not found")) w).
Proof.
  intros Hj Ht. unfold transport_produce. rewrite run_bind_gets, Hj.
  simpl. rewrite Ht. reflexivity.
Qed.

Lemma consume_no_transport sid caps pid room user w :
  joined (socket sid w) = Some (room, user) →
  consumerInfo w !! peerKey room user ≫= consumerTransport = None →
  head (faults w) ≠ Some true →
  run (consume sid caps pid) w =
    (Ok tt, emit (EvAck sid (AckError "Consumer transport not found."))
              (set_faults (tail (faults w)) w)).
Proof.
  intros Hj Ht Hf. unfold consume. rewrite run_bind_gets, Hj.
  destruct w as [pI cI hA hS iS rd so eP eC eT ePr nid tr fl]. simpl in Ht, Hf.
  exec_in Ht. destruct fl as [|[] fl]; [|done|]; exec; rewrite Ht; reflexivity.
Qed.

Lemma transports_without_record sid room user w :
  joined (socket sid w) = Some (room, user) →
  producerInfo w !! peerKey room user = None →
  calls_succeed 3 w →
  let w' := (run (createWebRTCTransport sid) w).2 in
  let t := next_id w in
  (run (createWebRTCTransport sid) w).1 = Ok tt ∧
  trace w' = trace w ++
    [EvAck sid (AckError "TypeError: producerInfo.get(peerKey) is undefined")] ∧
  producerInfo w' = producerInfo w ∧ consumerInfo w' = consumerInfo w ∧
  e_transports w' =
    <[S t := {| t_room := room; t_plain := false; t_closed := false |}]>
      (<[t := {| t_room := room; t_plain := false; t_closed := false |}]> (e_transports w)).
Proof.
  intros Hj Hp Hf. cbv zeta.
  destruct (run (createWebRTCTransport sid) w) as [r w'] eqn:E.
  destruct w as [pI cI hA hS iS rd so eP eC eT ePr nid tr fl].
  unfold calls_succeed in Hf. simpl in Hp, Hf.
  exec_in E. rewrite Hj in E.
  repeat (progress (calls_ok Hf fl E; rewrite ?Hp in E)).
  all: injection E as <- <-; done.
Qed.

Lemma hangup_world sid room user w :
  joined (socket sid w) = Some (room, user) →
  run (hangup sid) w = (Ok tt, emit (EvToRoom room None (PeerLeft user)) (cleanupPeer room user w)).
Proof. intros Hj. unfold hangup. rewrite run_bind_gets, Hj. reflexivity. Qed.

(** X9. After a hangup the connection is still joined (the guard of the
    handlers passes) but has no peer record. What it then sends is
    refused or ignored: transport-produce and consume acknowledge
    "transport not found"; the two connect messages and consumer-resume
    return without doing anything; createWebRTCTransport creates its two
    transports, then fails on the missing record and acknowledges the
    TypeError, leaving the two transports open in the engine and attached
    to no record. *)
Theorem requests_after_hangup_are_refused (sid : nat) (room user : string) (w : World) :
  joined (socket sid w) = Some (room, user) →
  let w1 := (run (hangup sid) w).2 in
  joined (socket sid w1) = Some (room, user) ∧
  (∀ k rtp appData,
     run (transport_produce sid k rtp appData) w1 =
       (Ok tt, emit (EvAck sid (AckError "Producer transport not found")) w1)) ∧
  (∀ caps pid, head (faults w) ≠ Some true →
     trace (run (consume sid caps pid) w1).2 =
       trace w1 ++ [EvAck sid (AckError "Consumer transport not found.")]) ∧
  run (transport_connect sid) w1 = (Ok tt, w1) ∧
  run (transport_recv_connect sid) w1 = (Ok tt, w1) ∧
  (∀ cid, run (consumer_resume sid cid) w1 = (Ok tt, w1)) ∧
  (calls_succeed 3 w →
   let w2 := (run (createWebRTCTransport sid) w1).2 in
   trace w2 = trace w1 ++
     [EvAck sid (AckError "TypeError: producerInfo.get(peerKey) is undefined")] ∧
   producerInfo w2 !! peerKey room user = None ∧
   (e_transports w2 !! next_id w1) =
     Some {| t_room := room; t_plain := false; t_closed := false |} ∧
   (e_transports w2 !! S (next_id w1)) =
     Some {| t_room := room; t_plain := false; t_closed := false |}).
Proof.
  intros Hj. cbv zeta. rewrite (hangup_world sid room user w Hj).
  set (w1 := emit _ _). change ((Ok tt, w1).2) with w1.
  pose proof (cleanupPeer_rooms room user w) as (_ & _ & _ & _ & Hs & _ & Hfl).
  assert (joined (socket sid w1) = Some (room, user)) as Hj1.
  { unfold socket, w1. simpl. rewrite Hs. exact Hj. }
  assert (producerInfo w1 !! peerKey room user = None) as Hp1
    by apply cleanupPeer_producer_gone.
  assert (consumerInfo w1 !! peerKey room user = None) as Hc1.
  { unfold w1. simpl. rewrite cleanupPeer_consumerInfo. apply lookup_delete_eq. }
  assert (faults w1 = faults w) as Hf1 by exact Hfl.
  clearbody w1.
  split; [exact Hj1|]. split.
  { intros k rtp appData. apply (produce_no_transport _ _ _ _ room user); [done|].
    by rewrite Hp1. }
  split.
  { intros caps pid Hf. rewrite (consume_no_transport _ _ _ room user); [done|done| |].
    - by rewrite Hc1.
    - by rewrite Hf1. }
  split.
  { destruct (connect_without_transport sid room user w1 Hj1) as [H _].
    rewrite H; [by rewrite Hp1|]. intros info. by rewrite Hp1. }
  split.
  { destruct (connect_without_transport sid room user w1 Hj1) as [_ H].
    rewrite H; [by rewrite Hc1|]. intros info. by rewrite Hc1. }
  split.
  { intros cid. apply consumer_resume_unknown. intros r u info Hj2 Hi.
    rewrite Hj1 in Hj2. injection Hj2 as <- <-. by rewrite Hc1 in Hi. }
  intros Hf.
  destruct (transports_without_record sid room user w1 Hj1 Hp1) as (_ & Ht & Hp & _ & He).
  { unfold calls_succeed. by rewrite Hf1. }
  split; [exact Ht|]. split; [by rewrite Hp|]. rewrite He. split.
  - rewrite lookup_insert_ne by lia. apply lookup_insert_eq.
  - apply lookup_insert_eq.
Qed.

Lemma requests_after_hangup_are_refused_witness :
  trace (run (transport_produce 1 video 7 "alice") (run (hangup 1) world_alice_video).2).2 =
  trace (run (hangup 1) world_alice_video).2 ++
    [EvAck 1 (AckError "Producer transport not found")].
Proof.
  destruct (requests_after_hangup_are_refused 1 "r1" "alice" world_alice_video)
    as (_ & H & _); [reflexivity|].
  rewrite H. reflexivity.
Defined.

(** ** Produce and the playback gate *)

Lemma produce_gated sid k rtp appData room user info t w :
  joined (socket sid w) = Some (room, user) →
  producerInfo w !! peerKey room user = Some info →
  producerTransport info = Some t →
  head (faults w) ≠ Some true →
  k = audio ∨ room ∈ hlsActiveRooms w →
  let w' := (run (transport_produce sid k rtp appData) w).2 in
  (run (transport_produce sid k rtp appData) w).1 = Ok tt ∧
  hlsSessions w' = hlsSessions w ∧ hlsActiveRooms w' = hlsActiveRooms w ∧
  e_procs w' = e_procs w ∧
  trace w' = trace w ++ [EvToRoom room (Some sid) (NewProducer user (next_id w));
                         EvAck sid (AckProduced (next_id w))].
Proof.
  intros Hj Hi Ht Hf Hk. cbv zeta.
  rewrite (produce_split sid k rtp appData room user info t w Hj Hi Ht Hf).
  assert (∀ w1, hlsActiveRooms w1 = hlsActiveRooms w →
                run (hls_integration room (next_id w) k) w1 = (Ok tt, w1)) as Hh.
  { intros w1 E1. destruct Hk as [->|Hin]; [done|]. destruct k; [done|].
    unfold hls_integration. rewrite run_bind_gets, E1.
    by rewrite (bool_decide_eq_true_2 _ Hin). }
  rewrite run_try_catch by (apply fork_free_bind; [apply hls_integration_fork_free|ff_tac]).
  rewrite run_bind by apply hls_integration_fork_free.
  rewrite Hh by reflexivity.
  destruct w as [pI cI hA hS iS rd so eP eC eT ePr nid tr fl].
  exec. simpl. rewrite <- app_assoc. done.
Qed.

(** X10. A transport-produce of kind audio, or of kind video in a room
    that is already flagged as recording, starts nothing: given the
    producer transport and a successful [transport.produce], the handler
    returns normally, playback sessions, room flags and processes are as
    before, and the only outward calls are the new-producer notification
    to the room and the acknowledgement with the producer id. *)
Theorem gated_produce_starts_no_recording
    (sid : nat) (k : MediaKind) (rtp : nat) (appData room user : string)
    (info : PeerProducerInfo) (t : nat) (w : World) :
  joined (socket sid w) = Some (room, user) →
  producerInfo w !! peerKey room user = Some info →
  producerTransport info = Some t →
  head (faults w) ≠ Some true →
  k = audio ∨ room ∈ hlsActiveRooms w →
  let w' := (run (transport_produce sid k rtp appData) w).2 in
  (run (transport_produce sid k rtp appData) w).1 = Ok tt ∧
  hlsSessions w' = hlsSessions w ∧ hlsActiveRooms w' = hlsActiveRooms w ∧
  e_procs w' = e_procs w ∧
  trace w' = trace w ++ [EvToRoom room (Some sid) (NewProducer user (next_id w));
                         EvAck sid (AckProduced (next_id w))].
Proof. apply produce_gated. Qed.

Lemma gated_produce_starts_no_recording_witness :
  trace (run (transport_produce 2 video 7 "bob") world_alice_video).2
  = trace world_alice_video ++ [EvToRoom "r1" (Some 2) (NewProducer "bob" 10);
                                EvAck 2 (AckProduced 10)].
Proof.
  apply (gated_produce_starts_no_recording 2 video 7 "bob" "r1" "bob"
           {| producerTransport := Some 4; producers := [] |} 4 world_alice_video).
  - reflexivity.
  - reflexivity.
  - reflexivity.
  - vm_compute. discriminate.
  - right. apply (bool_decide_unpack _). vm_compute. exact I.
Defined.

Lemma produce_acknowledged sid k rtp appData room user info t w :
  joined (socket sid w) = Some (room, user) →
  producerInfo w !! peerKey room user = Some info →
  producerTransport info = Some t →
  head (faults w) ≠ Some true →
  let w' := (run (transport_produce sid k rtp appData) w).2 in
  (run (transport_produce sid k rtp appData) w).1 = Ok tt ∧
  ∃ l, trace w' = trace w ++ l ++ [EvToRoom room (Some sid) (NewProducer user (next_id w));
                                   EvAck sid (AckProduced (next_id w))].
Proof.
  intros Hj Hi Ht Hf. cbv zeta.
  rewrite (produce_split sid k rtp appData room user info t w Hj Hi Ht Hf).
  set (w1 := set_producerInfo _ _).
  assert (trace w1 = trace w) as T1 by reflexivity. clearbody w1.
  rewrite run_try_catch by (apply fork_free_bind; [apply hls_integration_fork_free|ff_tac]).
  rewrite run_bind by apply hls_integration_fork_free.
  pose proof (hls_integration_ok room (next_id w) k w1) as O2.
  pose proof (respects_run keeps_producers _ w1 (hls_integration_keeps room (next_id w) k)) as K2.
  destruct (run (hls_integration room (next_id w) k) w1) as [r2 w2]. simpl in O2, K2. subst r2.
  destruct (run _ w2) as [r3 w3] eqn:E3. apply produce_tail in E3 as (-> & _ & E3).
  simpl. split; [done|]. destruct K2 as [_ (l & El & _)]. exists l.
  by rewrite E3, El, T1, <- app_assoc.
Qed.

#[global] Instance producer_stays_refl p : Reflexive (producer_stays p).
Proof. intros w H. exact H. Qed.

#[global] Instance producer_stays_trans p : Transitive (producer_stays p).
Proof. unfold producer_stays. intros w1 w2 w3 H1 H2. auto. Qed.

Ltac leaf_stays :=
  intros; unfold producer_stays;
  try match goal with |- context [opt _ ?h _] => destruct h end;
  simpl; rewrite ?lookup_fmap, ?fmap_is_Some; auto.

Lemma startHls_producer_stays p room producer router :
  respects (producer_stays p) (startHlsRecording room producer router).
Proof. unfold startHlsRecording. respects_tac; leaf_stays. Qed.

Lemma hls_integration_producer_stays p room producer k :
  respects (producer_stays p) (hls_integration room producer k).
Proof.
  unfold hls_integration. respects_tac; try apply startHls_producer_stays; leaf_stays.
Qed.

Lemma produce_listener sid k rtp appData room user info t w :
  joined (socket sid w) = Some (room, user) →
  producerInfo w !! peerKey room user = Some info →
  producerTransport info = Some t →
  head (faults w) ≠ Some true →
  let w' := (run (transport_produce sid k rtp appData) w).2 in
  (p_onclose <$> e_producers w' !! next_id w) = Some (Some (peerKey room user, k)).
Proof.
  intros Hj Hi Ht Hf. cbv zeta.
  rewrite (produce_split sid k rtp appData room user info t w Hj Hi Ht Hf).
  set (w1 := set_producerInfo _ _).
  assert (is_Some (e_producers w1 !! next_id w)) as S1.
  { unfold w1. simpl. rewrite lookup_insert_eq. eauto. }
  clearbody w1.
  rewrite run_try_catch by (apply fork_free_bind; [apply hls_integration_fork_free|ff_tac]).
  rewrite run_bind by apply hls_integration_fork_free.
  pose proof (hls_integration_ok room (next_id w) k w1) as O2.
  pose proof (respects_run (producer_stays (next_id w)) _ w1
                (hls_integration_producer_stays _ room (next_id w) k) S1) as [o Ho].
  destruct (run (hls_integration room (next_id w) k) w1) as [r2 w2]. simpl in O2, Ho. subst r2.
  generalize (next_id w) Ho. clear. intros p Ho.
  destruct w2. simpl in Ho. exec. simpl. rewrite lookup_alter_eq, Ho. reflexivity.
Qed.

(** X11. Whatever happens while playback is being started (any outcome of
    the external calls after [transport.produce]), the produce handler
    returns normally, its last two outward calls are the new-producer
    notification to the room and the acknowledgement with the producer id,
    and on return the new producer carries the ['@close'] listener for the
    caller's record and the produced kind. *)
Theorem produce_is_acknowledged_whatever_playback_does
    (sid : nat) (k : MediaKind) (rtp : nat) (appData room user : string)
    (info : PeerProducerInfo) (t : nat) (w : World) :
  joined (socket sid w) = Some (room, user) →
  producerInfo w !! peerKey room user = Some info →
  producerTransport info = Some t →
  head (faults w) ≠ Some true →
  let w' := (run (transport_produce sid k rtp appData) w).2 in
  (run (transport_produce sid k rtp appData) w).1 = Ok tt ∧
  (∃ l, trace w' = trace w ++ l ++ [EvToRoom room (Some sid) (NewProducer user (next_id w));
                                    EvAck sid (AckProduced (next_id w))]) ∧
  (p_onclose <$> e_producers w' !! next_id w) = Some (Some (peerKey room user, k)).
Proof.
  intros Hj Hi Ht Hf. cbv zeta.
  destruct (produce_acknowledged sid k rtp appData room user info t w Hj Hi Ht Hf) as [H1 H2].
  split; [exact H1|]. split; [exact H2|]. by apply (produce_listener _ _ _ _ _ _ info t).
Qed.

Lemma produce_is_acknowledged_whatever_playback_does_witness :
  (p_onclose <$> e_producers
     (run (transport_produce 1 video 7 "alice")
        (set_faults [false; true] world_two_peers)).2 !! 6)
  = Some (Some (peerKey "r1" "alice", video)).
Proof.
  apply (produce_is_acknowledged_whatever_playback_does 1 video 7 "alice" "r1" "alice"
           {| producerTransport := Some 1; producers := [] |} 1
           (set_faults [false; true] world_two_peers)).
  - reflexivity.
  - reflexivity.
  - reflexivity.
  - vm_compute. discriminate.
Defined.

Lemma startHls_keeps_flags room producer router :
  respects (keeps hlsActiveRooms) (startHlsRecording room producer router).
Proof. unfold startHlsRecording. frame_tac; leaf_field. Qed.

Lemma startHls_started room producer router w w' :
  run (startHlsRecording room producer router) w = (Ok tt, w') →
  ∃ pid t c, hlsSessions w' !! room = Some {| hls_ffmpeg := Some pid;
                                              hls_plainTransport := Some t;
                                              hls_consumer := Some c |} ∧
             (proc_alive <$> e_procs w' !! pid) = Some true.
Proof.
  intros E. destruct (hlsSessions w !! room) as [s|] eqn:Hs.
  - rewrite (startHls_prev _ _ _ s) in E by done.
    apply startHls_fresh in E; [|simpl; apply lookup_delete_eq].
    destruct E as (_ & Eh & Ep). eexists _, _, _. rewrite Eh, Ep.
    by rewrite !lookup_insert_eq.
  - apply startHls_fresh in E; [|done]. destruct E as (_ & Eh & Ep).
    eexists _, _, _. rewrite Eh, Ep. by rewrite !lookup_insert_eq.
Qed.

Ltac ff_hls := repeat first [ff_step | apply startHls_fork_free].

Lemma flag_needs_session room producer w :
  room ∉ hlsActiveRooms w →
  let w' := (run (hls_integration room producer video) w).2 in
  room ∈ hlsActiveRooms w' →
  ∃ pid t c, hlsSessions w' !! room = Some {| hls_ffmpeg := Some pid;
                                              hls_plainTransport := Some t;
                                              hls_consumer := Some c |} ∧
             (proc_alive <$> e_procs w' !! pid) = Some true.
Proof.
  intros Hn. cbv zeta. unfold hls_integration. rewrite run_bind_gets.
  rewrite (bool_decide_eq_false_2 _ Hn). unfold swallow.
  rewrite run_try_catch by ff_hls.
  rewrite run_bind by ff_tac.
  pose proof (respects_run (keeps hlsActiveRooms) (getRouter room) w
                ltac:(frame_tac; leaf_field)) as K1.
  destruct (run (getRouter room) w) as [[router|e] w1]; simpl in K1.
  2:{ simpl. rewrite K1. done. }
  rewrite run_bind by ff_hls.
  unfold await. rewrite run_bind by apply startHls_fork_free.
  pose proof (respects_run (keeps hlsActiveRooms) _ w1
                (startHls_keeps_flags room producer router)) as K2.
  destruct (run (startHlsRecording room producer router) w1) as [[[]|e] w2] eqn:E2;
    simpl in K2.
  2:{ simpl. rewrite K2, K1. done. }
  intros _. apply startHls_started in E2 as (pid & t & c & H1 & H2).
  exists pid, t, c. done.
Qed.

(** X12. A video produce flags the room as recording only when playback
    has in fact been started: if the room was not flagged before the
    handler and is flagged after it, then a session is recorded for the
    room, with all three of its handles, and its process is alive. A start
    that fails leaves the room unflagged. *)
Theorem room_flagged_only_with_running_session
    (sid : nat) (rtp : nat) (appData room user : string)
    (info : PeerProducerInfo) (t : nat) (w : World) :
  joined (socket sid w) = Some (room, user) →
  producerInfo w !! peerKey room user = Some info →
  producerTransport info = Some t →
  head (faults w) ≠ Some true →
  room ∉ hlsActiveRooms w →
  let w' := (run (transport_produce sid video rtp appData) w).2 in
  room ∈ hlsActiveRooms w' →
  ∃ pid t c, hlsSessions w' !! room = Some {| hls_ffmpeg := Some pid;
                                              hls_plainTransport := Some t;
                                              hls_consumer := Some c |} ∧
             (proc_alive <$> e_procs w' !! pid) = Some true.
Proof.
  intros Hj Hi Ht Hf Hn. cbv zeta.
  rewrite (produce_split sid video rtp appData room user info t w Hj Hi Ht Hf).
  set (w1 := set_producerInfo _ _).
  assert (room ∉ hlsActiveRooms w1) as Hn1 by exact Hn. clearbody w1.
  rewrite run_try_catch by (apply fork_free_bind; [apply hls_integration_fork_free|ff_tac]).
  rewrite run_bind by apply hls_integration_fork_free.
  pose proof (hls_integration_ok room (next_id w) video w1) as O2.
  pose proof (flag_needs_session room (next_id w) w1 Hn1) as F2. cbv zeta in F2.
  destruct (run (hls_integration room (next_id w) video) w1) as [r2 w2]. simpl in O2, F2.
  subst r2. destruct w2. exec. exact F2.
Qed.

Lemma room_flagged_only_with_running_session_witness :
  ∃ pid t c,
    hlsSessions (run (transport_produce 1 video 7 "alice") world_two_peers).2 !! "r1"%string
      = Some {| hls_ffmpeg := Some pid; hls_plainTransport := Some t; hls_consumer := Some c |} ∧
    (proc_alive <$> e_procs (run (transport_produce 1 video 7 "alice") world_two_peers).2
                      !! pid) = Some true.
Proof.
  apply (room_flagged_only_with_running_session 1 7 "alice" "r1" "alice"
           {| producerTransport := Some 1; producers := [] |} 1 world_two_peers).
  - reflexivity.
  - reflexivity.
  - reflexivity.
  - vm_compute. discriminate.
  - apply (bool_decide_unpack _). vm_compute. exact I.
  - apply (bool_decide_unpack _). vm_compute. exact I.
Defined.

(** X13. A start that fails after the spawn leaves the process behind:
    when the room has no session and the first four external calls of
    [startHlsRecording] succeed but [consumer.resume] fails, the function
    raises, ffmpeg has been spawned and is alive, and no session is
    recorded for the room, so a later [stopHlsRecording] finds nothing to
    stop and returns without a call. *)
Theorem start_failing_at_resume_leaves_process_running
    (room : string) (producer : nat) (router : string) (w : World) :
  hlsSessions w !! room = None →
  calls_succeed 4 w →
  faults w !! 4 = Some true →
  let w' := (run (startHlsRecording room producer router) w).2 in
  let pid := S (S (next_id w)) in
  (run (startHlsRecording room producer router) w).1 = Raised "consumer.resume" ∧
  trace w' = trace w ++ [EvConsume (next_id w) producer true (S (next_id w));
                         EvWriteSdp room; EvSpawn pid room] ∧
  (proc_alive <$> e_procs w' !! pid) = Some true ∧
  hlsSessions w' !! room = None ∧
  run (stopHlsRecording room) w' = (Ok tt, w').
Proof.
  intros Hn Hf Hx. cbv zeta.
  destruct (run (startHlsRecording room producer router) w) as [r w'] eqn:E.
  destruct w as [pI cI hA hS iS rd so eP eC eT ePr nid tr fl].
  unfold calls_succeed in Hf. simpl in Hn, Hf, Hx.
  exec_in E. rewrite Hn in E. calls_ok Hf fl E; try discriminate Hx.
  simpl in Hx. destruct fl as [|[] fl]; try discriminate Hx. exec_in E.
  injection E as <- <-. simpl. rewrite lookup_insert_eq, <- !app_assoc.
  repeat split; try done. exec. rewrite Hn. reflexivity.
Qed.

Lemma start_failing_at_resume_leaves_process_running_witness :
  (run (startHlsRecording "r1" 6 "r1")
     (set_faults [false; false; false; false; true]
        (runs [transport_produce 1 audio 7 "alice"] world_two_peers))).1
  = Raised "consumer.resume".
Proof.
  apply (start_failing_at_resume_leaves_process_running "r1" 6 "r1"
           (set_faults [false; false; false; false; true]
              (runs [transport_produce 1 audio 7 "alice"] world_two_peers)));
    reflexivity.
Defined.

(** ** Consume, then resume *)

Lemma calls_succeed_le (l : list bool) (n m : nat) :
  m ≤ n → forallb negb (take n l) = true → forallb negb (take m l) = true.
Proof.
  revert n m. induction l as [|b l IH]; intros n m Hle; [by destruct n, m|].
  destruct m as [|m]; [done|]. destruct n as [|n]; [lia|]. simpl.
  intros [Hb Hl]%andb_prop. rewrite Hb. simpl. apply (IH n m); [lia|done].
Qed.

Lemma calls_succeed_lookup (l : list bool) (n i : nat) :
  i < n → forallb negb (take n l) = true → l !! i ≠ Some true.
Proof.
  revert n i. induction l as [|b l IH]; intros n i Hlt; [done|].
  destruct n as [|n]; [lia|]. simpl. intros [Hb Hl]%andb_prop.
  destruct i as [|i]; simpl.
  - destruct b; [discriminate Hb | discriminate].
  - apply (IH n i); [lia|done].
Qed.

Lemma consume_served sid caps pid room user info t w :
  joined (socket sid w) = Some (room, user) →
  consumerInfo w !! peerKey room user = Some info →
  consumerTransport info = Some t →
  calls_succeed 2 w →
  canConsume room pid caps w = true →
  let w' := (run (consume sid caps pid) w).2 in
  let c := next_id w in
  (run (consume sid caps pid) w).1 = Ok tt ∧
  trace w' = trace w ++ [EvConsume t pid true c; EvAck sid (AckConsumed c pid)] ∧
  consumerInfo w' =
    <[peerKey room user := {| consumerTransport := Some t;
                              consumers := JsMap.set c c (consumers info) |}]> (consumerInfo w) ∧
  e_consumers w' = <[c := {| c_producer := pid; c_transport := t; c_paused := true;
                             c_closed := false |}]> (e_consumers w) ∧
  sockets w' = sockets w ∧ faults w' = drop 2 (faults w).
Proof.
  intros Hj Hi Ht Hf Hc. cbv zeta.
  destruct (run (consume sid caps pid) w) as [r w'] eqn:E.
  destruct w as [pI cI hA hS iS rd so eP eC eT ePr nid tr fl].
  unfold calls_succeed in Hf. unfold canConsume in Hc. simpl in Hi, Hf, Hc.
  exec_in E. rewrite Hj in E.
  next_call_ok Hf fl; [|next_call_ok Hf fl].
  all: repeat (progress (exec_in E; unfold canConsume in E;
                         cbv beta iota delta [e_producers] in E;
                         rewrite ?Hi, ?Ht, ?Hc in E)).
  all: injection E as <- <-; simpl; rewrite <- ?app_assoc, ?Ht; done.
Qed.

Lemma resume_known sid cid c room user info w :
  joined (socket sid w) = Some (room, user) →
  consumerInfo w !! peerKey room user = Some info →
  JsMap.get cid (consumers info) = Some c →
  head (faults w) ≠ Some true →
  let w' := (run (consumer_resume sid cid) w).2 in
  (run (consumer_resume sid cid) w).1 = Ok tt ∧
  trace w' = trace w ++ [EvResume c] ∧
  (c_paused <$> e_consumers w' !! c) = (λ _, false) <$> e_consumers w !! c.
Proof.
  intros Hj Hi Hg Hf. cbv zeta.
  destruct (run (consumer_resume sid cid) w) as [r w'] eqn:E.
  destruct w as [pI cI hA hS iS rd so eP eC eT ePr nid tr fl]. simpl in Hi, Hf.
  exec_in E. rewrite Hj in E. exec_in E. rewrite Hi in E. exec_in E. rewrite Hg in E.
  destruct fl as [|[] fl]; [|done|]; exec_in E; injection E as <- <-; simpl;
    rewrite lookup_alter_eq; by destruct (eC !! c).
Qed.

(** X14. A consume that can be served, followed by a consumer-resume
    with the acknowledged id: the consume creates the consumer paused on
    the caller's consumer transport, records it under its own id and
    acknowledges id and producer id; the resume finds it under that id and
    unpauses it. *)
Theorem consume_then_resume_unpauses
    (sid : nat) (caps : list nat) (pid : nat) (room user : string)
    (info : PeerConsumerInfo) (t : nat) (w : World) :
  joined (socket sid w) = Some (room, user) →
  consumerInfo w !! peerKey room user = Some info →
  consumerTransport info = Some t →
  calls_succeed 3 w →
  canConsume room pid caps w = true →
  let c := next_id w in
  let w1 := (run (consume sid caps pid) w).2 in
  let w2 := (run (consumer_resume sid c) w1).2 in
  trace w1 = trace w ++ [EvConsume t pid true c; EvAck sid (AckConsumed c pid)] ∧
  (consumerInfo w1 !! peerKey room user ≫= λ i, JsMap.get c (consumers i)) = Some c ∧
  (c_paused <$> e_consumers w1 !! c) = Some true ∧
  trace w2 = trace w1 ++ [EvResume c] ∧
  (c_paused <$> e_consumers w2 !! c) = Some false.
Proof.
  intros Hj Hi Ht Hf Hc. cbv zeta.
  destruct (consume_served sid caps pid room user info t w Hj Hi Ht) as
    (_ & Htr & Hci & Hec & Hso & Hfl);
    [unfold calls_succeed in *; apply (calls_succeed_le _ 3); [lia|done] | done |].
  set (w1 := (run (consume sid caps pid) w).2) in *. clearbody w1.
  assert (joined (socket sid w1) = Some (room, user)) as Hj1
    by (unfold socket; by rewrite Hso).
  assert (consumerInfo w1 !! peerKey room user =
            Some {| consumerTransport := Some t;
                    consumers := JsMap.set (next_id w) (next_id w) (consumers info) |}) as Hi1
    by (rewrite Hci; apply lookup_insert_eq).
  assert (head (faults w1) ≠ Some true) as Hf1.
  { rewrite Hfl, head_lookup, lookup_drop. apply (calls_succeed_lookup _ 3); [lia|done]. }
  destruct (resume_known sid (next_id w) (next_id w) room user _ w1 Hj1 Hi1) as (_ & Htr2 & Hp2);
    [apply JsMap_get_set|done|].
  split; [exact Htr|]. split; [rewrite Hi1; simpl; apply JsMap_get_set|].
  split; [by rewrite Hec, lookup_insert_eq|]. split; [exact Htr2|].
  by rewrite Hp2, Hec, lookup_insert_eq.
Qed.

Lemma consume_then_resume_unpauses_witness :
  (c_paused <$> e_consumers
     (run (consumer_resume 2 10) (run (consume 2 [7] 6) world_alice_video).2).2 !! 10)
  = Some false.
Proof.
  apply (consume_then_resume_unpauses 2 [7] 6 "r1" "bob"
           {| consumerTransport := Some 5; consumers := [] |} 5 world_alice_video);
    reflexivity.
Defined.

(** ** Leaving *)

(** X15. A disconnect that leaves other peers in the stored list, when
    its two external calls succeed: the filtered list is written back, the
    room stays, playback sessions, room flags and processes are untouched,
    the caller's two records are gone, and the outward calls are close
    calls on the caller's handles followed by one peer-left notification
    to the room. *)
Theorem disconnect_with_peers_left_keeps_room
    (sid : nat) (room user : string) (peers : list string) (w : World) :
  joined (socket sid w) = Some (room, user) →
  redis w !! roomKey room = Some peers →
  filter (λ p, p ≠ user) peers ≠ [] →
  calls_succeed 2 w →
  let w' := (run (disconnect sid) w).2 in
  (run (disconnect sid) w).1 = Ok tt ∧
  redis w' = <[roomKey room := filter (λ p, p ≠ user) peers]> (redis w) ∧
  hlsSessions w' = hlsSessions w ∧ hlsActiveRooms w' = hlsActiveRooms w ∧
  e_procs w' = e_procs w ∧
  producerInfo w' !! peerKey room user = None ∧
  consumerInfo w' !! peerKey room user = None ∧
  ∃ l, trace w' = trace w ++ l ++ [EvToRoom room None (PeerLeft user)] ∧
       Forall is_close_call l.

Proof.
  intros Hj Hp Hne Hf. cbv zeta. unfold disconnect. rewrite run_bind_gets, Hj.
  rewrite run_bind_await_act.
  pose proof (cleanupPeer_rooms room user w) as (R1 & R2 & R3 & R4 & R5 & R6 & R7).
  pose proof (cleanupPeer_trace room user w) as (l & Hl & Fl).
  pose proof (cleanupPeer_producer_gone room user w) as Gp.
  assert (consumerInfo (cleanupPeer room user w) !! peerKey room user = None) as Gc
    by (rewrite cleanupPeer_consumerInfo; apply lookup_delete_eq).
  set (w1 := cleanupPeer room user w) in *. clearbody w1.
  rewrite <- R1 in Hp. unfold calls_succeed in Hf. rewrite <- R7 in Hf.
  rewrite <- R1, <- R2, <- R3, <- R6. clear R1 R2 R3 R4 R5 R6 R7 Hj.
  destruct (run _ w1) as [r w'] eqn:E.
  destruct w1 as [pI cI hA hS iS rd so eP eC eT ePr nid tr fl]. simpl in *.
  next_call_ok Hf fl; exec_in E; rewrite Hp in E; exec_in E.
  all: destruct (filter (λ p, p ≠ user) peers) as [|p0 ps] eqn:Efilt; [done|].
  all: calls_ok Hf fl E.
  all: injection E as <- <-; simpl.
  all: repeat split; try done.
  all: exists l; by rewrite Hl, <- app_assoc.
Qed.

Lemma disconnect_with_peers_left_keeps_room_witness :
  redis (run (disconnect 2) world_alice_video).2
  = <[roomKey "r1" := filter (λ p, p ≠ "bob"%string) ["alice"; "bob"]%string]>
      (redis world_alice_video).
Proof.
  apply (disconnect_with_peers_left_keeps_room 2 "r1" "bob" ["alice"; "bob"]%string
           world_alice_video).
  - reflexivity.
  - reflexivity.
  - vm_compute. discriminate.
  - reflexivity.
Defined.

Lemma producer_close_keeps_gone p key w :
  producerInfo w !! key = None → producerInfo (producer_close p w) !! key = None.
Proof.
  intros H. unfold producer_close. cbn. destruct (e_producers w !! p) as [o|]; [|done].
  destruct (p_closed o); [done|]. destruct (p_onclose o) as [[key0 k]|]; [|done].
  cbn. destruct (decide (key0 = key)) as [->|Hne].
  - by rewrite lookup_alter_eq, H.
  - by rewrite lookup_alter_ne.
Qed.

Lemma forEach_close_producers_keeps_gone todo key key' w :
  producerInfo w !! key' = None →
  producerInfo (forEach_close_producers todo key w) !! key' = None.
Proof.
  revert w. induction todo as [|[k p] rest IH]; intros w H; cbn; [done|].
  apply IH. match goal with |- context [if ?b then _ else _] => destruct b end;
    [by apply producer_close_keeps_gone | done].
Qed.

Lemma cleanupPeer_keeps_gone room user key w :
  (producerInfo w !! key = None → producerInfo (cleanupPeer room user w) !! key = None) ∧
  (consumerInfo w !! key = None → consumerInfo (cleanupPeer room user w) !! key = None).
Proof.
  split; intros H.
  - unfold cleanupPeer. rewrite cleanup_consumer_side_producerInfo.
    unfold cleanup_producer_side.
    destruct (producerInfo w !! peerKey room user) as [info|]; [|done].
    cbn. destruct (decide (peerKey room user = key)) as [->|Hne];
      [apply lookup_delete_eq|]. rewrite lookup_delete_ne by done.
    transitivity (producerInfo (forEach_close_producers (producers info)
                                  (peerKey room user) w) !! key).
    + by destruct (producerTransport info).
    + by apply forEach_close_producers_keeps_gone.
  - rewrite cleanupPeer_consumerInfo.
    destruct (decide (peerKey room user = key)) as [->|Hne];
      [apply lookup_delete_eq|by rewrite lookup_delete_ne].
Qed.

Lemma cleanup_fold_keeps_gone room peers key w :
  (producerInfo w !! key = None →
   producerInfo (foldl (λ w p, cleanupPeer room p w) w peers) !! key = None) ∧
  (consumerInfo w !! key = None →
   consumerInfo (foldl (λ w p, cleanupPeer room p w) w peers) !! key = None).
Proof.
  revert w. induction peers as [|p peers IH]; intros w; simpl; [done|].
  destruct (IH (cleanupPeer room p w)) as [IH1 IH2].
  destruct (cleanupPeer_keeps_gone room p key w) as [H1 H2]. split; auto.
Qed.

Lemma cleanup_fold_all_gone room peers w :
  ∀ p, p ∈ peers →
    producerInfo (foldl (λ w p, cleanupPeer room p w) w peers) !! peerKey room p = None ∧
    consumerInfo (foldl (λ w p, cleanupPeer room p w) w peers) !! peerKey room p = None.
Proof.
  revert w. induction peers as [|q peers IH]; intros w p Hin; [by apply elem_of_nil in Hin|].
  simpl. destruct (decide (p = q)) as [->|Hne].
  - destruct (cleanup_fold_keeps_gone room peers (peerKey room q) (cleanupPeer room q w))
      as [H1 H2].
    split; [apply H1, cleanupPeer_producer_gone|].
    apply H2. rewrite cleanupPeer_consumerInfo. apply lookup_delete_eq.
  - apply IH. apply elem_of_cons in Hin as [?|?]; [done|done].
Qed.

(** X16. An end-meeting that returns normally on a room with a durable
    record: every peer of the stored list has neither a producer nor a
    consumer record afterwards, the record of the room is deleted, and the
    handler has closed the room's router and sent meeting-ended to the
    room. The guard asks for [roomId] only. *)
Theorem end_meeting_cleans_every_listed_peer
    (sid : nat) (room : string) (peers : list string) (w : World) :
  truthy (roomId (socket sid w)) = Some room →
  redis w !! roomKey room = Some peers →
  (run (end_meeting sid) w).1 = Ok tt →
  let w' := (run (end_meeting sid) w).2 in
  (∀ p, p ∈ peers → producerInfo w' !! peerKey room p = None ∧
                    consumerInfo w' !! peerKey room p = None) ∧
  redis w' = delete (roomKey room) (redis w) ∧
  ∃ l, trace w' = trace w ++ l ∧ EvRouterClose room ∈ l ∧
       EvToRoom room None MeetingEnded ∈ l.

Proof.
  intros Hr Hp E0. cbv zeta.
  destruct (run (end_meeting sid) w) as [r0 w'] eqn:E. simpl in E0. subst r0.
  unfold end_meeting in E. rewrite run_bind_gets in E.
  rewrite Hr in E. rewrite run_bind_await_ext in E.
  destruct (faults w) as [|[] fs] eqn:Hf; [|discriminate E|].
  all: rewrite run_bind_gets in E; simpl (redis (set_faults _ _)) in E; rewrite Hp in E.
  all: rewrite run_cleanup_all in E.
  all: match type of E with
       | run _ (foldl _ ?W _) = _ =>
           pose proof (cleanup_fold_rooms room peers W)
             as [(R1 & R2 & R3 & R4 & R5 & R6 & R7) (l & Hl & Fl)];
           pose proof (cleanup_fold_all_gone room peers W) as G
       end.
  all: set (w1 := foldl _ _ _) in *; clearbody w1; clear Hr.
  all: destruct w as [pI0 cI0 hA0 hS0 iS0 rd0 so0 eP0 eC0 eT0 ePr0 nid0 tr0 fl0].
  all: destruct w1 as [pI cI hA hS iS rd so eP eC eT ePr nid tr fl]; simpl in *.
  all: subst rd hS hA iS so ePr fl tr fl0.
  all: exec_in E.
  2: repeat match type of E with
       | context [match fs with _ => _ end] =>
           destruct fs as [|[] fs]; exec_in E; try discriminate E
       end.
  all: run_cases' E; try discriminate E.
  all: injection E as <-; simpl.
  all: (split; [exact G|]); (split; [reflexivity|]).
  all: rewrite <- !app_assoc; eexists; (split; [reflexivity|]).
  all: split; rewrite ?elem_of_app, ?list_elem_of_singleton; tauto.
Qed.

Lemma end_meeting_cleans_every_listed_peer_witness :
  redis (run (end_meeting 2) world_alice_video).2
  = delete (roomKey "r1") (redis world_alice_video).
Proof.
  apply (end_meeting_cleans_every_listed_peer 2 "r1" ["alice"; "bob"]%string
           world_alice_video); reflexivity.
Defined.

(** ** hls.ts: stop, restart, process events *)

Lemma hls_teardown_calls s w : trace (hls_teardown s w) = trace w ++ session_calls s.
Proof.
  destruct s as [[f|] [t|] [c|]]; unfold hls_teardown, session_calls, release_calls; simpl;
    rewrite <- ?app_assoc, ?app_nil_r; reflexivity.
Qed.

Lemma stop_effect room w :
  let w1 := (run (stopHlsRecording room) w).2 in
  (run (stopHlsRecording room) w).1 = Ok tt ∧
  hlsSessions w1 = delete room (hlsSessions w) ∧
  hlsActiveRooms w1 = hlsActiveRooms w ∧
  trace w1 = trace w ++ from_option session_calls [] (hlsSessions w !! room).
Proof.
  cbv zeta. destruct (run (stopHlsRecording room) w) as [r w1] eqn:E.
  destruct w as [pI cI hA hS iS rd so eP eC eT ePr nid tr fl]. exec_in E. simpl.
  destruct (hS !! room) as [[[f|] [t|] [c|]]|] eqn:Hs; exec_in E; injection E as <- <-;
    unfold session_calls, release_calls; simpl; rewrite <- ?app_assoc, ?app_nil_r;
    repeat split; try reflexivity.
  symmetry. by apply delete_id.
Qed.

Lemma stop_absent room w :
  hlsSessions w !! room = None → run (stopHlsRecording room) w = (Ok tt, w).
Proof. intros H. unfold stopHlsRecording. rewrite run_bind_gets, H. reflexivity. Qed.

Lemma stop_frame room w :
  let w1 := (run (stopHlsRecording room) w).2 in
  sockets w1 = sockets w ∧ producerInfo w1 = producerInfo w ∧
  faults w1 = faults w ∧ next_id w1 = next_id w.
Proof.
  cbv zeta. destruct (run (stopHlsRecording room) w) as [r w1] eqn:E.
  destruct w as [pI cI hA hS iS rd so eP eC eT ePr nid tr fl]. exec_in E.
  destruct (hS !! room) as [[[f|] [t|] [c|]]|]; exec_in E; injection E as <- <-; done.
Qed.

(** X17. [stopHlsRecording] can be called at any time and twice: it
    returns normally; with a session recorded it signals the process,
    calls close on the relay consumer and then on the relay transport, and
    removes the record; without one it makes no call. Either way no
    session is recorded afterwards and a second call changes nothing. It
    leaves the room's flag to its caller. *)
Theorem stop_recording_is_safe_twice (room : string) (w : World) :
  let w1 := (run (stopHlsRecording room) w).2 in
  (run (stopHlsRecording room) w).1 = Ok tt ∧
  hlsSessions w1 = delete room (hlsSessions w) ∧
  hlsActiveRooms w1 = hlsActiveRooms w ∧
  trace w1 = trace w ++ from_option session_calls [] (hlsSessions w !! room) ∧
  run (stopHlsRecording room) w1 = (Ok tt, w1).
Proof.
  cbv zeta. destruct (stop_effect room w) as (H1 & H2 & H3 & H4).
  repeat split; try done. apply stop_absent. rewrite H2. apply lookup_delete_eq.
Qed.

Lemma close_listener pid room a cp w :
  e_procs w !! pid = Some {| proc_room := room; proc_alive := a; proc_hls := Some cp |} →
  let w' := (run (ffmpeg_on_close pid) w).2 in
  (run (ffmpeg_on_close pid) w).1 = Ok tt ∧
  hlsSessions w' = delete room (hlsSessions w) ∧
  e_procs w' = e_procs w ∧
  trace w' = trace w ++ from_option release_calls [] (hlsSessions w !! room).
Proof.
  intros Hp. cbv zeta. destruct (run (ffmpeg_on_close pid) w) as [r w1] eqn:E.
  destruct w as [pI cI hA hS iS rd so eP eC eT ePr nid tr fl]. simpl in Hp.
  exec_in E. rewrite Hp in E. exec_in E. simpl.
  destruct (hS !! room) as [[[f|] [t|] [c|]]|] eqn:Hs; exec_in E; injection E as <- <-;
    unfold release_calls; simpl; rewrite <- ?app_assoc, ?app_nil_r;
    repeat split; try reflexivity.
  symmetry. by apply delete_id.
Qed.

(** X18. The ['close'] listener that [startHlsRecording] puts on its
    process looks the session up by room id when the process has exited:
    it calls close on the consumer and the transport of whatever session
    is recorded for the room at that moment, whichever process that
    session belongs to, and removes the record; it signals no process. *)
Theorem close_listener_releases_recorded_session
    (pid : nat) (room : string) (a : bool) (cp : nat * nat) (w : World) :
  e_procs w !! pid = Some {| proc_room := room; proc_alive := a; proc_hls := Some cp |} →
  let w' := (run (ffmpeg_on_close pid) w).2 in
  (run (ffmpeg_on_close pid) w).1 = Ok tt ∧
  hlsSessions w' = delete room (hlsSessions w) ∧
  e_procs w' = e_procs w ∧
  trace w' = trace w ++ from_option release_calls [] (hlsSessions w !! room).
Proof. apply close_listener. Qed.

Lemma close_listener_releases_recorded_session_witness :
  trace (run (ffmpeg_on_close 9) world_alice_video).2
  = trace world_alice_video ++ [EvConsumerClose 8; EvTransportClose 7].
Proof.
  apply (close_listener_releases_recorded_session 9 "r1" true (8, 7) world_alice_video).
  reflexivity.
Defined.

Lemma start_over_previous room producer router s w w' :
  hlsSessions w !! room = Some s →
  run (startHlsRecording room producer router) w = (Ok tt, w') →
  let n := next_id w in
  trace w' = trace w ++ session_calls s ++
               [EvConsume n producer true (S n); EvWriteSdp room;
                EvSpawn (S (S n)) room; EvResume (S n)] ∧
  hlsSessions w' !! room = Some {| hls_ffmpeg := Some (S (S n));
                                   hls_plainTransport := Some n;
                                   hls_consumer := Some (S n) |} ∧
  e_procs w' = <[S (S n) := {| proc_room := room; proc_alive := true;
                               proc_hls := Some (S n, n) |}]> (e_procs (hls_teardown s w)).
Proof.
  intros Hs E. rewrite (startHls_prev _ _ _ s) in E by done.
  apply startHls_fresh in E; [|simpl; apply lookup_delete_eq].
  destruct E as (Et & Eh & Ep). cbv zeta.
  assert (next_id (set_hlsSessions (delete room) (hls_teardown s w)) = next_id w) as En.
  { destruct s as [[f|] [t|] [c|]]; reflexivity. }
  rewrite En in *. split; [|split].
  - rewrite Et. simpl. by rewrite hls_teardown_calls, <- app_assoc.
  - rewrite Eh. apply lookup_insert_eq.
  - exact Ep.
Qed.

(** X19. A start over a previous session stops it first: when
    [startHlsRecording] returns normally in a room that had a session, the
    outward calls are the signal to the previous process and the close of
    its consumer and transport, then consume, SDP file, spawn and resume
    for the new session, which replaces the previous one in the table. *)
Theorem start_over_previous_session_stops_it_first
    (room : string) (producer : nat) (router : string) (s : HlsSession) (w : World) :
  hlsSessions w !! room = Some s →
  (run (startHlsRecording room producer router) w).1 = Ok tt →
  let w' := (run (startHlsRecording room producer router) w).2 in
  let n := next_id w in
  trace w' = trace w ++ session_calls s ++
               [EvConsume n producer true (S n); EvWriteSdp room;
                EvSpawn (S (S n)) room; EvResume (S n)] ∧
  hlsSessions w' !! room = Some {| hls_ffmpeg := Some (S (S n));
                                   hls_plainTransport := Some n;
                                   hls_consumer := Some (S n) |}.
Proof.
  intros Hs E0. cbv zeta.
  destruct (run (startHlsRecording room producer router) w) as [r w'] eqn:E.
  simpl in E0. subst r.
  destruct (start_over_previous room producer router s w w' Hs E) as (H1 & H2 & _). done.
Qed.

Lemma start_over_previous_session_stops_it_first_witness :
  trace (run (startHlsRecording "r1" 6 "r1") world_alice_video).2
  = trace world_alice_video ++
      [EvKill 9; EvConsumerClose 8; EvTransportClose 7;
       EvConsume 10 6 true 11; EvWriteSdp "r1"; EvSpawn 12 "r1"; EvResume 11].
Proof.
  apply (start_over_previous_session_stops_it_first "r1" 6 "r1"
           {| hls_ffmpeg := Some 9; hls_plainTransport := Some 7; hls_consumer := Some 8 |}
           world_alice_video); reflexivity.
Defined.

Lemma hls_teardown_procs s w f a cp room :
  e_procs w !! f = Some {| proc_room := room; proc_alive := a; proc_hls := Some cp |} →
  ∃ a', e_procs (hls_teardown s w) !! f =
          Some {| proc_room := room; proc_alive := a'; proc_hls := Some cp |}.
Proof.
  intros H. destruct s as [[g|] [t|] [c|]]; unfold hls_teardown; simpl; eauto.
  all: destruct (decide (g = f)) as [->|Hne];
    [rewrite lookup_alter_eq, H; simpl; eauto | rewrite lookup_alter_ne by done; eauto].
Qed.

(** X20. Restart, then the exit of the process that was replaced. A start
    over a previous session signals the previous process [f]; when [f]
    then exits, its ['close'] listener finds the new session under the
    room id: it closes the new consumer and the new transport and removes
    the new record, while the new process stays alive and is no longer
    recorded anywhere. *)
Theorem exit_of_replaced_process_releases_new_session
    (room : string) (producer : nat) (router : string) (s : HlsSession)
    (f : nat) (a : bool) (cp : nat * nat) (w : World) :
  hlsSessions w !! room = Some s →
  hls_ffmpeg s = Some f →
  e_procs w !! f = Some {| proc_room := room; proc_alive := a; proc_hls := Some cp |} →
  (run (startHlsRecording room producer router) w).1 = Ok tt →
  let w1 := (run (startHlsRecording room producer router) w).2 in
  let n := next_id w in
  let w2 := (run (ffmpeg_on_close f) w1).2 in
  EvKill f ∈ trace w1 ∧
  hlsSessions w1 !! room = Some {| hls_ffmpeg := Some (S (S n));
                                   hls_plainTransport := Some n;
                                   hls_consumer := Some (S n) |} ∧
  hlsSessions w2 !! room = None ∧
  trace w2 = trace w1 ++ [EvConsumerClose (S n); EvTransportClose n] ∧
  (proc_alive <$> e_procs w2 !! S (S n)) = Some true.

Proof.
  intros Hs Hf Hp E0. cbv zeta.
  destruct (run (startHlsRecording room producer router) w) as [r w1] eqn:E.
  simpl in E0. subst r. change ((Ok tt, w1).2) with w1.
  destruct (start_over_previous room producer router s w w1 Hs E) as (Et & Eh & Ep).
  assert (∃ a' cp', e_procs w1 !! f =
            Some {| proc_room := room; proc_alive := a'; proc_hls := Some cp' |}) as (a' & cp' & Hp1).
  { rewrite Ep. destruct (decide (S (S (next_id w)) = f)) as [<-|Hne].
    - rewrite lookup_insert_eq. eauto.
    - rewrite lookup_insert_ne by done.
      destruct (hls_teardown_procs s w f a cp room Hp) as [a' Ha']. eauto. }
  destruct (close_listener f room a' cp' w1 Hp1) as (_ & Hd & Hpr & Htr).
  rewrite Hd, Hpr, Htr, Eh. simpl.
  split.
  { rewrite Et. unfold session_calls. rewrite Hf. simpl.
    rewrite !elem_of_app, !elem_of_cons. tauto. }
  split; [done|]. split; [apply lookup_delete_eq|]. split; [done|].
  rewrite Ep, lookup_insert_eq. done.
Qed.

Lemma exit_of_replaced_process_releases_new_session_witness :
  hlsSessions (run (ffmpeg_on_close 9)
                 (run (startHlsRecording "r1" 6 "r1") world_alice_video).2).2 !! "r1"%string
  = None.
Proof.
  apply (exit_of_replaced_process_releases_new_session "r1" 6 "r1"
           {| hls_ffmpeg := Some 9; hls_plainTransport := Some 7; hls_consumer := Some 8 |}
           9 true (8, 7) world_alice_video); reflexivity.
Defined.

(** ** injectFile.ts *)

Lemma producer_close_calls p w : trace (producer_close p w) = trace w ++ [EvProducerClose p].
Proof.
  unfold producer_close. cbn. destruct (e_producers w !! p) as [o|]; [|done].
  destruct (p_closed o); [done|]. by destruct (p_onclose o) as [[key k]|].
Qed.

Lemma producer_close_next_id p w : next_id (producer_close p w) = next_id w.
Proof.
  unfold producer_close. cbn. destruct (e_producers w !! p) as [o|]; [|done].
  destruct (p_closed o); [done|]. by destruct (p_onclose o) as [[key k]|].
Qed.

Lemma producer_close_faults p w : faults (producer_close p w) = faults w.
Proof. apply producer_close_rooms. Qed.

Lemma inject_teardown_calls s w :
  trace (inject_teardown s w) = trace w ++ inject_calls s ∧
  next_id (inject_teardown s w) = next_id w ∧
  faults (inject_teardown s w) = faults w.
Proof.
  destruct s as [[f|] [ta|] [tv|] [pa|] [pv|]]; unfold inject_teardown, inject_calls; simpl;
    rewrite ?producer_close_calls, ?producer_close_next_id, ?producer_close_faults;
    simpl; rewrite ?producer_close_calls, ?producer_close_next_id,
             ?producer_close_faults; simpl;
    rewrite <- ?app_assoc, ?app_nil_r; done.
Qed.

Lemma inject_prev room router s w :
  injectSessions w !! room = Some s →
  run (injectFileIntoMediasoup room router) w =
  run (injectFileIntoMediasoup room router)
      (set_injectSessions (delete room) (inject_teardown s w)).
Proof.
  intros H. unfold injectFileIntoMediasoup. rewrite !run_bind_gets. cbv beta.
  rewrite H. simpl (injectSessions (set_injectSessions _ _)).
  rewrite lookup_delete_eq. reflexivity.
Qed.

Lemma inject_fresh room router w :
  injectSessions w !! room = None →
  calls_succeed 4 w →
  let w' := (run (injectFileIntoMediasoup room router) w).2 in
  let n := next_id w in
  (run (injectFileIntoMediasoup room router) w).1 = Ok (4 + n) ∧
  injectSessions w' =
    <[room := {| inj_ffmpeg := Some (4 + n); inj_audioTransport := Some n;
                 inj_videoTransport := Some (1 + n); inj_audioProducer := Some (2 + n);
                 inj_videoProducer := Some (3 + n) |}]> (injectSessions w) ∧
  trace w' = trace w ++ [EvSpawn (4 + n) room] ∧
  producerInfo w' = producerInfo w ∧
  e_producers w' =
    <[3 + n := {| p_kind := video; p_appData := ""; p_codec := 102; p_room := router;
                  p_transport := 1 + n; p_closed := false; p_onclose := None |}]>
      (<[2 + n := {| p_kind := audio; p_appData := ""; p_codec := 101; p_room := router;
                     p_transport := n; p_closed := false; p_onclose := None |}]>
         (e_producers w)) ∧
  e_procs w' = <[4 + n := {| proc_room := room; proc_alive := true; proc_hls := None |}]>
                 (e_procs w).
Proof.
  intros Hn Hf. cbv zeta.
  destruct (run (injectFileIntoMediasoup room router) w) as [r w'] eqn:E.
  destruct w as [pI cI hA hS iS rd so eP eC eT ePr nid tr fl].
  unfold calls_succeed in Hf. simpl in Hn, Hf.
  exec_in E. rewrite Hn in E. calls_ok Hf fl E.
  all: injection E as <- <-; simpl.
  all: rewrite ?lookup_insert_eq, ?lookup_insert_ne by lia; simpl.
  all: rewrite ?lookup_insert_eq, ?lookup_insert_ne by lia; done.
Qed.

Lemma inject_over_previous room router s w :
  injectSessions w !! room = Some s →
  calls_succeed 4 w →
  let w' := (run (injectFileIntoMediasoup room router) w).2 in
  let n := next_id w in
  (run (injectFileIntoMediasoup room router) w).1 = Ok (4 + n) ∧
  trace w' = trace w ++ inject_calls s ++ [EvSpawn (4 + n) room] ∧
  injectSessions w' !! room =
    Some {| inj_ffmpeg := Some (4 + n); inj_audioTransport := Some n;
            inj_videoTransport := Some (1 + n); inj_audioProducer := Some (2 + n);
            inj_videoProducer := Some (3 + n) |}.
Proof.
  intros Hs Hf. cbv zeta. rewrite (inject_prev room router s w Hs).
  destruct (inject_teardown_calls s w) as (Et & En & Efl).
  set (w2 := set_injectSessions (delete room) (inject_teardown s w)).
  assert (trace w2 = trace w ++ inject_calls s) as Et2 by exact Et.
  assert (next_id w2 = next_id w) as En2 by exact En.
  assert (calls_succeed 4 w2) as Hf2 by (unfold calls_succeed, w2; simpl; by rewrite Efl).
  assert (injectSessions w2 !! room = None) as Hn2 by apply lookup_delete_eq.
  clearbody w2.
  destruct (inject_fresh room router w2 Hn2 Hf2) as (Hr & Hi & Htr & _).
  rewrite En2 in Hr, Hi, Htr.
  split; [exact Hr|]. split.
  - rewrite Htr, Et2. by rewrite <- app_assoc.
  - rewrite Hi. apply lookup_insert_eq.
Qed.

(** X21. An injection into a room without an injection session, when
    its four external calls succeed: two plain transports and, on them, an
    audio producer with payload type 101 and a video producer with payload
    type 102 are created, ffmpeg is spawned, all five handles are recorded
    for the room and the process is returned. The two producers are
    entered in no peer record and carry no listener; the process has none
    of the playback listeners. *)
Theorem injection_creates_unowned_producers (room router : string) (w : World) :
  injectSessions w !! room = None →
  calls_succeed 4 w →
  let w' := (run (injectFileIntoMediasoup room router) w).2 in
  let n := next_id w in
  (run (injectFileIntoMediasoup room router) w).1 = Ok (4 + n) ∧
  injectSessions w' =
    <[room := {| inj_ffmpeg := Some (4 + n); inj_audioTransport := Some n;
                 inj_videoTransport := Some (1 + n); inj_audioProducer := Some (2 + n);
                 inj_videoProducer := Some (3 + n) |}]> (injectSessions w) ∧
  trace w' = trace w ++ [EvSpawn (4 + n) room] ∧
  producerInfo w' = producerInfo w ∧
  e_producers w' =
    <[3 + n := {| p_kind := video; p_appData := ""; p_codec := 102; p_room := router;
                  p_transport := 1 + n; p_closed := false; p_onclose := None |}]>
      (<[2 + n := {| p_kind := audio; p_appData := ""; p_codec := 101; p_room := router;
                     p_transport := n; p_closed := false; p_onclose := None |}]>
         (e_producers w)) ∧
  e_procs w' = <[4 + n := {| proc_room := room; proc_alive := true; proc_hls := None |}]>
                 (e_procs w).
Proof. apply inject_fresh. Qed.

Lemma injection_creates_unowned_producers_witness :
  (run (injectFileIntoMediasoup "r1" "r1") world_two_peers).1 = Ok 10.
Proof.
  apply (injection_creates_unowned_producers "r1" "r1" world_two_peers); reflexivity.
Defined.

(** X22. A second injection into the same room stops the first one
    before anything new is created: the process of the recorded session is
    signalled, close is called on its audio and video producers and then
    on its audio and video transports, and only then the new transports,
    producers and process follow; the room's record is replaced. *)
Theorem second_injection_stops_the_first
    (room router : string) (s : InjectSession) (w : World) :
  injectSessions w !! room = Some s →
  calls_succeed 4 w →
  let w' := (run (injectFileIntoMediasoup room router) w).2 in
  let n := next_id w in
  (run (injectFileIntoMediasoup room router) w).1 = Ok (4 + n) ∧
  trace w' = trace w ++ inject_calls s ++ [EvSpawn (4 + n) room] ∧
  injectSessions w' !! room =
    Some {| inj_ffmpeg := Some (4 + n); inj_audioTransport := Some n;
            inj_videoTransport := Some (1 + n); inj_audioProducer := Some (2 + n);
            inj_videoProducer := Some (3 + n) |}.
Proof. apply inject_over_previous. Qed.

Lemma second_injection_stops_the_first_witness :
  trace (run (injectFileIntoMediasoup "r1" "r1") world_alice_alone_injecting).2
  = trace world_alice_alone_injecting ++
      [EvKill 7; EvProducerClose 5; EvProducerClose 6; EvTransportClose 3;
       EvTransportClose 4; EvSpawn 12 "r1"].
Proof.
  apply (second_injection_stops_the_first "r1" "r1"
           {| inj_ffmpeg := Some 7; inj_audioTransport := Some 3;
              inj_videoTransport := Some 4; inj_audioProducer := Some 5;
              inj_videoProducer := Some 6 |} world_alice_alone_injecting); reflexivity.
Defined.

(** ** Manual start and stop *)

Lemma hls_start_keeps_flags rid pid : respects (keeps hlsActiveRooms) (hls_start rid pid).
Proof.
  unfold hls_start. frame_tac; try apply startHls_keeps_flags; leaf_field.
Qed.

(** X23. [/hls/start] always answers and never raises: the status is
    200, 400, 404 or 500 (every failure of the routing context or of the
    start is turned into a 500). Whatever it does, it leaves the room
    flags as they are: a manual start does not mark the room as
    recording. *)
Theorem manual_start_always_answers
    (rid : option string) (pid : option nat) (w : World) :
  ∃ status body, (run (hls_start rid pid) w).1 = Ok (Http status body) ∧
                 status ∈ [200; 400; 404; 500] ∧
                 hlsActiveRooms (run (hls_start rid pid) w).2 = hlsActiveRooms w.

Proof.
  pose proof (respects_run (keeps hlsActiveRooms) _ w (hls_start_keeps_flags rid pid)) as K.
  unfold hls_start in *. rewrite run_try_catch in * by ff_hls.
  destruct (truthy rid) as [room|]; [destruct pid as [p|]|].
  2,3: eexists 400, _; split; [reflexivity|]; split; [rewrite !elem_of_cons; tauto|exact K].
  rewrite run_bind in * by ff_hls.
  destruct (run (getRouter room) w) as [[router|e] w1].
  2:{ eexists 500, _. split; [reflexivity|]. split; [rewrite !elem_of_cons; tauto|exact K]. }
  rewrite run_bind_gets in *.
  destruct (find_producer room p w1) as [p'|].
  2:{ eexists 404, _. split; [reflexivity|]. split; [rewrite !elem_of_cons; tauto|exact K]. }
  rewrite run_bind in * by ff_hls.
  destruct (run (await (startHlsRecording room p' router)) w1) as [[[]|e] w2].
  - eexists 200, _. split; [reflexivity|]. split; [rewrite !elem_of_cons; tauto|exact K].
  - eexists 500, _. split; [reflexivity|]. split; [rewrite !elem_of_cons; tauto|exact K].
Qed.

(** X24. [/hls/start] for a producer id that no peer record with a key
    starting with [roomId:] lists answers 404 "Producer not found", after
    the routing context has been obtained, and starts nothing. *)
Theorem manual_start_unknown_producer
    (room : string) (rid : option string) (p : nat) (w : World) :
  truthy rid = Some room →
  head (faults w) ≠ Some true →
  find_producer room p w = None →
  run (hls_start rid (Some p)) w =
    (Ok (Http 404 "Producer not found"), set_faults (tail (faults w)) w).

Proof.
  intros Hr Hf Hn. unfold hls_start. rewrite Hr.
  destruct w as [pI cI hA hS iS rd so eP eC eT ePr nid tr fl]. simpl in Hf.
  assert (∀ w', producerInfo w' = pI → find_producer room p w' = None) as Hn'.
  { intros w' E. unfold find_producer in *. simpl in Hn. by rewrite E. }
  destruct fl as [|[] fl]; [|done|]; exec; rewrite Hn' by reflexivity; reflexivity.
Qed.

Lemma manual_start_unknown_producer_witness :
  (run (hls_start (Some "r1"%string) (Some 99)) world_alice_video).1
  = Ok (Http 404 "Producer not found").
Proof.
  rewrite (manual_start_unknown_producer "r1" (Some "r1"%string) 99 world_alice_video).
  - reflexivity.
  - reflexivity.
  - vm_compute. discriminate.
  - reflexivity.
Defined.

Lemma hls_stop_effect room rid w :
  truthy rid = Some room →
  run (hls_stop rid) w = (Ok (Http 200 "ok"), (run (stopHlsRecording room) w).2).
Proof.
  intros Hr. unfold hls_stop. rewrite Hr.
  destruct w as [pI cI hA hS iS rd so eP eC eT ePr nid tr fl]. exec.
  destruct (hS !! room) as [[[f|] [t|] [c|]]|]; reflexivity.
Qed.

(** X25. A manual stop leaves the room flagged, so recording does not
    come back by itself: after [/hls/stop] on a flagged room no session is
    recorded while the flag is still set, and a video produce that follows
    is acknowledged without starting anything (no spawn, still no
    session). *)
Theorem manual_stop_then_video_produce_does_not_restart
    (sid : nat) (rid : option string) (rtp : nat) (appData room user : string)
    (info : PeerProducerInfo) (t : nat) (w : World) :
  truthy rid = Some room →
  joined (socket sid w) = Some (room, user) →
  producerInfo w !! peerKey room user = Some info →
  producerTransport info = Some t →
  head (faults w) ≠ Some true →
  room ∈ hlsActiveRooms w →
  let w1 := (run (hls_stop rid) w).2 in
  let w2 := (run (transport_produce sid video rtp appData) w1).2 in
  hlsSessions w1 !! room = None ∧ room ∈ hlsActiveRooms w1 ∧
  hlsSessions w2 !! room = None ∧ room ∈ hlsActiveRooms w2 ∧
  filter is_spawn (trace w2) = filter is_spawn (trace w) ∧
  EvAck sid (AckProduced (next_id w)) ∈ trace w2.

Proof.
  intros Hr Hj Hi Ht Hf Hin. cbv zeta. rewrite (hls_stop_effect room rid w Hr).
  change ((Ok (Http 200 "ok"), (run (stopHlsRecording room) w).2).2)
    with (run (stopHlsRecording room) w).2.
  destruct (stop_effect room w) as (_ & Hs & Ha & Htr).
  destruct (stop_frame room w) as (Hso & Hpi & Hfl & Hni).
  set (w1 := (run (stopHlsRecording room) w).2) in *. clearbody w1.
  assert (joined (socket sid w1) = Some (room, user)) as Hj1
    by (unfold socket; by rewrite Hso).
  rewrite <- Hpi in Hi. rewrite <- Hfl in Hf. rewrite <- Ha in Hin.
  destruct (produce_gated sid video rtp appData room user info t w1 Hj1 Hi Ht Hf
              (or_intror Hin)) as (_ & Hs2 & Ha2 & _ & Htr2).
  rewrite Hs2, Ha2, Htr2, Hs, Htr, Hni.
  split; [apply lookup_delete_eq|]. split; [done|].
  split; [apply lookup_delete_eq|]. split; [done|]. split.
  - rewrite !filter_app. simpl.
    assert (filter is_spawn (from_option session_calls [] (hlsSessions w !! room)) = []) as ->.
    { destruct (hlsSessions w !! room) as [[[f|] [t0|] [c|]]|]; reflexivity. }
    by rewrite !app_nil_r.
  - rewrite !elem_of_app, !elem_of_cons. tauto.
Qed.

Lemma manual_stop_then_video_produce_does_not_restart_witness :
  hlsSessions (run (transport_produce 2 video 7 "bob")
                 (run (hls_stop (Some "r1"%string)) world_alice_video).2).2 !! "r1"%string
  = None.
Proof.
  apply (manual_stop_then_video_produce_does_not_restart 2 (Some "r1"%string) 7 "bob"
           "r1" "bob" {| producerTransport := Some 4; producers := [] |} 4 world_alice_video).
  - reflexivity.
  - reflexivity.
  - reflexivity.
  - reflexivity.
  - vm_compute. discriminate.
  - apply (bool_decide_unpack _). vm_compute. exact I.
Defined.

(** ** Listeners stay on their own record *)

#[global] Instance shrinks_refl : Reflexive shrinks.
Proof. intros w. split; [|split]; [eauto|eauto|lia]. Qed.

#[global] Instance shrinks_trans : Transitive shrinks.
Proof.
  intros w1 w2 w3 (A1 & B1 & C1) (A2 & B2 & C2). split; [|split]; [| |lia].
  - intros key info' k p H1 H2. destruct (A2 _ _ _ _ H1 H2) as (info & H3 & H4). eauto.
  - intros p o'' H. destruct (B2 _ _ H) as [?|(o' & H1 & H2)]; [by left|].
    destruct (B1 _ _ H1) as [?|(o & H3 & H4)]; [left; congruence|].
    right. exists o. split; [done|congruence].
Qed.

Lemma shrinks_wf w w' : shrinks w w' → listeners_wf w → listeners_wf w'.
Proof.
  intros (A & B & C) [I1 I2]. split.
  - intros key info' k p Hi Hin o' key' k' Ho Hl.
    destruct (A _ _ _ _ Hi Hin) as (info & Hi0 & Hin0).
    destruct (B _ _ Ho) as [?|(o & Ho0 & El)]; [congruence|].
    apply (I1 key info k p Hi0 Hin0 o key' k' Ho0). congruence.
  - intros key info' k p Hi Hin. destruct (A _ _ _ _ Hi Hin) as (info & Hi0 & Hin0).
    specialize (I2 _ _ _ _ Hi0 Hin0). lia.
Qed.

Lemma shrinks_ext w w' :
  producerInfo w' = producerInfo w → e_producers w' = e_producers w →
  next_id w' = next_id w → shrinks w w'.
Proof.
  intros E1 E2 E3. split; [|split]; [| |lia].
  - intros key info' k p. rewrite E1. eauto.
  - intros p o'. rewrite E2. eauto.
Qed.

Lemma shrinks_closing (c : ProducerObj → bool) w w' :
  producerInfo w' = producerInfo w →
  e_producers w' = (λ o, if c o then close_producer_obj o else o) <$> e_producers w →
  next_id w' = next_id w → shrinks w w'.
Proof.
  intros E1 E2 E3. split; [|split]; [| |lia].
  - intros key info' k p. rewrite E1. eauto.
  - intros p o'. rewrite E2, lookup_fmap. destruct (e_producers w !! p) as [o|]; [|done].
    simpl. intros [= <-]. right. exists o. split; [done|]. by destruct (c o).
Qed.

Lemma transport_close_shrinks t w : shrinks w (transport_close t w).
Proof.
  apply (shrinks_closing (λ o, bool_decide (p_transport o = t))); try reflexivity.
  simpl. apply map_fmap_ext. intros p o _. by destruct (decide _), (bool_decide_reflect (p_transport o = t)).
Qed.

Lemma router_close_shrinks room w : shrinks w (router_close room w).
Proof.
  apply (shrinks_closing
           (λ o, bool_decide (t_room <$> e_transports w !! p_transport o = Some room)));
    reflexivity.
Qed.

Lemma JsMap_delete_elem {K V : Type} `{EqDecision K} (k0 : K) (m : list (K * V)) kv :
  kv ∈ JsMap.delete k0 m → kv ∈ m.
Proof.
  induction m as [|[k' v'] m IH]; simpl; [done|].
  destruct (decide (k' = k0)); rewrite ?elem_of_cons; intros H; [right; auto|].
  destruct H; [by left | right; auto].
Qed.

Lemma JsMap_set_elem {K V : Type} `{EqDecision K} (k0 : K) (v0 : V) (m : list (K * V)) kv :
  kv ∈ JsMap.set k0 v0 m → kv = (k0, v0) ∨ kv ∈ m.
Proof.
  induction m as [|[k' v'] m IH]; simpl.
  - rewrite list_elem_of_singleton. by left.
  - destruct (decide (k' = k0)); rewrite !elem_of_cons; intros [H|H]; auto.
    destruct (IH H); auto.
Qed.

Lemma producer_close_shrinks p w : shrinks w (producer_close p w).
Proof.
  unfold producer_close. cbn. destruct (e_producers w !! p) as [o|] eqn:E;
    [|by apply shrinks_ext].
  destruct (p_closed o); [by apply shrinks_ext|].
  assert (∀ m, (∀ key info' k q, m !! key = Some info' → (k, q) ∈ producers info' →
                  ∃ info, producerInfo w !! key = Some info ∧ (k, q) ∈ producers info) →
          ∀ w', producerInfo w' = m → e_producers w' = <[p := close_producer_obj o]> (e_producers w) →
                next_id w' = next_id w → shrinks w w') as Hgen.
  { intros m Hm w' E1 E2 E3. split; [|split]; [| |lia].
    - intros key info' k q. rewrite E1. apply Hm.
    - intros q o'. rewrite E2. destruct (decide (p = q)) as [<-|Hne].
      + rewrite lookup_insert_eq. intros [= <-]. right. eauto.
      + rewrite lookup_insert_ne by done. eauto. }
  destruct (p_onclose o) as [[key0 k0]|].
  - eapply Hgen; [|reflexivity..]. intros key info' k q. cbn.
    destruct (decide (key0 = key)) as [->|Hne].
    + rewrite lookup_alter_eq. destruct (producerInfo w !! key) as [info|]; [|done].
      simpl. intros [= <-] Hin. simpl in Hin. exists info. split; [done|].
      by eapply JsMap_delete_elem.
    + rewrite lookup_alter_ne by done. eauto.
  - eapply Hgen; [|reflexivity..]. eauto.
Qed.

Lemma opt_shrinks f h w : (∀ x w, shrinks w (f x w)) → shrinks w (opt f h w).
Proof. intros Hf. destruct h; simpl; [apply Hf | reflexivity]. Qed.

Lemma forEach_close_producers_shrinks todo key w :
  shrinks w (forEach_close_producers todo key w).
Proof.
  revert w. induction todo as [|[k p] rest IH]; intros w; cbn; [reflexivity|].
  etrans; [|apply IH].
  match goal with |- context [if ?b then _ else _] => destruct b end;
    [apply producer_close_shrinks | reflexivity].
Qed.

Lemma delete_record_shrinks key w : shrinks w (set_producerInfo (delete key) w).
Proof.
  split; [|split]; [|eauto|simpl; lia].
  intros key' info' k p. simpl. destruct (decide (key = key')) as [->|Hne].
  - by rewrite lookup_delete_eq.
  - rewrite lookup_delete_ne by done. eauto.
Qed.

Lemma forEach_close_consumers_producers cs w :
  e_producers (forEach_close_consumers cs w) = e_producers w ∧
  next_id (forEach_close_consumers cs w) = next_id w.
Proof.
  unfold forEach_close_consumers. generalize (JsMap.values cs). intros l.
  revert w. induction l as [|c l IH]; intros w; simpl; [done|].
  destruct (IH (consumer_close c w)) as [-> ->]. done.
Qed.

Lemma cleanupPeer_shrinks room user w : shrinks w (cleanupPeer room user w).
Proof.
  unfold cleanupPeer. transitivity (cleanup_producer_side (peerKey room user) w).
  - unfold cleanup_producer_side.
    destruct (producerInfo w !! peerKey room user) as [info|]; [|reflexivity].
    cbv zeta.
    transitivity (forEach_close_producers (producers info) (peerKey room user) w);
      [apply forEach_close_producers_shrinks|].
    etrans; [|apply delete_record_shrinks].
    apply opt_shrinks, transport_close_shrinks.
  - generalize (cleanup_producer_side (peerKey room user) w). intros w1.
    unfold cleanup_consumer_side.
    destruct (consumerInfo w1 !! peerKey room user) as [info|]; [|reflexivity].
    cbv zeta.
    destruct (forEach_close_consumers_producers (consumers info) w1) as [E1 E2].
    destruct (forEach_close_consumers_tables (consumers info) w1) as [E3 _].
    transitivity (forEach_close_consumers (consumers info) w1);
      [by apply shrinks_ext|].
    etrans; [apply opt_shrinks, transport_close_shrinks|].
    by apply shrinks_ext.
Qed.

Lemma respects_fresh_succ R : (∀ w, R w (set_next_id (S (next_id w)) w)) → respects R fresh.
Proof. intros H w. by cbn. Qed.

Lemma next_id_shrinks w : shrinks w (set_next_id (S (next_id w)) w).
Proof. split; [|split]; [eauto|eauto|simpl; lia]. Qed.

Lemma insert_record_shrinks key info' w :
  (∀ k p, (k, p) ∈ producers info' →
          ∃ info, producerInfo w !! key = Some info ∧ (k, p) ∈ producers info) →
  shrinks w (set_producerInfo (<[key := info']>) w).
Proof.
  intros H. split; [|split]; [|eauto|simpl; lia].
  intros key' i k p. simpl. destruct (decide (key = key')) as [->|Hne].
  - rewrite lookup_insert_eq. intros [= <-]. apply H.
  - rewrite lookup_insert_ne by done. eauto.
Qed.

Lemma new_producer_shrinks p o w :
  p_onclose o = None → shrinks w (set_e_producers (<[p := o]>) w).
Proof.
  intros H. split; [|split]; [eauto| |simpl; lia].
  intros q o'. simpl. destruct (decide (p = q)) as [->|Hne].
  - rewrite lookup_insert_eq. intros [= <-]. by left.
  - rewrite lookup_insert_ne by done. eauto.
Qed.

Ltac leaf_shrinks :=
  intros;
  first
    [ apply shrinks_ext; reflexivity
    | apply next_id_shrinks
    | apply cleanupPeer_shrinks
    | apply router_close_shrinks
    | apply transport_close_shrinks
    | apply opt_shrinks; intros;
      first [ apply transport_close_shrinks | apply producer_close_shrinks
            | apply shrinks_ext; reflexivity ]
    | apply new_producer_shrinks; reflexivity
    | apply insert_record_shrinks; simpl; intros ? ? Hin;
      first [ by apply elem_of_nil in Hin | eauto ] ].

Ltac respects_update_eq :=
  apply respects_read; intros ?;
  match goal with |- guar _ (match ?x with _ => _ end) _ => destruct x eqn:? end;
  cbn [guar]; try exact I; (split; [leaf_shrinks|exact I]).

Ltac shrink_tac :=
  repeat first
    [ apply respects_fresh_succ
    | respects_step
    | apply respects_fork
    | apply respects_cleanup_all
    | respects_update_eq ].

Lemma startHls_shrinks room producer router :
  respects shrinks (startHlsRecording room producer router).
Proof. unfold startHlsRecording. shrink_tac; leaf_shrinks. Qed.

Lemma stopHls_shrinks room : respects shrinks (stopHlsRecording room).
Proof. unfold stopHlsRecording. shrink_tac; leaf_shrinks. Qed.

Lemma hls_integration_shrinks room producer k :
  respects shrinks (hls_integration room producer k).
Proof. unfold hls_integration. shrink_tac; try apply startHls_shrinks; leaf_shrinks. Qed.

Lemma handle_shrinks sid msg :
  (∀ k rtp appData, msg ≠ MsgTransportProduce k rtp appData) →
  respects shrinks (handle sid msg).
Proof.
  intros Hm. destruct msg; try (by (exfalso; eapply Hm));
    unfold handle, joinRoom, createWebRTCTransport, transport_connect, transport_recv_connect,
      consume, consumer_resume, hangup, end_meeting, disconnect;
    shrink_tac; try apply stopHls_shrinks; leaf_shrinks.
Qed.

Lemma serve_shrinks r :
  (∀ sid k rtp appData, r ≠ Sig sid (MsgTransportProduce k rtp appData)) →
  respects shrinks (serve r).
Proof.
  intros Hr. destruct r as [sid msg|rid pid|rid|room router|pid|pid]; unfold serve.
  - apply handle_shrinks. intros k rtp appData ->. by eapply Hr.
  - unfold hls_start. shrink_tac; try apply startHls_shrinks; leaf_shrinks.
  - unfold hls_stop. shrink_tac; try apply stopHls_shrinks; leaf_shrinks.
  - unfold injectFileIntoMediasoup. shrink_tac; leaf_shrinks.
  - unfold ffmpeg_on_error. shrink_tac; leaf_shrinks.
  - unfold ffmpeg_on_close. shrink_tac; leaf_shrinks.
Qed.


Lemma produce_call_fails sid k rtp appData room user t w :
  joined (socket sid w) = Some (room, user) →
  producerInfo w !! peerKey room user ≫= producerTransport = Some t →
  head (faults w) = Some true →
  run (transport_produce sid k rtp appData) w =
    (Ok tt, emit (EvAck sid (AckError "transport.produce")) (set_faults (tail (faults w)) w)).
Proof.
  intros Hj Ht Hf. unfold transport_produce. rewrite run_bind_gets, Hj.
  destruct w as [pI cI hA hS iS rd so eP eC eT ePr nid tr fl]. simpl in Ht, Hf.
  exec_in Ht. destruct fl as [|[] fl]; try discriminate Hf. exec. rewrite Ht. reflexivity.
Qed.

(** After the producer has been stored: it is listed under its peer's
    key only, and the listeners are still in place. *)
Lemma produce_stored_wf key k p o info w :
  listeners_wf w →
  producerInfo w !! key = Some info →
  p = next_id w →
  p_onclose o = None →
  let w1 := set_producerInfo
              (<[key := {| producerTransport := producerTransport info;
                           producers := JsMap.set k p (producers info) |}]>)
              (set_e_producers (<[p := o]>) (set_next_id (S p) w)) in
  listeners_wf w1 ∧
  ∀ key2 info2 k2, producerInfo w1 !! key2 = Some info2 → (k2, p) ∈ producers info2 →
                   key2 = key.
Proof.
  intros [I1 I2] Hi -> Ho. cbv zeta. simpl.
  assert (∀ key2 info2 k2 q,
            <[key := {| producerTransport := producerTransport info;
                        producers := JsMap.set k (next_id w) (producers info) |}]>
              (producerInfo w) !! key2 = Some info2 →
            (k2, q) ∈ producers info2 →
            (key2 = key ∧ q = next_id w) ∨
            ∃ info0, producerInfo w !! key2 = Some info0 ∧ (k2, q) ∈ producers info0) as Hcase.
  { intros key2 info2 k2 q. destruct (decide (key = key2)) as [<-|Hne].
    - rewrite lookup_insert_eq. intros [= <-]. simpl. intros Hin.
      apply JsMap_set_elem in Hin as [[= -> ->]|Hin]; [by left|]. right. eauto.
    - rewrite lookup_insert_ne by done. intros H1 H2. right. eauto. }
  split; [split|].
  - intros key2 info2 k2 q Hl Hin o' key' k' Ho' Hl'. simpl in *.
    destruct (Hcase _ _ _ _ Hl Hin) as [[-> ->]|(info0 & Hi0 & Hin0)].
    + rewrite lookup_insert_eq in Ho'. injection Ho' as <-. congruence.
    + pose proof (I2 _ _ _ _ Hi0 Hin0) as Hlt.
      rewrite lookup_insert_ne in Ho' by lia.
      by apply (I1 key2 info0 k2 q Hi0 Hin0 o' key' k').
  - intros key2 info2 k2 q Hl Hin. simpl in *.
    destruct (Hcase _ _ _ _ Hl Hin) as [[-> ->]|(info0 & Hi0 & Hin0)]; [lia|].
    specialize (I2 _ _ _ _ Hi0 Hin0). lia.
  - intros key2 info2 k2 Hl Hin.
    destruct (Hcase _ _ _ _ Hl Hin) as [[-> _]|(info0 & Hi0 & Hin0)]; [done|].
    specialize (I2 _ _ _ _ Hi0 Hin0). lia.
Qed.

Lemma on_close_wf p key k w :
  listeners_wf w →
  (∀ key2 info2 k2, producerInfo w !! key2 = Some info2 → (k2, p) ∈ producers info2 →
                    key2 = key) →
  listeners_wf (on_close p key k w).
Proof.
  intros [I1 I2] Hp. split; [|exact I2].
  intros key2 info2 k2 q Hl Hin o' key' k' Ho' Hl'. simpl in *.
  destruct (decide (p = q)) as [<-|Hne].
  - rewrite lookup_alter_eq in Ho'. destruct (e_producers w !! p) as [o|]; [|done].
    simpl in Ho'. injection Ho' as <-. simpl in Hl'. injection Hl' as <- _.
    symmetry. by eapply Hp.
  - rewrite lookup_alter_ne in Ho' by done.
    by apply (I1 key2 info2 k2 q Hl Hin o' key' k').
Qed.

Lemma emit_wf e w : listeners_wf w → listeners_wf (emit e w).
Proof. apply shrinks_wf. by apply shrinks_ext. Qed.

Lemma produce_wf sid k rtp appData w :
  listeners_wf w → listeners_wf (run (transport_produce sid k rtp appData) w).2.
Proof.
  intros Hw. destruct (joined (socket sid w)) as [[room user]|] eqn:Hj.
  2:{ unfold transport_produce. rewrite run_bind_gets, Hj. exact Hw. }
  destruct (producerInfo w !! peerKey room user ≫= producerTransport) as [t|] eqn:Ht.
  2:{ rewrite (produce_no_transport _ _ _ _ room user) by done. by apply emit_wf. }
  destruct (decide (head (faults w) = Some true)) as [Hf|Hf].
  { rewrite (produce_call_fails _ _ _ _ room user t) by done. apply emit_wf.
    revert Hw. apply shrinks_wf. by apply shrinks_ext. }
  destruct (producerInfo w !! peerKey room user) as [info|] eqn:Hi; [|done].
  simpl in Ht.
  rewrite (produce_split sid k rtp appData room user info t w Hj Hi Ht Hf).
  match goal with
  | |- context [set_e_producers (<[_ := ?o]>) _] =>
      destruct (produce_stored_wf (peerKey room user) k (next_id w) o info
                  (set_faults (tail (faults w)) w)) as [W1 O1];
        [revert Hw; apply shrinks_wf; by apply shrinks_ext|exact Hi|reflexivity|reflexivity|]
  end.
  cbv zeta in W1, O1.
  set (w1 := set_producerInfo _ _) in *. clearbody w1.
  rewrite run_try_catch by (apply fork_free_bind; [apply hls_integration_fork_free|ff_tac]).
  rewrite run_bind by apply hls_integration_fork_free.
  pose proof (hls_integration_ok room (next_id w) k w1) as O2.
  pose proof (respects_run shrinks _ w1 (hls_integration_shrinks room (next_id w) k)) as S2.
  destruct (run (hls_integration room (next_id w) k) w1) as [r2 w2]. simpl in O2, S2. subst r2.
  pose proof (shrinks_wf _ _ S2 W1) as W2.
  assert (∀ key2 info2 k2, producerInfo w2 !! key2 = Some info2 →
            (k2, next_id w) ∈ producers info2 → key2 = peerKey room user) as O2'.
  { intros key2 info2 k2 Hl Hin. destruct S2 as (A & _ & _).
    destruct (A _ _ _ _ Hl Hin) as (info0 & Hl0 & Hin0). by eapply O1. }
  change (listeners_wf
            (emit (EvAck sid (AckProduced (next_id w)))
               (on_close (next_id w) (peerKey room user) k
                  (emit (EvToRoom room (Some sid) (NewProducer user (next_id w))) w2)))).
  apply emit_wf, on_close_wf; [by apply emit_wf | exact O2'].
Qed.


Lemma serve_wf r w : listeners_wf w → listeners_wf (run (serve r) w).2.
Proof.
  intros Hw.
  destruct r as [sid msg|rid pid|rid|room router|pid|pid].
  1: destruct msg as [| | | |k rtp appData| | | | |].
  5: by apply produce_wf.
  all: revert Hw; apply shrinks_wf, (respects_run shrinks), serve_shrinks;
    intros; discriminate.
Qed.

(** X26. In every state the server reaches from its initial state when
    requests are served one after the other (signaling messages on any
    connections, manual start and stop, file injections, process events),
    each ['@close'] listener sits on the record that lists its producer:
    closing the producers of one peer never edits the record of another.
    Every listed producer has an id that the engine has handed out. *)
Theorem listeners_stay_on_their_record (reqs : list Request) :
  let w := runs (in_flight reqs) emptyWorld in
  (∀ key, listeners_local key w) ∧
  (∀ key info k p, producerInfo w !! key = Some info → (k, p) ∈ producers info →
                   p < next_id w).
Proof.
  cbv zeta. change (listeners_wf (runs (in_flight reqs) emptyWorld)).
  assert (listeners_wf emptyWorld) as H0.
  { split; intros key info k p Hi; simpl in Hi; by rewrite lookup_empty in Hi. }
  revert H0. generalize emptyWorld. unfold in_flight, runs.
  induction reqs as [|r reqs IH]; intros w Hw; [done|].
  simpl. apply IH. by apply serve_wf.
Qed.

(** ** The key of a peer record *)

Lemma string_append_inj (s x y : string) : String.append s x = String.append s y → x = y.
Proof.
  induction s as [|a s IH]; [done|].
  change (String a (String.append s x) = String a (String.append s y) → x = y).
  intros [= H]. by apply IH.
Qed.

Lemma string_append_assoc (s t u : string) :
  String.append (String.append s t) u = String.append s (String.append t u).
Proof.
  induction s as [|a s IH]; [done|].
  change (String a (String.append (String.append s t) u)
          = String a (String.append s (String.append t u))).
  by rewrite IH.
Qed.

Lemma join_resets_records sid user room isCreator w :
  let w' := (run (joinRoom sid user room isCreator) w).2 in
  producerInfo w' !! peerKey room user = Some no_producers ∧
  consumerInfo w' !! peerKey room user = Some no_consumers ∧
  extends_by (λ e, ¬ is_close_call e) w w'.
Proof.
  cbv zeta. destruct (run (joinRoom sid user room isCreator) w) as [r w'] eqn:E.
  destruct w as [pI cI hA hS iS rd so eP eC eT ePr nid tr fl].
  run_cases E; injection E as <- <-; simpl; rewrite !lookup_insert_eq.
  all: split; [done|]; split; [done|]; solve_extends; simpl; tauto.
Qed.

(** X27. The key [roomId:username] of the peer records separates the
    usernames of one room but not room from username: user [v] in room
    [r:u] has the key of user [u:v] in room [r]. Every join, whatever its
    outcome, replaces the two records under its key by empty ones without
    a close call, so a join of [v] to room [r:u] empties the records of
    user [u:v] of room [r]. *)
Theorem peer_key_does_not_separate_room_and_user
    (sid : nat) (r u v : string) (isCreator : bool) (w : World) :
  (∀ room x y, peerKey room x = peerKey room y → x = y) ∧
  peerKey (String.append r (String.append ":" u)) v = peerKey r (String.append u (String.append ":" v)) ∧
  let w' := (run (joinRoom sid v (String.append r (String.append ":" u)) isCreator) w).2 in
  producerInfo w' !! peerKey r (String.append u (String.append ":" v)) = Some no_producers ∧
  consumerInfo w' !! peerKey r (String.append u (String.append ":" v)) = Some no_consumers ∧
  extends_by (λ e, ¬ is_close_call e) w w'.
Proof.
  assert (peerKey (String.append r (String.append ":" u)) v
          = peerKey r (String.append u (String.append ":" v))) as Hk.
  { unfold peerKey. by rewrite !string_append_assoc. }
  split; [|split; [exact Hk|]].
  - intros room x y H. unfold peerKey in H. apply string_append_inj in H.
    by apply (string_append_inj ":") in H.
  - cbv zeta. rewrite <- Hk. apply join_resets_records.
Qed.
